(** * Multi-object tracking challenge: detection evaluation and motion prediction

    A shallow embedding of
    - [src/detector/data_obj_detect.py]: the greedy IoU matcher
      [tp_and_fp_of_detection], the metric aggregator
      [detection_metrics_from_tp_and_fp] and the two evaluation drivers of
      [MOT16ObjDetect];
    - [src/motion_prediction/kalman.py]: the geometry codec, the matrices of
      [SORTKalmanFilter], [KalmanFilter.smooth], [obj_is_moving] and
      [freeze_at_mean].

    Numbers.  The Python code computes in IEEE floating point.  The model is
    the exact-arithmetic idealisation: the detection module computes over the
    rationals [Q], extended with the three non-finite values the code can
    produce ([-np.inf] is written in the source, a division by zero yields
    [inf] or [nan]); the motion module, which takes square roots, computes
    over the reals [R].  Rounding is not modelled. *)

From Stdlib Require Import String QArith Qminmax Qabs List Lia Bool Arith ZArith.
From Stdlib Require Import Lqa Permutation.
From Stdlib Require Import Reals Lra.
Import ListNotations.

(** ** Python results: a value or a raised exception *)

Inductive exn : Type :=
  NameError | IndexError | ValueError | KeyError | CvError.

Inductive result (A : Type) : Type :=
| Ok (a : A)
| Raise (e : exn).
Arguments Ok {A} a.
Arguments Raise {A} e.

Definition bind {A B : Type} (r : result A) (k : A -> result B) : result B :=
  match r with
  | Ok a => k a
  | Raise e => Raise e
  end.

Notation "x <- r ;; k" := (bind r (fun x => k))
  (at level 61, r at next level, right associativity).

(** [a[i] = v] on a numpy array: IndexError out of range. *)
Fixpoint set_item {A : Type} (l : list A) (i : nat) (v : A) : result (list A) :=
  match l, i with
  | [], _ => Raise IndexError
  | _ :: t, O => Ok (v :: t)
  | x :: t, S i' => t' <- set_item t i' v ;; Ok (x :: t')
  end.

(** [a[i]] on a numpy array. *)
Definition get_item {A : Type} (l : list A) (i : nat) : result A :=
  match nth_error l i with
  | Some x => Ok x
  | None => Raise IndexError
  end.

(** ** Detection evaluation ([data_obj_detect.py]) *)

Module Detect.

Local Open Scope Q_scope.

(** *** Floats with the non-finite values *)

Inductive xfloat : Type :=
| Fin (q : Q)
| PInf
| NInf
| NaN.

Definition Qlt_bool (a b : Q) : bool := negb (Qle_bool b a).

(** [a / b] on finite floats, numpy semantics: no exception, a zero divisor
    gives [nan] (for [0/0]) or a signed infinity. *)
Definition fdiv (a b : Q) : xfloat :=
  if Qeq_bool b 0 then
    if Qeq_bool a 0 then NaN
    else if Qlt_bool 0 a then PInf else NInf
  else Fin (a / b).

(** [x > y]; any comparison with [nan] is false. *)
Definition xgtb (x y : xfloat) : bool :=
  match x, y with
  | NaN, _ | _, NaN => false
  | PInf, PInf => false
  | PInf, _ => true
  | _, PInf => false
  | NInf, _ => false
  | Fin _, NInf => true
  | Fin a, Fin b => Qlt_bool b a
  end.

(** [np.maximum] on two values: [nan] propagates. *)
Definition xmaximum (a b : xfloat) : xfloat :=
  match a, b with
  | NaN, _ => NaN
  | _, NaN => NaN
  | _, _ => if xgtb b a then b else a
  end.

(** [np.max] of a one-dimensional array; raises on an empty array. *)
Definition np_max (l : list xfloat) : result xfloat :=
  match l with
  | [] => Raise ValueError
  | x :: t => Ok (fold_left xmaximum t x)
  end.

(** [x] replaces the running best of [np.argmax]: the first [nan] wins and is
    never replaced, otherwise a strictly larger value wins. *)
Definition better (x best : xfloat) : bool :=
  match best, x with
  | NaN, _ => false
  | _, NaN => true
  | _, _ => xgtb x best
  end.

Fixpoint argmax_from (best : xfloat) (bi i : nat) (l : list xfloat) : nat :=
  match l with
  | [] => bi
  | x :: t =>
      if better x best then argmax_from x i (S i) t
      else argmax_from best bi (S i) t
  end.

(** [np.argmax]: index of the first occurrence of the maximum. *)
Definition np_argmax (l : list xfloat) : result nat :=
  match l with
  | [] => Raise ValueError
  | x :: t => Ok (argmax_from x 0%nat 1%nat t)
  end.

(** *** Boxes and the pixel-inclusive IoU *)

Record box : Type := mkBox { bx1 : Q; by1 : Q; bx2 : Q; by2 : Q }.

(** One entry of [overlaps] (lines 375-390): the IoU of detection [d] with
    ground-truth row [g], every extent taken with [+ 1.0]. *)
Definition overlap (d g : box) : xfloat :=
  let ixmin := Qmax (bx1 g) (bx1 d) in
  let iymin := Qmax (by1 g) (by1 d) in
  let ixmax := Qmin (bx2 g) (bx2 d) in
  let iymax := Qmin (by2 g) (by2 d) in
  let iw := Qmax (ixmax - ixmin + 1) 0 in
  let ih := Qmax (iymax - iymin + 1) 0 in
  let inters := iw * ih in
  let uni :=
    (bx2 d - bx1 d + 1) * (by2 d - by1 d + 1)
    + (bx2 g - bx1 g + 1) * (by2 g - by1 g + 1)
    - inters in
  fdiv inters uni.

(** [ovmax] and [jmax] after lines 373-392.  [jmax] stays unbound ([None])
    when [im_gt] is empty. *)
Definition best_match (im_gt : list box) (d : box)
  : result (xfloat * option nat) :=
  match im_gt with
  | [] => Ok (NInf, None)
  | _ :: _ =>
      let overlaps := map (overlap d) im_gt in
      ovmax <- np_max overlaps ;;
      jmax <- np_argmax overlaps ;;
      Ok (ovmax, Some jmax)
  end.

(** The three arrays the matcher mutates. *)
Record flags : Type := mkFlags {
  found : list Q;
  im_tp : list Q;
  im_fp : list Q
}.

Definition zeros (n : nat) : list Q := repeat 0 n.

(** The loop body for detection [d] at index [i] (lines 373-401). *)
Definition match_step (im_gt : list box) (ovthresh : Q)
           (i : nat) (d : box) (st : flags) : result flags :=
  bm <- best_match im_gt d ;;
  let '(ovmax, jmax) := bm in
  if xgtb ovmax (Fin ovthresh) then
    match jmax with
    | None => Raise NameError
    | Some j =>
        f <- get_item (found st) j ;;
        if Qeq_bool f 0 then
          tp' <- set_item (im_tp st) i 1 ;;
          found' <- set_item (found st) j 1 ;;
          Ok (mkFlags found' tp' (im_fp st))
        else
          fp' <- set_item (im_fp st) i 1 ;;
          Ok (mkFlags (found st) (im_tp st) fp')
    end
  else
    fp' <- set_item (im_fp st) i 1 ;;
    Ok (mkFlags (found st) (im_tp st) fp').

(** [for i, d in enumerate(im_det)], started at index [i]. *)
Fixpoint match_loop (im_gt : list box) (ovthresh : Q)
         (i : nat) (dets : list box) (st : flags) : result flags :=
  match dets with
  | [] => Ok st
  | d :: ds =>
      st' <- match_step im_gt ovthresh i d st ;;
      match_loop im_gt ovthresh (S i) ds st'
  end.

Definition tp_and_fp_of_detection (im_gt im_det : list box) (ovthresh : Q)
  : result flags :=
  match_loop im_gt ovthresh 0%nat im_det
    (mkFlags (zeros (length im_gt))
             (zeros (length im_det))
             (zeros (length im_det))).

(** *** The metric aggregator *)

Definition xneg (x : xfloat) : xfloat :=
  match x with
  | Fin q => Fin (- q)
  | PInf => NInf
  | NInf => PInf
  | NaN => NaN
  end.

Definition xadd (x y : xfloat) : xfloat :=
  match x, y with
  | NaN, _ | _, NaN => NaN
  | PInf, NInf | NInf, PInf => NaN
  | PInf, _ | _, PInf => PInf
  | NInf, _ | _, NInf => NInf
  | Fin a, Fin b => Fin (a + b)
  end.

Definition xsub (x y : xfloat) : xfloat := xadd x (xneg y).

(** The sign of an infinite product: [inf * 0] is [nan]. *)
Definition inf_times (positive : bool) (q : Q) : xfloat :=
  if Qeq_bool q 0 then NaN
  else if Bool.eqb positive (Qlt_bool 0 q) then PInf else NInf.

Definition xmul (x y : xfloat) : xfloat :=
  match x, y with
  | NaN, _ | _, NaN => NaN
  | Fin a, Fin b => Fin (a * b)
  | PInf, Fin q | Fin q, PInf => inf_times true q
  | NInf, Fin q | Fin q, NInf => inf_times false q
  | PInf, PInf | NInf, NInf => PInf
  | PInf, NInf | NInf, PInf => NaN
  end.

(** [x != y]: true whenever a [nan] is involved. *)
Definition xneqb (x y : xfloat) : bool :=
  match x, y with
  | NaN, _ | _, NaN => true
  | Fin a, Fin b => negb (Qeq_bool a b)
  | PInf, PInf | NInf, NInf => false
  | _, _ => true
  end.

(** One per-image entry of the [tp] and [fp] lists: still the Python list
    [[]] it was initialised with, or the numpy array the matcher returned. *)
Inductive slot : Type :=
| PyEmptyList
| NdArray (a : list Q).

(** First loop (lines 407-410): the total size of the array slots. *)
Fixpoint flat_size (tp : list slot) : nat :=
  match tp with
  | [] => 0%nat
  | PyEmptyList :: t => flat_size t
  | NdArray a :: t => (length a + flat_size t)%nat
  end.

(** The value on the right of a slice assignment, as numpy converts it. *)
Definition as_array (s : slot) : list Q :=
  match s with
  | PyEmptyList => []
  | NdArray a => a
  end.

(** [a[i : s + i] = v]: the slice is clipped to the array; [v] must have the
    length of the slice or length one (broadcast), else ValueError. *)
Definition set_slice (a : list Q) (i s : nat) (v : list Q)
  : result (list Q) :=
  let lo := Nat.min i (length a) in
  let hi := Nat.min (s + i) (length a) in
  let n := (hi - lo)%nat in
  if (length v =? n)%nat then Ok (firstn lo a ++ v ++ skipn hi a)
  else if (length v =? 1)%nat then
    Ok (firstn lo a ++ repeat (hd 0 v) n ++ skipn hi a)
  else Raise ValueError.

(** Second loop (lines 415-421) over [zip(tp, fp)]. *)
Fixpoint flatten_loop (tp fp : list slot) (i : nat)
         (tp_flat fp_flat : list Q) : result (list Q * list Q) :=
  match tp, fp with
  | tp_im :: tp', fp_im :: fp' =>
      match tp_im with
      | PyEmptyList => flatten_loop tp' fp' i tp_flat fp_flat
      | NdArray a =>
          let s := length a in
          tp_flat' <- set_slice tp_flat i s a ;;
          fp_flat' <- set_slice fp_flat i s (as_array fp_im) ;;
          flatten_loop tp' fp' (i + s)%nat tp_flat' fp_flat'
      end
  | _, _ => Ok (tp_flat, fp_flat)
  end.

(** [np.cumsum]. *)
Fixpoint cumsum_from (acc : Q) (l : list Q) : list Q :=
  match l with
  | [] => []
  | x :: t => (acc + x) :: cumsum_from (acc + x) t
  end.

Definition cumsum (l : list Q) : list Q := cumsum_from 0 l.

(** [np.finfo(np.float64).eps]. *)
Definition float64_eps : Q := 1 / inject_Z (2 ^ 52).

(** The precision envelope (lines 447-448), computed from the last index
    down. *)
Fixpoint envelope (mpre : list xfloat) : list xfloat :=
  match mpre with
  | [] => []
  | x :: t =>
      match envelope t with
      | [] => [x]
      | y :: t' => xmaximum x y :: y :: t'
      end
  end.

(** [np.where(mrec[1:] != mrec[:-1])[0]]. *)
Fixpoint change_points (i : nat) (mrec : list xfloat) : list nat :=
  match mrec with
  | x :: ((y :: _) as t) =>
      if xneqb y x then i :: change_points (S i) t
      else change_points (S i) t
  | _ => []
  end.

Definition xsum (l : list xfloat) : xfloat := fold_left xadd l (Fin 0).

(** [np.sum((mrec[i + 1] - mrec[i]) * mpre[i + 1])]. *)
Definition average_precision (mrec mpre : list xfloat) : xfloat :=
  xsum (map (fun i =>
               xmul (xsub (nth (S i) mrec NaN) (nth i mrec NaN))
                    (nth (S i) mpre NaN))
            (change_points 0%nat mrec)).

(** The values stored in the result dictionary: a Python float, a Python
    int, the string [f"{x:.2f}"] or the string [str(n)].  The two string
    forms keep the number they print. *)
Inductive value : Type :=
| VFloat (x : xfloat)
| VInt (n : Z)
| VStr2f (x : xfloat)
| VStrInt (n : Z).

Record eval_dict : Type := mkEval {
  AP : value;
  Prec : value;
  Rec : value;
  TP : value;
  FP : value
}.

(** [int(x)] on a finite float truncates toward zero. *)
Definition py_int (x : xfloat) : result Z :=
  match x with
  | Fin q => Ok (Z.quot (Qnum q) (Zpos (Qden q)))
  | _ => Raise ValueError
  end.

Definition Qlist_max (l : list Q) : result xfloat := np_max (map Fin l).

Definition detection_metrics_from_tp_and_fp
           (tp fp : list slot) (npos : nat) : result eval_dict :=
  let i := flat_size tp in
  flat <- flatten_loop tp fp 0%nat (zeros i) (zeros i) ;;
  let tp := cumsum (fst flat) in
  let fp := cumsum (snd flat) in
  if (length tp =? 0)%nat then
    Ok (mkEval (VFloat (Fin 0)) (VFloat (Fin 0)) (VFloat (Fin 0))
               (VInt 0) (VInt 0))
  else
    let rec := map (fun t => fdiv t (inject_Z (Z.of_nat npos))) tp in
    let prec :=
      map (fun '(t, f) => fdiv t (Qmax (t + f) float64_eps))
          (combine tp fp) in
    let mrec := [Fin 0] ++ rec ++ [Fin 1] in
    let mpre := envelope ([Fin 0] ++ prec ++ [Fin 0]) in
    let ap := average_precision mrec mpre in
    rec_max <- np_max rec ;;
    tp_max <- Qlist_max tp ;;
    fp_max <- Qlist_max fp ;;
    tp_int <- py_int tp_max ;;
    fp_int <- py_int fp_max ;;
    Ok (mkEval (VStr2f ap) (VStr2f (last prec NaN)) (VStr2f rec_max)
               (VStrInt tp_int) (VStrInt fp_int)).

(** *** The evaluation drivers of [MOT16ObjDetect] *)

(** What [_get_annotation] returns, as far as the drivers read it. *)
Record annotation : Type := mkAnn {
  boxes : list box;
  visibilities : list Q
}.

(** The dataset object.  [_get_annotation] reads ground-truth files through
    loaders that are not part of these sources, and the frame table is built
    from directory listings: both are fields here. *)
Record MOT16ObjDetect : Type := mkData {
  img_paths_len : nat;
  vis_threshold : Q;
  get_annotation : nat -> result annotation;
  convert_frame_to_img_idx : string -> nat -> option nat
}.

(** [a[mask]] with a boolean mask: the lengths must agree. *)
Fixpoint mask_select {A : Type} (a : list A) (mask : list bool)
  : result (list A) :=
  match a, mask with
  | [], [] => Ok []
  | x :: a', m :: mask' =>
      r <- mask_select a' mask' ;;
      Ok (if m then x :: r else r)
  | _, _ => Raise IndexError
  end.

(** The accumulators of one evaluation. *)
Record accum : Type := mkAcc {
  acc_tp : list slot;
  acc_fp : list slot;
  npos : nat
}.

Definition init_accum (self : MOT16ObjDetect) : accum :=
  mkAcc (repeat PyEmptyList (img_paths_len self))
        (repeat PyEmptyList (img_paths_len self)) 0.

(** The body shared by both drivers (lines 351-361 and 321-332). *)
Definition eval_frame (self : MOT16ObjDetect) (ovthresh : Q)
           (im_index : nat) (im_det : list box) (acc : accum)
  : result accum :=
  ann <- get_annotation self im_index ;;
  let visible :=
    map (fun v => Qlt_bool (vis_threshold self) v) (visibilities ann) in
  let npos' := (npos acc + length visible)%nat in
  im_gt <- mask_select (boxes ann) visible ;;
  r <- tp_and_fp_of_detection im_gt im_det ovthresh ;;
  tp' <- set_item (acc_tp acc) im_index (NdArray (im_tp r)) ;;
  fp' <- set_item (acc_fp acc) im_index (NdArray (im_fp r)) ;;
  Ok (mkAcc tp' fp' npos').

(** [for im_index in list(results.keys())]; [results] is the dictionary as
    its list of items. *)
Fixpoint evaluate_loop (self : MOT16ObjDetect) (ovthresh : Q)
         (results : list (nat * list box)) (acc : accum) : result accum :=
  match results with
  | [] => Ok acc
  | (im_index, im_det) :: rest =>
      acc' <- eval_frame self ovthresh im_index im_det acc ;;
      evaluate_loop self ovthresh rest acc'
  end.

Definition evaluate_detections (self : MOT16ObjDetect)
           (results : list (nat * list box)) (ovthresh : Q)
  : result eval_dict :=
  acc <- evaluate_loop self ovthresh results (init_accum self) ;;
  detection_metrics_from_tp_and_fp (acc_tp acc) (acc_fp acc) (npos acc).

(** [for frame_id, frame_result in enumerate(seq_results, start=1)] for the
    sequence [seq]. *)
Fixpoint tracking_loop (self : MOT16ObjDetect) (ovthresh : Q) (seq : string)
         (frame_id : nat) (seq_results : list (list box)) (acc : accum)
  : result accum :=
  match seq_results with
  | [] => Ok acc
  | im_det :: rest =>
      match convert_frame_to_img_idx self seq frame_id with
      | None => Raise KeyError
      | Some im_index =>
          acc' <- eval_frame self ovthresh im_index im_det acc ;;
          tracking_loop self ovthresh seq (S frame_id) rest acc'
      end
  end.

(** One row of the returned table per sequence name. *)
Fixpoint evaluate_detections_on_tracking_data (self : MOT16ObjDetect)
         (results : list (string * list (list box))) (ovthresh : Q)
  : result (list (string * eval_dict)) :=
  match results with
  | [] => Ok []
  | (seq, seq_results) :: rest =>
      acc <- tracking_loop self ovthresh seq 1%nat seq_results
                           (init_accum self) ;;
      d <- detection_metrics_from_tp_and_fp
             (acc_tp acc) (acc_fp acc) (npos acc) ;;
      ds <- evaluate_detections_on_tracking_data self rest ovthresh ;;
      Ok ((seq, d) :: ds)
  end.

(** *** [compare_detectors] *)

(** [a.astype("bool")]: every non-zero entry is true. *)
Definition astype_bool (a : list Q) : list bool :=
  map (fun f => negb (Qeq_bool f 0)) a.

(** An element-wise binary operation with numpy's broadcasting of
    one-dimensional arrays: equal lengths, or one side of length one. *)
Definition elementwise {A B C : Type} (f : A -> B -> C)
           (a : list A) (b : list B) : result (list C) :=
  if (length a =? length b)%nat then
    Ok (map (fun xy => f (fst xy) (snd xy)) (combine a b))
  else
    match a, b with
    | [x], _ => Ok (map (f x) b)
    | _, [y] => Ok (map (fun x => f x y) a)
    | _, _ => Raise ValueError
    end.

(** [np.where(mask)[0]]: the indices of the true entries, counted from
    [i]. *)
Fixpoint np_where (i : nat) (mask : list bool) : list nat :=
  match mask with
  | [] => []
  | m :: rest =>
      if m then i :: np_where (S i) rest else np_where (S i) rest
  end.

(** [a.any()] on an array of integers: some entry is non-zero. *)
Definition int_any (a : list nat) : bool :=
  existsb (fun i => negb (i =? 0)%nat) a.

(** The body of the inner loop (lines 273-306) after [im_index] is looked
    up: [None] when the frame is not recorded, else the two index arrays
    [exclusive_1] and [exclusive_2]. *)
Definition compare_frame (self : MOT16ObjDetect) (ovthresh : Q)
           (im_index : nat) (im_det1 im_det2 : list box)
  : result (option (list nat * list nat)) :=
  ann <- get_annotation self im_index ;;
  let visible :=
    map (fun v => Qlt_bool (vis_threshold self) v) (visibilities ann) in
  im_gt <- mask_select (boxes ann) visible ;;
  r1 <- tp_and_fp_of_detection im_gt im_det1 ovthresh ;;
  r2 <- tp_and_fp_of_detection im_gt im_det2 ovthresh ;;
  m1 <- elementwise (fun a b => a && negb b)
          (astype_bool (found r1)) (astype_bool (found r2)) ;;
  let tp_exclusive_1 := np_where 0%nat m1 in
  m2 <- elementwise (fun a b => a && negb b)
          (astype_bool (found r2)) (astype_bool (found r1)) ;;
  let tp_exclusive_2 := np_where 0%nat m2 in
  if int_any tp_exclusive_1 || int_any tp_exclusive_2 then
    Ok (Some (tp_exclusive_1, tp_exclusive_2))
  else Ok None.

(** One recorded frame of the returned dictionary: sequence name, frame
    number and the two index arrays. *)
Definition compare_entry : Type := (string * nat * (list nat * list nat))%type.

(** The inner loop over [zip(seq_results1, seq_results2)], frames numbered
    from [frame_id]; recorded frames are appended to [acc]. *)
Fixpoint compare_sequence (self : MOT16ObjDetect) (ovthresh : Q)
         (seq : string) (frame_id : nat)
         (seq_results1 seq_results2 : list (list box))
         (acc : list compare_entry) : result (list compare_entry) :=
  match seq_results1, seq_results2 with
  | det1 :: rest1, det2 :: rest2 =>
      match convert_frame_to_img_idx self seq frame_id with
      | None => Raise KeyError
      | Some im_index =>
          c <- compare_frame self ovthresh im_index det1 det2 ;;
          let acc' :=
            match c with
            | Some e => acc ++ [(seq, frame_id, e)]
            | None => acc
            end in
          compare_sequence self ovthresh seq (S frame_id) rest1 rest2 acc'
      end
  | _, _ => Ok acc
  end.

(** The outer loop over [zip(results1.items(), results2.items())]; the
    sequence name is the one of [results1]. *)
Fixpoint compare_loop (self : MOT16ObjDetect) (ovthresh : Q)
         (results1 results2 : list (string * list (list box)))
         (acc : list compare_entry) : result (list compare_entry) :=
  match results1, results2 with
  | (seq, sr1) :: rest1, (_, sr2) :: rest2 =>
      acc' <- compare_sequence self ovthresh seq 1%nat sr1 sr2 acc ;;
      compare_loop self ovthresh rest1 rest2 acc'
  | _, _ => Ok acc
  end.

Definition compare_detectors (self : MOT16ObjDetect)
           (results1 results2 : list (string * list (list box)))
           (ovthresh : Q) : result (list compare_entry) :=
  compare_loop self ovthresh results1 results2 [].

(** *** The image index built by [MOT16ObjDetect.__init__] *)

(** What the image loop of the constructor reads for one sequence: its
    name, its image directory and the listing of that directory.  The
    assertions on missing paths, which abort the construction, and the loop
    over the segmentation files, which fills another list, are left out. *)
Record seq_listing : Type := mkSeq {
  seq_name : string;
  im_dir : string;
  img_files : list string
}.

(** The fields the image loop fills: [_img_paths], the table
    [_convert_frame_to_img_idx] and the counter [img_index]. *)
Record image_index : Type := mkIndex {
  img_paths : list string;
  frame_table : string -> nat -> option nat;
  img_index : nat
}.

Definition sparse_frequency : nat := 20.

(** The test of lines 106-108. *)
Definition keep_frame (sparse_version : bool) (frame_id : nat) : bool :=
  negb sparse_version
  || (sparse_version && (frame_id mod sparse_frequency =? 0)%nat).

(** [os.path.join] of a directory and a listed file name. *)
Definition path_join (dir file : string) : string :=
  (dir ++ "/" ++ file)%string.

(** [table[seq][frame_id] = v]. *)
Definition table_set (table : string -> nat -> option nat)
           (seq : string) (frame_id v : nat) : string -> nat -> option nat :=
  fun s f =>
    if (String.eqb s seq && (f =? frame_id)%nat)%bool then Some v
    else table s f.

(** The loop of lines 102-119 over [enumerate(os.listdir(imDir), start=1)],
    continued at [frame_id]. *)
Fixpoint index_images (sparse_version : bool) (seq dir : string)
         (frame_id : nat) (files : list string) (ix : image_index)
  : image_index :=
  match files with
  | [] => ix
  | img_file :: rest =>
      let ix' :=
        if keep_frame sparse_version frame_id then
          mkIndex (img_paths ix ++ [path_join dir img_file])
                  (table_set (frame_table ix) seq frame_id (img_index ix))
                  (S (img_index ix))
        else ix in
      index_images sparse_version seq dir (S frame_id) rest ix'
  end.

(** The loop over the sequences (line 69). *)
Fixpoint index_sequences (sparse_version : bool) (seqs : list seq_listing)
         (ix : image_index) : image_index :=
  match seqs with
  | [] => ix
  | sq :: rest =>
      index_sequences sparse_version rest
        (index_images sparse_version (seq_name sq) (im_dir sq) 1%nat
                      (img_files sq) ix)
  end.

Definition build_index (sparse_version : bool) (seqs : list seq_listing)
  : image_index :=
  index_sequences sparse_version seqs (mkIndex [] (fun _ _ => None) 0%nat).

(** The dataset object once its index is built; the visibility threshold
    and the annotation loader complete it. *)
Definition dataset_of (ix : image_index) (vis_thr : Q)
           (annot : nat -> result annotation) : MOT16ObjDetect :=
  mkData (length (img_paths ix)) vis_thr annot (frame_table ix).

End Detect.

(** ** Motion prediction ([kalman.py]) *)

Module Kalman.

Local Open Scope R_scope.

(** One row of an [N x 4] array: a box [(x1, y1, x2, y2)], a state
    [(cx, cy, area, ratio)] or a trajectory position. *)
Record row4 : Type := mk4 { c0 : R; c1 : R; c2 : R; c3 : R }.

(** [torchvision.ops.box_convert(boxes, "xyxy", "cxcywh")] on one row. *)
Definition box_convert_xyxy_cxcywh (b : row4) : row4 :=
  mk4 ((c0 b + c2 b) / 2) ((c1 b + c3 b) / 2) (c2 b - c0 b) (c3 b - c1 b).

(** [torchvision.ops.box_area] on one row. *)
Definition box_area (b : row4) : R := (c2 b - c0 b) * (c3 b - c1 b).

Definition convert_box_to_state (boxes : list row4) : list row4 :=
  map (fun b =>
         let c := box_convert_xyxy_cxcywh b in
         let ratios := c2 c / c3 c in
         let areas := box_area b in
         mk4 (c0 c) (c1 c) areas ratios)
      boxes.

Definition convert_state_to_box (states : list row4) : list row4 :=
  map (fun s =>
         let cx := c0 s in
         let cy := c1 s in
         let areas := c2 s in
         let ratios := c3 s in
         let w := sqrt (areas * ratios) in
         let h := areas / w in
         mk4 (cx - w / 2) (cy - h / 2) (cx + w / 2) (cy + h / 2))
      states.

(** *** The matrices of [SORTKalmanFilter.__init__] *)

Definition matrix : Type := list (list R).

Record SORTKalmanFilter : Type := mkSORT {
  kf_H : matrix;
  kf_A : matrix;
  kf_Q : matrix;
  kf_P : matrix;
  kf_R : matrix
}.

Definition SORTKalmanFilter_init : SORTKalmanFilter :=
  mkSORT
    [ [1; 0; 0; 0; 0; 0; 0];
      [0; 1; 0; 0; 0; 0; 0];
      [0; 0; 1; 0; 0; 0; 0];
      [0; 0; 0; 1; 0; 0; 0] ]
    [ [1; 0; 0; 0; 1; 0; 0];
      [0; 1; 0; 0; 0; 1; 0];
      [0; 0; 1; 0; 0; 0; 1];
      [0; 0; 0; 1; 0; 0; 0];
      [0; 0; 0; 0; 1; 0; 0];
      [0; 0; 0; 0; 0; 1; 0];
      [0; 0; 0; 0; 0; 0; 1] ]
    [ [1; 0; 0; 0; 0; 0; 0];
      [0; 1; 0; 0; 0; 0; 0];
      [0; 0; 1; 0; 0; 0; 0];
      [0; 0; 0; 1; 0; 0; 0];
      [0; 0; 0; 0; 0.01; 0; 0];
      [0; 0; 0; 0; 0; 0.01; 0];
      [0; 0; 0; 0; 0; 0; 0.01 ^ 2] ]
    [ [1; 0; 0; 0; 1; 0; 0];
      [0; 1; 0; 0; 0; 1; 0];
      [0; 0; 1; 0; 0; 0; 1];
      [0; 0; 0; 1; 0; 0; 0];
      [0; 0; 0; 0; 1000; 0; 0];
      [0; 0; 0; 0; 0; 1000; 0];
      [0; 0; 0; 0; 0; 0; 1000] ]
    [ [1; 0; 0; 0]; [0; 1; 0; 0]; [0; 0; 10; 0]; [0; 0; 0; 10] ].

(** [m[i, j]]; rows and columns count from zero. *)
Definition entry (m : matrix) (i j : nat) : R := nth j (nth i m []) 0.

(** *** Trajectories *)

(** A trajectory reaches the functions below as a torch tensor or as a numpy
    array; both hold [L] rows of four numbers. *)
Inductive trajectory : Type :=
| TorchTensor (rows : list row4)
| NpArray (rows : list row4).

Definition rows_of (t : trajectory) : list row4 :=
  match t with
  | TorchTensor rows => rows
  | NpArray rows => rows
  end.

(** [len(trajectory)]. *)
Definition len (t : trajectory) : nat := List.length (rows_of t).

Definition row_add (a b : row4) : row4 :=
  mk4 (c0 a + c0 b) (c1 a + c1 b) (c2 a + c2 b) (c3 a + c3 b).

Definition row_sub (a b : row4) : row4 :=
  mk4 (c0 a - c0 b) (c1 a - c1 b) (c2 a - c2 b) (c3 a - c3 b).

(** *** [KalmanFilter.smooth] *)

Section Smooth.

(** The OpenCV filter object [self.kalman]: its state, [predict()], which
    returns the predicted 8-vector as its first and last four entries, and
    [correct(measurement)].  The filter holds float32 matrices, and
    [correct] raises [cv2.error] ([CvError]) on a measurement it cannot
    combine with them: the rows of a float64 or an integer array.  The rows
    of the model are real numbers without an element type, so the outcome
    of [correct] on a row is part of the filter that is passed in. *)
Variable cv_kalman : Type.
Variable cv_predict : cv_kalman -> cv_kalman * (row4 * row4).
Variable cv_correct : cv_kalman -> row4 -> result cv_kalman.

(** The loop of lines 244-249; [first] is [trajectory[0]].  Returns the
    filter after the loop and the list [smoothed_trajectory], or the filter
    as the failed [correct] found it and the exception. *)
Fixpoint smooth_loop (first : row4) (k : cv_kalman) (positions : list row4)
  : cv_kalman * result (list row4) :=
  match positions with
  | [] => (k, Ok [])
  | position :: rest =>
      let (k1, pred) := cv_predict k in
      let predicted_position := row_add (fst pred) first in
      match cv_correct k1 (row_sub position first) with
      | Raise e => (k1, Raise e)
      | Ok k2 =>
          let (k3, r) := smooth_loop first k2 rest in
          (k3, smoothed <- r ;; Ok (predicted_position :: smoothed))
      end
  end.

(** [np.stack] of a list of rows: ValueError on the empty list. *)
Definition np_stack (l : list row4) : result (list row4) :=
  match l with
  | [] => Raise ValueError
  | _ :: _ => Ok l
  end.

Definition smooth (k : cv_kalman) (t : trajectory)
  : cv_kalman * result trajectory :=
  let rows := rows_of t in
  match rows with
  | [] => (k, Raise ValueError)
  | first :: _ =>
      let (k', r) := smooth_loop first k rows in
      (k', smoothed <- r ;;
           stacked <- np_stack smoothed ;;
           Ok (match t with
               | TorchTensor _ => TorchTensor stacked
               | NpArray _ => NpArray stacked
               end))
  end.

End Smooth.

(** *** [obj_is_moving] *)

Definition Rgtb (a b : R) : bool := if Rlt_dec b a then true else false.

(** [np.linalg.norm] of a two-component difference. *)
Definition norm2 (dx dy : R) : R := sqrt (dx * dx + dy * dy).

(** [trajectory[0]] raises IndexError on an empty trajectory; the default
    thresholds never reach it. *)
Definition obj_is_moving_with (t : trajectory)
           (pixel_per_second_tresh time_treshold : R) : result bool :=
  let dt := 1 / 25 in
  if Rgtb (INR (len t)) (time_treshold / dt) then
    match rows_of t with
    | [] => Raise IndexError
    | first :: _ =>
        let last_row := last (rows_of t) first in
        let pixel_distance :=
          norm2 (c0 first - c0 last_row) (c1 first - c1 last_row) in
        let pixel_velocity := pixel_distance / (INR (len t) * dt) in
        Ok (Rgtb pixel_velocity pixel_per_second_tresh)
    end
  else Ok true.

(** The call with the default thresholds. *)
Definition obj_is_moving (t : trajectory) : result bool :=
  obj_is_moving_with t 5 0.5.

(** *** [freeze_at_mean] *)

Definition col_sum (f : row4 -> R) (rows : list row4) : R :=
  fold_right (fun r acc => f r + acc) 0 rows.

(** [traj.mean(0)]: the mean of every column. *)
Definition mean0 (rows : list row4) : row4 :=
  let n := INR (List.length rows) in
  mk4 (col_sum c0 rows / n) (col_sum c1 rows / n)
      (col_sum c2 rows / n) (col_sum c3 rows / n).

(** [np.tile(a, (n, 1))]: [n] copies of the whole array, one under the
    other. *)
Fixpoint np_tile (a : list row4) (n : nat) : list row4 :=
  match n with
  | O => []
  | S n' => a ++ np_tile a n'
  end.

Definition freeze_at_mean (traj : trajectory) : trajectory :=
  if (1 <? len traj)%nat then
    match traj with
    | TorchTensor rows => TorchTensor (repeat (mean0 rows) (len traj))
    | NpArray rows => NpArray (np_tile rows (len traj))
    end
  else traj.

(** *** The matrices of [KalmanFilter.__init__] *)

(** [np.zeros((n, m))] and [np.eye(n)]. *)
Definition mzeros (n m : nat) : matrix := repeat (repeat 0 m) n.

Definition meye (n : nat) : matrix :=
  map (fun i => map (fun j => if (i =? j)%nat then 1 else 0) (seq 0 n))
      (seq 0 n).

(** [m[i, j] = v]; an index out of range leaves the model unchanged (the
    constructor only writes inside the matrices). *)
Fixpoint list_set {A : Type} (l : list A) (i : nat) (v : A) : list A :=
  match l, i with
  | [], _ => []
  | _ :: t, O => v :: t
  | x :: t, S i' => x :: list_set t i' v
  end.

Definition mset (m : matrix) (i j : nat) (v : R) : matrix :=
  list_set m i (list_set (nth i m []) j v).

(** [Q[i, [j1, j2]] = [v1, v2]]. *)
Definition mset_pair (m : matrix) (i j1 j2 : nat) (v : R * R) : matrix :=
  mset (mset m i j1 (fst v)) i j2 (snd v).

(** [A[:4, 4:] = np.eye(4) * dt] and [H[:, :4] = np.diag(np.ones(4))]: the
    block of four rows and four columns starting at column [c] becomes
    [x] times the identity. *)
Definition mset_block (m : matrix) (c : nat) (x : R) : matrix :=
  fold_left
    (fun acc ij =>
       mset acc (fst ij) (c + snd ij)
            (if (fst ij =? snd ij)%nat then x else 0))
    (list_prod (seq 0 4) (seq 0 4)) m.

(** The four matrices handed to the OpenCV filter. *)
Record KalmanFilter_matrices : Type := mkKF {
  kfm_H : matrix;
  kfm_A : matrix;
  kfm_Q : matrix;
  kfm_R : matrix
}.

Definition KalmanFilter_init (process_variance measurement_variance dt : R)
  : KalmanFilter_matrices :=
  let H := mset_block (mzeros 4 8) 0 1 in
  let A := mset_block (meye 8) 4 dt in
  let q := (process_variance * (dt ^ 4 / 4), process_variance * (dt ^ 3 / 2)) in
  let q_derivative :=
    (process_variance * (dt ^ 3 / 2), process_variance * dt ^ 2) in
  let Q0 := mzeros 8 8 in
  let Q1 := mset_pair Q0 0 0 4 q in
  let Q2 := mset_pair Q1 1 1 5 q in
  let Q3 := mset_pair Q2 2 2 6 q in
  let Q4 := mset_pair Q3 3 3 7 q in
  let Q5 := mset_pair Q4 4 0 4 q_derivative in
  let Q6 := mset_pair Q5 5 1 5 q_derivative in
  let Q7 := mset_pair Q6 6 2 6 q_derivative in
  let Q8 := mset_pair Q7 7 3 7 q_derivative in
  let Rm := map (map (fun x => measurement_variance * x)) (meye 4) in
  mkKF H A Q8 Rm.

(** *** [KalmanFilter.predict] and [FullFilter.smooth] *)

Section Predict.

Variable cv_kalman : Type.
Variable cv_predict : cv_kalman -> cv_kalman * (row4 * row4).
Variable cv_correct : cv_kalman -> row4 -> result cv_kalman.

(** The loop of lines 217-219: [n] predictions in a row. *)
Fixpoint predict_loop (initial_pos : row4) (k : cv_kalman) (n : nat)
  : cv_kalman * list row4 :=
  match n with
  | O => (k, [])
  | S n' =>
      let (k1, pred) := cv_predict k in
      let next_pos := row_add (fst pred) initial_pos in
      let (k2, rest) := predict_loop initial_pos k1 n' in
      (k2, next_pos :: rest)
  end.

(** The body of [predict(trajectory, future_len)], lines 207-224, with the
    method that [self.smooth] resolves to as [smooth_method].  A tensor is
    turned into an array before it is smoothed; the smoothed trajectory is
    dropped, an exception of the smoothing propagates. *)
Definition predict_with
           (smooth_method : cv_kalman -> trajectory
                            -> cv_kalman * result trajectory)
           (k : cv_kalman) (t : trajectory) (future_len : nat)
  : cv_kalman * result trajectory :=
  let (k1, smoothed) := smooth_method k (NpArray (rows_of t)) in
  match smoothed with
  | Raise e => (k1, Raise e)
  | Ok _ =>
      match rows_of t with
      | [] => (k1, Raise IndexError)
      | initial_pos :: _ =>
          let (k2, pred) := predict_loop initial_pos k1 future_len in
          (k2, stacked <- np_stack pred ;;
               Ok (match t with
                   | TorchTensor _ => TorchTensor stacked
                   | NpArray _ => NpArray stacked
                   end))
      end
  end.

(** [KalmanFilter.predict]: [self.smooth] is [KalmanFilter.smooth]. *)
Definition KalmanFilter_predict
  : cv_kalman -> trajectory -> nat -> cv_kalman * result trajectory :=
  predict_with (smooth cv_kalman cv_predict cv_correct).

(** [FullFilter.smooth]: the Kalman smoother for a moving object, the mean
    position otherwise. *)
Definition FullFilter_smooth (k : cv_kalman) (traj : trajectory)
  : cv_kalman * result trajectory :=
  match obj_is_moving traj with
  | Raise e => (k, Raise e)
  | Ok true => smooth cv_kalman cv_predict cv_correct k traj
  | Ok false => (k, Ok (freeze_at_mean traj))
  end.

(** [predict] on a [FullFilter]: the method is inherited and [self.smooth]
    is the override above. *)
Definition FullFilter_predict
  : cv_kalman -> trajectory -> nat -> cv_kalman * result trajectory :=
  predict_with FullFilter_smooth.

End Predict.

(** *** [SORTKalmanFilter]: [reset], [predict] and [update] *)

Section Sort.

(** The OpenCV filter with seven state entries: [predict()] returns the
    first four entries and the three velocities. *)
Variable cv_kalman : Type.
Variable cv_create : SORTKalmanFilter -> cv_kalman.
Variable cv_predict : cv_kalman -> cv_kalman * (row4 * (R * R * R)).
Variable cv_correct : cv_kalman -> row4 -> cv_kalman.

(** The mutable fields of the object. *)
Record sort_filter : Type := mkSortFilter {
  sort_kalman : cv_kalman;
  initial_state : option row4
}.

Definition sort_reset : sort_filter :=
  mkSortFilter (cv_create SORTKalmanFilter_init) None.

(** One box through [convert_box_to_state(box.unsqueeze(0)).squeeze()]. *)
Definition box_state (b : row4) : row4 :=
  hd (mk4 0 0 0 0) (convert_box_to_state [b]).

(** One state through [convert_state_to_box(state[np.newaxis]).squeeze()]. *)
Definition state_box (s : row4) : row4 :=
  hd (mk4 0 0 0 0) (convert_state_to_box [s]).

(** [predict()]: the filter is advanced first; with no initial state the
    addition [None + array] then raises TypeError, which is the result
    [None]. *)
Definition sort_predict (f : sort_filter) : sort_filter * option row4 :=
  let (k1, pred) := cv_predict (sort_kalman f) in
  let f1 := mkSortFilter k1 (initial_state f) in
  match initial_state f with
  | None => (f1, None)
  | Some s0 => (f1, Some (state_box (row_add s0 (fst pred))))
  end.

Definition sort_update (f : sort_filter) (b : row4) : sort_filter :=
  let state := box_state b in
  match initial_state f with
  | None => mkSortFilter (fst (cv_predict (sort_kalman f))) (Some state)
  | Some s0 =>
      mkSortFilter (cv_correct (sort_kalman f) (row_sub state s0)) (Some s0)
  end.

End Sort.

End Kalman.

(** ** Vocabulary of the statements *)

(** The array after a successful [a[i] = v]. *)
Fixpoint upd {A : Type} (l : list A) (i : nat) (v : A) : list A :=
  match l, i with
  | [], _ => []
  | _ :: t, O => v :: t
  | x :: t, S i' => x :: upd t i' v
  end.

Module DetectSpec.

Import Detect.
Local Open Scope Q_scope.

(** How many flags of an array are set. *)
Definition count_ones (l : list Q) : nat :=
  length (filter (fun x => Qeq_bool x 1) l).

Definition Qsum (l : list Q) : Q := fold_right Qplus 0 l.

(** Whether the best IoU of [d] exceeds the threshold, and the ground-truth
    index [jmax] it is reached at, as [best_match] computes them. *)
Definition hit (im_gt : list box) (ovthresh : Q) (d : box) : bool :=
  match best_match im_gt d with
  | Ok (ovmax, _) => xgtb ovmax (Fin ovthresh)
  | Raise _ => false
  end.

Definition target (im_gt : list box) (d : box) : option nat :=
  match best_match im_gt d with
  | Ok (_, jmax) => jmax
  | Raise _ => None
  end.

(** A detection before position [k] is a true positive whose best match is
    the ground-truth index [t]. *)
Definition claimed_before (im_gt : list box) (dets : list box)
           (tp : list Q) (k : nat) (t : option nat) : Prop :=
  exists m dm,
    (m < k)%nat /\ nth_error dets m = Some dm /\ nth m tp 0 = 1 /\
    target im_gt dm = t.

(** The state of the matcher loop once the detections [pre] are processed,
    [N] being the number of detections of the frame. *)
Record matcher_inv (im_gt : list box) (ovthresh : Q) (N : nat)
       (pre : list box) (st : flags) : Prop := mkInv {
  inv_len_found : length (found st) = length im_gt;
  inv_len_tp : length (im_tp st) = N;
  inv_len_fp : length (im_fp st) = N;
  inv_rest : forall k, (length pre <= k)%nat ->
    nth k (im_tp st) 0 = 0 /\ nth k (im_fp st) 0 = 0;
  inv_done : forall k d, nth_error pre k = Some d ->
    (nth k (im_tp st) 0 = 1 /\ nth k (im_fp st) 0 = 0 /\
     hit im_gt ovthresh d = true /\
     ~ claimed_before im_gt pre (im_tp st) k (target im_gt d))
    \/
    (nth k (im_tp st) 0 = 0 /\ nth k (im_fp st) 0 = 1 /\
     (hit im_gt ovthresh d = false \/
      claimed_before im_gt pre (im_tp st) k (target im_gt d)));
  inv_found : forall j, (j < length im_gt)%nat ->
    (nth j (found st) 0 = 1 /\
     claimed_before im_gt pre (im_tp st) (length pre) (Some j))
    \/
    (nth j (found st) 0 = 0 /\
     ~ claimed_before im_gt pre (im_tp st) (length pre) (Some j));
  inv_count : count_ones (found st) = count_ones (im_tp st)
}.

(** *** The evaluation drivers, as the statements describe them *)

(** A ground-truth box is a matching target when its visibility exceeds the
    threshold of the dataset. *)
Definition is_visible (self : MOT16ObjDetect) (v : Q) : bool :=
  Qlt_bool (vis_threshold self) v.

Definition visible_boxes (self : MOT16ObjDetect) (ann : annotation)
  : list box :=
  map fst (filter (fun bv => is_visible self (snd bv))
                  (combine (boxes ann) (visibilities ann))).

Definition hidden_count (self : MOT16ObjDetect) (ann : annotation) : nat :=
  length (filter (fun v => negb (is_visible self v)) (visibilities ann)).

(** The annotation of an image, empty where [_get_annotation] raises. *)
Definition annotation_at (self : MOT16ObjDetect) (idx : nat) : annotation :=
  match get_annotation self idx with
  | Ok ann => ann
  | Raise _ => mkAnn [] []
  end.

(** The flags of the matcher, which never raises. *)
Definition matcher_flags (im_gt im_det : list box) (ovthresh : Q) : flags :=
  match tp_and_fp_of_detection im_gt im_det ovthresh with
  | Ok r => r
  | Raise _ => mkFlags [] [] []
  end.

(** The accumulators an evaluation is expected to end with: every frame is
    matched against its visible boxes only, and adds the number of all its
    annotated boxes to [npos]. *)
Fixpoint expected_accum (self : MOT16ObjDetect) (ovthresh : Q)
         (results : list (nat * list box)) (acc : accum) : accum :=
  match results with
  | [] => acc
  | (idx, im_det) :: rest =>
      let ann := annotation_at self idx in
      let r := matcher_flags (visible_boxes self ann) im_det ovthresh in
      expected_accum self ovthresh rest
        (mkAcc (upd (acc_tp acc) idx (NdArray (im_tp r)))
               (upd (acc_fp acc) idx (NdArray (im_fp r)))
               (npos acc + length (boxes ann)))
  end.

(** A frame the drivers can process: its annotation loads, holds one
    visibility per box, and its image index is one of the dataset. *)
Definition frame_ok (self : MOT16ObjDetect) (idx : nat) : Prop :=
  exists ann,
    get_annotation self idx = Ok ann /\
    length (boxes ann) = length (visibilities ann) /\
    (idx < img_paths_len self)%nat.

Fixpoint total_annotated (self : MOT16ObjDetect)
         (results : list (nat * list box)) : nat :=
  match results with
  | [] => 0
  | (idx, _) :: rest =>
      (length (boxes (annotation_at self idx))
       + total_annotated self rest)%nat
  end.

Fixpoint total_visible (self : MOT16ObjDetect)
         (results : list (nat * list box)) : nat :=
  match results with
  | [] => 0
  | (idx, _) :: rest =>
      (length (visible_boxes self (annotation_at self idx))
       + total_visible self rest)%nat
  end.

Fixpoint total_hidden (self : MOT16ObjDetect)
         (results : list (nat * list box)) : nat :=
  match results with
  | [] => 0
  | (idx, _) :: rest =>
      (hidden_count self (annotation_at self idx)
       + total_hidden self rest)%nat
  end.

(** The frames of a tracking sequence with their image indices, numbered
    from [frame_id]. *)
Fixpoint resolve_frames (self : MOT16ObjDetect) (seq : string)
         (frame_id : nat) (seq_results : list (list box))
  : option (list (nat * list box)) :=
  match seq_results with
  | [] => Some []
  | im_det :: rest =>
      match convert_frame_to_img_idx self seq frame_id,
            resolve_frames self seq (S frame_id) rest with
      | Some im_index, Some frames => Some ((im_index, im_det) :: frames)
      | _, _ => None
      end
  end.

(** A one-image dataset for the examples: two annotated boxes, the second
    with visibility 0.1 under the threshold 0.25. *)
Definition demo_boxes : list box := [mkBox 0 0 10 10; mkBox 20 20 30 30].

Definition demo_dataset : MOT16ObjDetect :=
  mkData 1 0.25
         (fun idx =>
            match idx with
            | O => Ok (mkAnn demo_boxes [1; 0.1])
            | S _ => Raise IndexError
            end)
         (fun _ frame_id =>
            match frame_id with
            | 1%nat => Some 0%nat
            | _ => None
            end).

(** A box whose corners are in order: [x1 <= x2] and [y1 <= y2]. *)
Definition box_ok (b : box) : Prop := bx1 b <= bx2 b /\ by1 b <= by2 b.

(** Every entry of the frame table is the index of an image path. *)
Definition entries_in_range (ix : image_index) : Prop :=
  forall s f v,
    frame_table ix s f = Some v -> (v < length (img_paths ix))%nat.

(** Two per-image entries as the drivers store them: both still the
    initial empty list, or two arrays of one length. *)
Definition slots_aligned (t f : slot) : Prop :=
  match t, f with
  | PyEmptyList, PyEmptyList => True
  | NdArray a, NdArray b => length a = length b
  | _, _ => False
  end.

Definition aligned (tp fp : list slot) : Prop := Forall2 slots_aligned tp fp.

(** All flags of the per-image entries, in image order. *)
Definition flat (l : list slot) : list Q := concat (map as_array l).

(** Flag arrays in which every detection is either a true or a false
    positive. *)
Definition complementary (tp_flags fp_flags : list Q) : Prop :=
  Forall2 (fun t f => (t = 1 /\ f = 0) \/ (t = 0 /\ f = 1))
          tp_flags fp_flags.

(** Two per-image entries whose arrays flag every detection exactly
    once. *)
Definition slots_complementary (t f : slot) : Prop :=
  match t, f with
  | PyEmptyList, PyEmptyList => True
  | NdArray a, NdArray b => complementary a b
  | _, _ => False
  end.

(** The dictionary of an evaluation without detections. *)
Definition zero_dict : eval_dict :=
  mkEval (VFloat (Fin 0)) (VFloat (Fin 0)) (VFloat (Fin 0)) (VInt 0) (VInt 0).

(** The ground-truth indices claimed under the flags [f1] and not under
    [f2]. *)
Definition exclusive (f1 f2 : list Q) : list nat :=
  np_where 0%nat
    (map (fun ab => fst ab && negb (snd ab))
         (combine (astype_bool f1) (astype_bool f2))).

(** The [found] flags of a frame for the detections [im_det]. *)
Definition found_on (self : MOT16ObjDetect) (ovthresh : Q)
           (im_index : nat) (im_det : list box) : list Q :=
  found (matcher_flags
           (visible_boxes self (annotation_at self im_index))
           im_det ovthresh).

(** The intersection over union of a detection and a ground-truth box in
    the pixel-inclusive convention, written out: every width and height,
    of the boxes and of their intersection, counts both border pixels
    ([+ 1]), and an empty intersection counts zero. *)
Definition pixel_iou (d g : box) : Q :=
  let iw := Qmax (Qmin (bx2 g) (bx2 d) - Qmax (bx1 g) (bx1 d) + 1) 0 in
  let ih := Qmax (Qmin (by2 g) (by2 d) - Qmax (by1 g) (by1 d) + 1) 0 in
  let inters := iw * ih in
  inters
  / ((bx2 d - bx1 d + 1) * (by2 d - by1 d + 1)
     + (bx2 g - bx1 g + 1) * (by2 g - by1 g + 1)
     - inters).

(** Ground-truth index [j] is the best match of detection [d]: no
    ground-truth box has a larger IoU with [d], and every box before [j]
    has a strictly smaller one (the first index of the maximum). *)
Definition first_best (im_gt : list box) (d : box) (j : nat) : Prop :=
  exists g,
    nth_error im_gt j = Some g /\
    (forall j' g', nth_error im_gt j' = Some g' ->
                   pixel_iou d g' <= pixel_iou d g) /\
    (forall j' g', (j' < j)%nat -> nth_error im_gt j' = Some g' ->
                   pixel_iou d g' < pixel_iou d g).

End DetectSpec.

Module KalmanSpec.

Import Kalman.
Local Open Scope R_scope.

(** A box with positive width and positive height. *)
Definition well_formed (b : row4) : Prop := c0 b < c2 b /\ c1 b < c3 b.

(** The square matrix with the entries of [l] on its diagonal and zero
    elsewhere. *)
Definition one_hot (n i : nat) (v : R) : list R :=
  map (fun j => if (j =? i)%nat then v else 0) (seq 0 n).

Definition diag_matrix (l : list R) : matrix :=
  map (fun iv => one_hot (length l) (fst iv) (snd iv))
      (combine (seq 0 (length l)) l).

(** An entry within [eps] of zero. *)
Definition near_zero (eps x : R) : Prop := Rabs x <= eps.

(** The duration [obj_is_moving] assigns to a trajectory at 25 frames per
    second. *)
Definition elapsed_time (t : trajectory) : R := INR (len t) * (1 / 25).

(** The straight-line distance between the first and the last position of
    a trajectory (the first two columns of its first and last row). *)
Definition end_to_end_distance (t : trajectory) : R :=
  match rows_of t with
  | [] => 0
  | first :: _ =>
      let last_row := last (rows_of t) first in
      norm2 (c0 first - c0 last_row) (c1 first - c1 last_row)
  end.

Definition sample_trajectory : list row4 := [mk4 0 0 1 1; mk4 10 10 1 1].

Section Prior.

Variable cv_kalman : Type.
Variable cv_predict : cv_kalman -> cv_kalman * (row4 * row4).
Variable cv_correct : cv_kalman -> row4 -> result cv_kalman.

(** The filter after one predict-then-correct round per measurement, every
    measurement taken relative to [first]; the exception of the first
    correction that fails. *)
Fixpoint run_rounds (first : row4) (k : cv_kalman)
         (measurements : list row4) : result cv_kalman :=
  match measurements with
  | [] => Ok k
  | m :: rest =>
      k' <- cv_correct (fst (cv_predict k))
                       (mk4 (c0 m - c0 first) (c1 m - c1 first)
                            (c2 m - c2 first) (c3 m - c3 first)) ;;
      run_rounds first k' rest
  end.

(** The first four entries of what the filter predicts next, offset by
    [first]. *)
Definition offset_prediction (first : row4) (k : cv_kalman) : row4 :=
  let p := fst (snd (cv_predict k)) in
  mk4 (c0 p + c0 first) (c1 p + c1 first)
      (c2 p + c2 first) (c3 p + c3 first).

(** The one-step-ahead prediction for position [i]: the prediction of the
    filter that has seen the measurements before [i] only, offset by
    [first]. *)
Definition prior_prediction (first : row4) (k : cv_kalman)
           (rows : list row4) (i : nat) : result row4 :=
  ki <- run_rounds first k (firstn i rows) ;;
  Ok (offset_prediction first ki).

End Prior.

(** A filter that trusts every measurement fully: its state is the last
    corrected measurement, which it predicts to persist. *)
Definition hold_predict (k : row4) : row4 * (row4 * row4) :=
  (k, (k, mk4 0 0 0 0)).

Definition hold_correct (k : row4) (measurement : row4) : result row4 :=
  Ok measurement.

(** A filter whose [correct] refuses every measurement, as the OpenCV
    filter does on the rows of a float64 array. *)
Definition reject_correct (k : row4) (measurement : row4) : result row4 :=
  Raise CvError.

(** A state with positive area and positive ratio. *)
Definition state_ok (s : row4) : Prop := 0 < c2 s /\ 0 < c3 s.

(** The trajectory [t] with its rows replaced, the array kind kept. *)
Definition with_rows (t : trajectory) (rows : list row4) : trajectory :=
  match t with
  | TorchTensor _ => TorchTensor rows
  | NpArray _ => NpArray rows
  end.

Section Extrapolation.

Variable cv_kalman : Type.
Variable cv_predict : cv_kalman -> cv_kalman * (row4 * row4).

(** The filter after [i] predictions in a row, without correction. *)
Fixpoint predict_only (k : cv_kalman) (i : nat) : cv_kalman :=
  match i with
  | O => k
  | S i' => predict_only (fst (cv_predict k)) i'
  end.

End Extrapolation.

End KalmanSpec.

(** * Properties *)

(** Reduce the binds and matches of a model whose head is known. *)
Ltac run_bind := cbn beta iota delta [bind].

(** ** Array updates *)

Section Updates.

Context {A : Type}.

Lemma set_item_in_range (l : list A) (i : nat) (v : A) :
  (i < length l)%nat -> set_item l i v = Ok (upd l i v).
Proof.
  revert i; induction l as [|x t IH]; intros [|i] Hi; simpl in *;
    try lia; auto.
  rewrite IH by lia. reflexivity.
Qed.

Lemma set_item_out_of_range (l : list A) (i : nat) (v : A) :
  (length l <= i)%nat -> set_item l i v = Raise IndexError.
Proof.
  revert i; induction l as [|x t IH]; intros [|i] Hi; simpl in *;
    try lia; auto.
  rewrite IH by lia. reflexivity.
Qed.

Lemma upd_length (l : list A) (i : nat) (v : A) :
  length (upd l i v) = length l.
Proof.
  revert i; induction l as [|x t IH]; intros [|i]; simpl; auto.
Qed.

Lemma nth_upd_same (l : list A) (i : nat) (v d : A) :
  (i < length l)%nat -> nth i (upd l i v) d = v.
Proof.
  revert i; induction l as [|x t IH]; intros [|i] Hi; simpl in *;
    try lia; auto.
  apply IH; lia.
Qed.

Lemma nth_upd_other (l : list A) (i k : nat) (v d : A) :
  k <> i -> nth k (upd l i v) d = nth k l d.
Proof.
  revert i k; induction l as [|x t IH]; intros [|i] [|k] Hk; simpl;
    auto; try congruence.
Qed.

Lemma get_item_in_range (l : list A) (i : nat) (d : A) :
  (i < length l)%nat -> get_item l i = Ok (nth i l d).
Proof.
  intros Hi. unfold get_item.
  rewrite (nth_error_nth' l d Hi). reflexivity.
Qed.

End Updates.

(** ** The matcher *)

Section Matcher.

Import Detect DetectSpec.
Local Open Scope Q_scope.

Lemma count_ones_zeros (n : nat) : count_ones (zeros n) = 0%nat.
Proof. induction n; simpl; auto. Qed.

Lemma count_ones_upd (l : list Q) (i : nat) :
  (i < length l)%nat -> nth i l 0 = 0 ->
  count_ones (upd l i 1) = S (count_ones l).
Proof.
  unfold count_ones.
  revert i; induction l as [|x t IH]; intros [|i] Hi Hx; simpl in *;
    try lia.
  - subst x. reflexivity.
  - destruct (Qeq_bool x 1); simpl; rewrite IH by (auto; lia); reflexivity.
Qed.

(** On an array of flags the sum counts the flags that are set. *)
Lemma Qsum_count_ones (l : list Q) :
  (forall x, In x l -> x = 0 \/ x = 1) ->
  Qsum l == inject_Z (Z.of_nat (count_ones l)).
Proof.
  unfold count_ones.
  induction l as [|x t IH]; intros H.
  - reflexivity.
  - assert (Ht : Qsum t == inject_Z (Z.of_nat (length (filter (fun x => Qeq_bool x 1) t)))).
    { apply IH. intros y Hy. apply H. right. exact Hy. }
    destruct (H x (or_introl eq_refl)) as [-> | ->]; cbn [Qsum fold_right filter].
    + change (Qeq_bool 0 1) with false. cbn iota.
      change (fold_right Qplus 0 t) with (Qsum t). rewrite Ht. ring.
    + change (Qeq_bool 1 1) with true. cbn iota.
      change (fold_right Qplus 0 t) with (Qsum t). rewrite Ht.
      cbn [length]. rewrite Nat2Z.inj_succ. unfold Z.succ.
      rewrite inject_Z_plus. ring.
Qed.

Lemma argmax_from_bound (l : list xfloat) (best : xfloat) (bi i : nat) :
  (bi < i)%nat -> (argmax_from best bi i l < i + length l)%nat.
Proof.
  revert best bi i; induction l as [|x t IH]; intros best bi i Hb; simpl.
  - lia.
  - destruct (better x best).
    + specialize (IH x i (S i)). lia.
    + specialize (IH best bi (S i)). lia.
Qed.

Lemma best_match_ok (im_gt : list box) (d : box) :
  exists ovmax jmax,
    best_match im_gt d = Ok (ovmax, jmax) /\
    (im_gt = [] -> ovmax = NInf /\ jmax = None) /\
    (im_gt <> [] -> exists j, jmax = Some j /\ (j < length im_gt)%nat).
Proof.
  destruct im_gt as [|g gt].
  - exists NInf, None. repeat split; auto. congruence.
  - cbn [best_match map np_max np_argmax bind].
    eexists _, _. split; [reflexivity|]. split; [congruence|].
    intros _. eexists. split; [reflexivity|].
    pose proof (argmax_from_bound (map (overlap d) gt) (overlap d g) 0 1).
    rewrite length_map in H. simpl. lia.
Qed.

Lemma hit_target (im_gt : list box) (ovthresh : Q) (d : box) :
  hit im_gt ovthresh d = true ->
  exists j, target im_gt d = Some j /\ (j < length im_gt)%nat.
Proof.
  unfold hit, target.
  destruct (best_match_ok im_gt d) as (ov & jm & E & Hnil & Hcons).
  rewrite E. intros Hgt.
  destruct im_gt as [|g gt].
  - destruct (Hnil eq_refl) as [-> _]. discriminate.
  - apply Hcons. congruence.
Qed.

Lemma nth_zeros (n k : nat) : nth k (zeros n) 0 = 0.
Proof.
  unfold zeros. revert k; induction n; intros [|k]; simpl; auto.
Qed.

Lemma claimed_before_stable im_gt pre d tp tp' k t :
  (k <= length pre)%nat ->
  (forall m, (m < k)%nat -> nth m tp' 0 = nth m tp 0) ->
  claimed_before im_gt (pre ++ [d]) tp' k t <->
  claimed_before im_gt pre tp k t.
Proof.
  intros Hk Hagree. unfold claimed_before. split.
  - intros (m & dm & Hm & Hnth & Htp & Ht). exists m, dm.
    rewrite nth_error_app1 in Hnth by lia.
    rewrite Hagree in Htp by lia. auto.
  - intros (m & dm & Hm & Hnth & Htp & Ht). exists m, dm.
    rewrite nth_error_app1 by lia.
    rewrite Hagree by lia. auto.
Qed.

Lemma claimed_before_snoc im_gt pre d tp tp' t :
  (forall m, (m < length pre)%nat -> nth m tp' 0 = nth m tp 0) ->
  claimed_before im_gt (pre ++ [d]) tp' (length (pre ++ [d])) t <->
  claimed_before im_gt pre tp (length pre) t \/
  (nth (length pre) tp' 0 = 1 /\ target im_gt d = t).
Proof.
  intros Hagree. rewrite length_app. simpl length.
  unfold claimed_before. split.
  - intros (m & dm & Hm & Hnth & Htp & Ht).
    destruct (Nat.eq_dec m (length pre)) as [->|Hne].
    + right. rewrite nth_error_app2, Nat.sub_diag in Hnth by lia.
      simpl in Hnth. injection Hnth as <-. auto.
    + left. exists m, dm.
      rewrite nth_error_app1 in Hnth by lia.
      rewrite Hagree in Htp by lia. repeat split; auto; lia.
  - intros [(m & dm & Hm & Hnth & Htp & Ht) | [Htp Ht]].
    + exists m, dm. rewrite nth_error_app1 by lia.
      rewrite Hagree by lia. repeat split; auto; lia.
    + exists (length pre), d.
      rewrite nth_error_app2, Nat.sub_diag by lia. simpl.
      repeat split; auto; lia.
Qed.

Lemma Q_zero_not_one : (0 : Q) <> 1.
Proof. discriminate. Qed.

Lemma nth_error_snoc_inv {A : Type} (pre : list A) (d d0 : A) (k : nat) :
  nth_error (pre ++ [d]) k = Some d0 ->
  ((k < length pre)%nat /\ nth_error pre k = Some d0) \/
  (k = length pre /\ d0 = d).
Proof.
  intros H. destruct (Nat.lt_ge_cases k (length pre)) as [Hlt|Hge].
  - left. rewrite nth_error_app1 in H by lia. auto.
  - right. rewrite nth_error_app2 in H by lia.
    destruct (k - length pre)%nat as [|n] eqn:E; simpl in H.
    + split; [lia | congruence].
    + destruct n; discriminate.
Qed.

(** The loop body keeps the invariant when it records a false positive. *)
Lemma inv_fp_step im_gt ovthresh N pre d st :
  matcher_inv im_gt ovthresh N pre st ->
  (length pre < N)%nat ->
  (hit im_gt ovthresh d = false \/
   claimed_before im_gt pre (im_tp st) (length pre) (target im_gt d)) ->
  matcher_inv im_gt ovthresh N (pre ++ [d])
    (mkFlags (found st) (im_tp st) (upd (im_fp st) (length pre) 1)).
Proof.
  intros [Lf Lt Lp Hrest Hdone Hfound Hcount] Hi Hwhy.
  constructor; cbn [found im_tp im_fp].
  - exact Lf.
  - exact Lt.
  - rewrite upd_length. exact Lp.
  - intros k Hk. rewrite length_app in Hk. simpl in Hk.
    rewrite nth_upd_other by lia. apply Hrest. lia.
  - intros k d0 Hnth.
    destruct (nth_error_snoc_inv _ _ _ _ Hnth) as [[Hlt Hpre] | [-> ->]].
    + rewrite nth_upd_other by lia.
      rewrite (claimed_before_stable im_gt pre d (im_tp st) (im_tp st))
        by (auto; lia).
      apply Hdone. exact Hpre.
    + right. rewrite nth_upd_same by lia.
      rewrite (claimed_before_stable im_gt pre d (im_tp st) (im_tp st))
        by (auto; lia).
      destruct (Hrest (length pre) (Nat.le_refl _)) as [Htp _]. auto.
  - intros j Hj.
    rewrite (claimed_before_snoc im_gt pre d (im_tp st) (im_tp st)) by auto.
    destruct (Hrest (length pre) (Nat.le_refl _)) as [Htp _].
    destruct (Hfound j Hj) as [[H1 H2] | [H1 H2]].
    + left. auto.
    + right. split; [exact H1|]. intros [H | [H _]]; [auto|].
      rewrite Htp in H. discriminate.
  - exact Hcount.
Qed.

(** The loop body keeps the invariant when it records a true positive and
    claims ground truth [j]. *)
Lemma inv_tp_step im_gt ovthresh N pre d st j :
  matcher_inv im_gt ovthresh N pre st ->
  (length pre < N)%nat ->
  hit im_gt ovthresh d = true ->
  target im_gt d = Some j ->
  (j < length im_gt)%nat ->
  nth j (found st) 0 = 0 ->
  matcher_inv im_gt ovthresh N (pre ++ [d])
    (mkFlags (upd (found st) j 1) (upd (im_tp st) (length pre) 1)
             (im_fp st)).
Proof.
  intros [Lf Lt Lp Hrest Hdone Hfound Hcount] Hi Hhit Htgt Hj Hfree.
  assert (Hunclaimed :
    ~ claimed_before im_gt pre (im_tp st) (length pre) (Some j)).
  { destruct (Hfound j Hj) as [[H1 _] | [_ H2]]; [|exact H2].
    rewrite Hfree in H1. discriminate. }
  assert (Hagree : forall m, (m < length pre)%nat ->
            nth m (upd (im_tp st) (length pre) 1) 0 = nth m (im_tp st) 0).
  { intros m Hm. apply nth_upd_other. lia. }
  destruct (Hrest (length pre) (Nat.le_refl _)) as [Htp0 Hfp0].
  constructor; cbn [found im_tp im_fp].
  - rewrite upd_length. exact Lf.
  - rewrite upd_length. exact Lt.
  - exact Lp.
  - intros k Hk. rewrite length_app in Hk. simpl in Hk.
    rewrite nth_upd_other by lia. apply Hrest. lia.
  - intros k d0 Hnth.
    destruct (nth_error_snoc_inv _ _ _ _ Hnth) as [[Hlt Hpre] | [-> ->]].
    + rewrite nth_upd_other by lia.
      rewrite (claimed_before_stable im_gt pre d (im_tp st))
        by (try lia; intros; apply Hagree; lia).
      apply Hdone. exact Hpre.
    + left. rewrite nth_upd_same by lia.
      rewrite (claimed_before_stable im_gt pre d (im_tp st))
        by (try lia; intros; apply Hagree; lia).
      rewrite Htgt. auto.
  - intros j' Hj'.
    rewrite (claimed_before_snoc im_gt pre d (im_tp st)) by exact Hagree.
    rewrite nth_upd_same by lia.
    destruct (Nat.eq_dec j' j) as [->|Hne].
    + left. rewrite nth_upd_same by lia. auto.
    + rewrite nth_upd_other by lia.
      destruct (Hfound j' Hj') as [[H1 H2] | [H1 H2]].
      * left. auto.
      * right. split; [exact H1|]. intros [H | [_ H]]; [auto|].
        congruence.
  - rewrite !count_ones_upd by (auto; lia). congruence.
Qed.

Lemma hit_eq im_gt ovthresh d ovmax jmax :
  best_match im_gt d = Ok (ovmax, jmax) ->
  hit im_gt ovthresh d = xgtb ovmax (Fin ovthresh) /\
  target im_gt d = jmax.
Proof. intros E. unfold hit, target. rewrite E. auto. Qed.

(** One iteration of the loop never raises and keeps the invariant. *)
Lemma match_step_inv im_gt ovthresh N pre d st :
  matcher_inv im_gt ovthresh N pre st ->
  (length pre < N)%nat ->
  exists st',
    match_step im_gt ovthresh (length pre) d st = Ok st' /\
    matcher_inv im_gt ovthresh N (pre ++ [d]) st'.
Proof.
  intros Hinv Hi.
  destruct (best_match_ok im_gt d) as (ovmax & jmax & E & _).
  destruct (hit_eq im_gt ovthresh d ovmax jmax E) as [Hhit Htgt].
  unfold match_step. rewrite E. run_bind.
  pose proof (inv_len_found _ _ _ _ _ Hinv) as Lf.
  pose proof (inv_len_tp _ _ _ _ _ Hinv) as Lt.
  pose proof (inv_len_fp _ _ _ _ _ Hinv) as Lp.
  destruct (xgtb ovmax (Fin ovthresh)) eqn:Hx.
  - destruct (hit_target im_gt ovthresh d Hhit) as (j & Hj & Hlt).
    subst jmax. rewrite Hj. run_bind.
    rewrite (get_item_in_range (found st) j 0) by lia. run_bind.
    destruct (inv_found _ _ _ _ _ Hinv j Hlt) as [[H1 H2] | [H1 H2]];
      rewrite H1.
    + change (Qeq_bool 1 0) with false. cbn iota.
      rewrite set_item_in_range by lia. run_bind.
      eexists. split; [reflexivity|].
      apply inv_fp_step; auto. right. rewrite Hj. exact H2.
    + change (Qeq_bool 0 0) with true. cbn iota.
      rewrite !set_item_in_range by lia. run_bind.
      eexists. split; [reflexivity|].
      apply inv_tp_step; auto.
  - rewrite set_item_in_range by lia. run_bind.
    eexists. split; [reflexivity|].
    apply inv_fp_step; auto.
Qed.

Lemma match_loop_inv im_gt ovthresh N ds :
  forall pre st,
    matcher_inv im_gt ovthresh N pre st ->
    (length pre + length ds = N)%nat ->
    exists st',
      match_loop im_gt ovthresh (length pre) ds st = Ok st' /\
      matcher_inv im_gt ovthresh N (pre ++ ds) st'.
Proof.
  induction ds as [|d ds IH]; intros pre st Hinv Hlen.
  - exists st. rewrite app_nil_r. split; [reflexivity | exact Hinv].
  - simpl in Hlen.
    destruct (match_step_inv im_gt ovthresh N pre d st Hinv) as
      (st1 & E1 & Hinv1); [lia|].
    cbn [match_loop]. rewrite E1. cbn [bind].
    destruct (IH (pre ++ [d]) st1 Hinv1) as (st2 & E2 & Hinv2).
    { rewrite length_app. simpl. lia. }
    rewrite length_app in E2. simpl in E2.
    replace (length pre + 1)%nat with (S (length pre)) in E2 by lia.
    exists st2. split; [exact E2|].
    rewrite <- app_assoc in Hinv2. exact Hinv2.
Qed.

Lemma matcher_inv_init im_gt ovthresh N :
  matcher_inv im_gt ovthresh N []
    (mkFlags (zeros (length im_gt)) (zeros N) (zeros N)).
Proof.
  constructor; cbn [found im_tp im_fp].
  - apply repeat_length.
  - apply repeat_length.
  - apply repeat_length.
  - intros k _. rewrite !nth_zeros. auto.
  - intros [|k] d H; discriminate.
  - intros j _. right. rewrite nth_zeros. split; [reflexivity|].
    intros (m & dm & Hm & _). simpl in Hm. lia.
  - rewrite !count_ones_zeros. reflexivity.
Qed.

(** The matcher returns on every input, in a state that satisfies the loop
    invariant for the whole detection array. *)
Lemma tp_and_fp_of_detection_inv im_gt im_det ovthresh :
  exists r,
    tp_and_fp_of_detection im_gt im_det ovthresh = Ok r /\
    matcher_inv im_gt ovthresh (length im_det) im_det r.
Proof.
  unfold tp_and_fp_of_detection.
  apply (match_loop_inv im_gt ovthresh (length im_det) im_det []).
  - apply matcher_inv_init.
  - reflexivity.
Qed.

Lemma flags_are_bits (l : list Q) :
  (forall k, (k < length l)%nat -> nth k l 0 = 0 \/ nth k l 0 = 1) ->
  forall x, In x l -> x = 0 \/ x = 1.
Proof.
  intros H x Hin.
  destruct (In_nth l x 0 Hin) as (k & Hk & <-). auto.
Qed.

(** C7.  With an empty ground-truth array the matcher returns without
    raising and marks every detection a false positive and none a true
    positive; with an empty detection array it returns empty TP and FP
    arrays. *)
Theorem C7_empty_inputs :
  (forall (im_det : list box) (ovthresh : Q),
      tp_and_fp_of_detection [] im_det ovthresh
      = Ok (mkFlags [] (zeros (length im_det))
                    (repeat 1 (length im_det)))) /\
  (forall (im_gt : list box) (ovthresh : Q),
      tp_and_fp_of_detection im_gt [] ovthresh
      = Ok (mkFlags (zeros (length im_gt)) [] [])).
Proof.
  split; [|reflexivity].
  intros im_det ovthresh.
  destruct (tp_and_fp_of_detection_inv [] im_det ovthresh)
    as ([f tp fp] & E & [Lf Lt Lp _ Hdone _ _]).
  cbn [found im_tp im_fp] in *.
  rewrite E. f_equal.
  assert (Hk : forall k, (k < length im_det)%nat ->
                 nth k tp 0 = 0 /\ nth k fp 0 = 1).
  { intros k Hk.
    destruct (nth_error im_det k) as [d|] eqn:Hd.
    - destruct (Hdone k d Hd) as [(_ & _ & Hh & _) | (T0 & F1 & _)]; auto.
      discriminate.
    - apply nth_error_None in Hd. lia. }
  f_equal.
  - destruct f; [reflexivity | discriminate].
  - apply (nth_ext _ _ 0 0).
    + unfold zeros. rewrite repeat_length. exact Lt.
    + intros k Hlt. rewrite nth_zeros. apply Hk. lia.
  - apply (nth_ext _ _ 0 0).
    + rewrite repeat_length. exact Lp.
    + intros k Hlt. rewrite nth_repeat_lt by lia. apply Hk. lia.
Qed.

(** C9.  In the result of the matcher every detection index carries exactly
    one flag: [im_tp[i]] is 1 and [im_fp[i]] is 0, or the reverse; and the
    sum of the [found] flags equals the sum of the [im_tp] flags, which is
    the number of true positives. *)
Theorem C9_flags_partition_detections
        (im_gt im_det : list box) (ovthresh : Q) :
  exists r,
    tp_and_fp_of_detection im_gt im_det ovthresh = Ok r /\
    length (im_tp r) = length im_det /\
    length (im_fp r) = length im_det /\
    length (found r) = length im_gt /\
    (forall i, (i < length im_det)%nat ->
       (nth i (im_tp r) 0 = 1 /\ nth i (im_fp r) 0 = 0) \/
       (nth i (im_tp r) 0 = 0 /\ nth i (im_fp r) 0 = 1)) /\
    Qsum (found r) == Qsum (im_tp r) /\
    Qsum (found r) == inject_Z (Z.of_nat (count_ones (im_tp r))).
Proof.
  destruct (tp_and_fp_of_detection_inv im_gt im_det ovthresh)
    as (r & E & [Lf Lt Lp _ Hdone Hfound Hcount]).
  exists r. split; [exact E|].
  assert (Hbits : forall i, (i < length im_det)%nat ->
     (nth i (im_tp r) 0 = 1 /\ nth i (im_fp r) 0 = 0) \/
     (nth i (im_tp r) 0 = 0 /\ nth i (im_fp r) 0 = 1)).
  { intros i Hi.
    destruct (nth_error im_det i) as [d|] eqn:Hd.
    - destruct (Hdone i d Hd) as [(T & F & _) | (T & F & _)]; auto.
    - apply nth_error_None in Hd. lia. }
  assert (Stp : Qsum (im_tp r) == inject_Z (Z.of_nat (count_ones (im_tp r)))).
  { apply Qsum_count_ones, flags_are_bits. intros k Hk.
    destruct (Hbits k) as [[T _] | [T _]]; [lia | auto | auto]. }
  assert (Sf : Qsum (found r) == inject_Z (Z.of_nat (count_ones (found r)))).
  { apply Qsum_count_ones, flags_are_bits. intros k Hk.
    destruct (Hfound k) as [[F _] | [F _]]; [lia | auto | auto]. }
  repeat split; auto.
  - rewrite Sf, Stp, Hcount. reflexivity.
  - rewrite Sf, Hcount. reflexivity.
Qed.

End Matcher.

(** ** The metric aggregator *)

Section Metrics.

Import Detect DetectSpec.
Local Open Scope Q_scope.

Lemma set_slice_empty : set_slice [] 0 0 [] = Ok [].
Proof. reflexivity. Qed.

Lemma flat_size_cons_zero (s : slot) (t : list slot) :
  flat_size (s :: t) = 0%nat -> as_array s = [] /\ flat_size t = 0%nat.
Proof.
  destruct s as [|a]; simpl; intros H; [auto|].
  split; [|lia]. destruct a; [reflexivity | simpl in H; lia].
Qed.

(** With no detection on either side the second loop leaves both flat
    arrays empty and raises nothing. *)
Lemma flatten_loop_empty (tp : list slot) :
  forall fp,
    flat_size tp = 0%nat -> flat_size fp = 0%nat ->
    flatten_loop tp fp 0 [] [] = Ok ([], []).
Proof.
  induction tp as [|tp_im tp IH]; intros fp Htp Hfp; [reflexivity|].
  destruct fp as [|fp_im fp]; [reflexivity|].
  destruct (flat_size_cons_zero _ _ Htp) as [Ha Htp'].
  destruct (flat_size_cons_zero _ _ Hfp) as [Hb Hfp'].
  cbn [flatten_loop].
  destruct tp_im as [|a].
  - apply IH; assumption.
  - simpl in Ha. subst a. rewrite Hb. cbn [length].
    rewrite set_slice_empty. run_bind. apply IH; assumption.
Qed.

(** C6.  When neither the TP nor the FP list holds a detection (every
    per-image entry is the initial empty list or an empty array), the
    aggregator returns the dictionary AP = 0.0, Prec = 0.0, Rec = 0.0,
    TP = 0, FP = 0 without raising, for every [npos], zero included. *)
Theorem C6_no_detections_all_zero
        (tp fp : list slot) (npos : nat)
        (Htp : flat_size tp = 0%nat) (Hfp : flat_size fp = 0%nat) :
  detection_metrics_from_tp_and_fp tp fp npos
  = Ok (mkEval (VFloat (Fin 0)) (VFloat (Fin 0)) (VFloat (Fin 0))
               (VInt 0) (VInt 0)).
Proof.
  unfold detection_metrics_from_tp_and_fp.
  rewrite Htp. cbn [zeros repeat].
  rewrite flatten_loop_empty by assumption.
  reflexivity.
Qed.

Lemma C6_no_detections_witness :
  detection_metrics_from_tp_and_fp
    [PyEmptyList; NdArray []; PyEmptyList]
    [PyEmptyList; NdArray []; PyEmptyList] 0
  = Ok (mkEval (VFloat (Fin 0)) (VFloat (Fin 0)) (VFloat (Fin 0))
               (VInt 0) (VInt 0)).
Proof.
  apply (C6_no_detections_all_zero
           [PyEmptyList; NdArray []; PyEmptyList]
           [PyEmptyList; NdArray []; PyEmptyList] 0); reflexivity.
Defined.

(** The premise on the FP side is needed: an FP array of two flags against
    an empty TP array makes the slice assignment raise, and the aggregator
    with it.  The matcher never produces such a pair. *)
Example metrics_mismatched_fp_raises :
  detection_metrics_from_tp_and_fp [NdArray []] [NdArray [1; 1]] 0
  = Raise ValueError.
Proof. reflexivity. Qed.

(** One true positive among one positive: AP, precision and recall 1. *)
Example metrics_single_true_positive :
  detection_metrics_from_tp_and_fp [NdArray [1]] [NdArray [0]] 1
  = Ok (mkEval (VStr2f (Fin 1)) (VStr2f (Fin 1)) (VStr2f (Fin 1))
               (VStrInt 1) (VStrInt 0)).
Proof. vm_compute. reflexivity. Qed.

End Metrics.

(** ** The evaluation drivers *)

Section Drivers.

Import Detect DetectSpec.
Local Open Scope nat_scope.

Variable self : MOT16ObjDetect.
Variable ovthresh : Q.

Lemma matcher_flags_ok (im_gt im_det : list box) :
  tp_and_fp_of_detection im_gt im_det ovthresh
  = Ok (matcher_flags im_gt im_det ovthresh).
Proof.
  unfold matcher_flags.
  destruct (tp_and_fp_of_detection_inv im_gt im_det ovthresh)
    as (r & E & _).
  rewrite E. reflexivity.
Qed.

(** Indexing the boxes with the visibility mask keeps the visible boxes. *)
Lemma mask_select_visible (bs : list box) :
  forall vs,
    length bs = length vs ->
    mask_select bs (map (fun v => Qlt_bool (vis_threshold self) v) vs)
    = Ok (visible_boxes self (mkAnn bs vs)).
Proof.
  unfold visible_boxes. cbn [boxes visibilities].
  induction bs as [|b bs IH]; intros [|v vs] Hlen; simpl in Hlen;
    try discriminate; [reflexivity|].
  cbn [map mask_select combine filter snd].
  rewrite IH by lia. run_bind.
  unfold is_visible. destruct (Qlt_bool (vis_threshold self) v);
    reflexivity.
Qed.

Lemma visible_plus_hidden (bs : list box) :
  forall vs,
    length bs = length vs ->
    length bs
    = length (visible_boxes self (mkAnn bs vs))
      + hidden_count self (mkAnn bs vs).
Proof.
  unfold visible_boxes, hidden_count. cbn [boxes visibilities].
  induction bs as [|b bs IH]; intros [|v vs] Hlen; simpl in Hlen;
    try discriminate; [reflexivity|].
  cbn [combine filter snd length].
  specialize (IH vs ltac:(lia)).
  destruct (is_visible self v); cbn [negb map length]; lia.
Qed.

(** The shared loop body on a frame it can process. *)
Lemma eval_frame_ok (idx : nat) (im_det : list box) (acc : accum) :
  frame_ok self idx ->
  length (acc_tp acc) = img_paths_len self ->
  length (acc_fp acc) = img_paths_len self ->
  eval_frame self ovthresh idx im_det acc
  = Ok (expected_accum self ovthresh [(idx, im_det)] acc).
Proof.
  intros (ann & Hann & Hshape & Hidx) Ltp Lfp.
  unfold eval_frame. cbn [expected_accum].
  unfold annotation_at. rewrite Hann. run_bind.
  destruct ann as [bs vs]. cbn [boxes visibilities] in *.
  rewrite mask_select_visible by exact Hshape. run_bind.
  rewrite matcher_flags_ok. run_bind.
  rewrite !set_item_in_range by lia. run_bind.
  rewrite length_map. rewrite Hshape. reflexivity.
Qed.

Lemma expected_accum_app (rs1 rs2 : list (nat * list box)) (acc : accum) :
  expected_accum self ovthresh (rs1 ++ rs2) acc
  = expected_accum self ovthresh rs2 (expected_accum self ovthresh rs1 acc).
Proof.
  revert acc; induction rs1 as [|[idx det] rs1 IH]; intros acc;
    [reflexivity|].
  cbn [app expected_accum]. apply IH.
Qed.

Lemma evaluate_loop_ok (results : list (nat * list box)) :
  forall acc,
    Forall (frame_ok self) (map fst results) ->
    length (acc_tp acc) = img_paths_len self ->
    length (acc_fp acc) = img_paths_len self ->
    evaluate_loop self ovthresh results acc
    = Ok (expected_accum self ovthresh results acc).
Proof.
  induction results as [|[idx det] rest IH]; intros acc Hok Ltp Lfp;
    [reflexivity|].
  cbn [map fst] in Hok. inversion Hok as [|? ? Hidx Hrest]; subst.
  cbn [evaluate_loop].
  rewrite eval_frame_ok by assumption. run_bind.
  cbn [expected_accum]. apply IH; cbn [acc_tp acc_fp].
  - exact Hrest.
  - rewrite upd_length. exact Ltp.
  - rewrite upd_length. exact Lfp.
Qed.

Lemma expected_npos (results : list (nat * list box)) :
  forall acc,
    npos (expected_accum self ovthresh results acc)
    = npos acc + total_annotated self results.
Proof.
  induction results as [|[idx det] rest IH]; intros acc.
  - simpl. lia.
  - cbn [expected_accum total_annotated]. rewrite IH. cbn [npos]. lia.
Qed.

Lemma annotated_visible_hidden (results : list (nat * list box)) :
  Forall (frame_ok self) (map fst results) ->
  total_annotated self results
  = total_visible self results + total_hidden self results.
Proof.
  induction results as [|[idx det] rest IH]; intros Hok; [reflexivity|].
  cbn [map fst] in Hok. inversion Hok as [|? ? Hidx Hrest]; subst.
  cbn [total_annotated total_visible total_hidden].
  rewrite (IH Hrest).
  destruct Hidx as (ann & Hann & Hshape & _).
  unfold annotation_at. rewrite Hann.
  destruct ann as [bs vs]. cbn [boxes visibilities] in *.
  rewrite (visible_plus_hidden bs vs Hshape). lia.
Qed.

(** The tracking driver runs the same loop on the frames of a sequence. *)
Lemma tracking_loop_resolved (seq : string) (seq_results : list (list box)) :
  forall frame_id results acc,
    resolve_frames self seq frame_id seq_results = Some results ->
    tracking_loop self ovthresh seq frame_id seq_results acc
    = evaluate_loop self ovthresh results acc.
Proof.
  induction seq_results as [|det rest IH]; intros frame_id results acc H.
  - simpl in H. injection H as <-. reflexivity.
  - cbn [resolve_frames] in H. cbn [tracking_loop].
    destruct (convert_frame_to_img_idx self seq frame_id) as [idx|];
      [|discriminate].
    destruct (resolve_frames self seq (S frame_id) rest) as [frames|] eqn:E;
      [|discriminate].
    injection H as <-. cbn [evaluate_loop].
    destruct (eval_frame self ovthresh idx det acc) as [acc'|e];
      [|reflexivity].
    run_bind. apply IH. exact E.
Qed.

End Drivers.

Section DriverClaims.

Import Detect DetectSpec.
Local Open Scope nat_scope.

(** C10.  On frames the drivers can process, [evaluate_detections] ends its
    loop with every frame matched against its visible boxes only, while
    [npos] is the number of all annotated boxes of the processed frames:
    the visible ones plus the ones at or under the visibility threshold,
    which are never matching targets.  This [npos] is the recall
    denominator handed to the aggregator, and
    [evaluate_detections_on_tracking_data] runs the same loop on the frames
    of a sequence. *)
Theorem C10_npos_counts_hidden_boxes
        (self : MOT16ObjDetect) (ovthresh : Q)
        (results : list (nat * list box))
        (Hok : Forall (frame_ok self) (map fst results)) :
  let acc := expected_accum self ovthresh results (init_accum self) in
  evaluate_loop self ovthresh results (init_accum self) = Ok acc /\
  (forall seq seq_results,
      resolve_frames self seq 1 seq_results = Some results ->
      tracking_loop self ovthresh seq 1 seq_results (init_accum self)
      = Ok acc) /\
  npos acc = total_annotated self results /\
  npos acc = total_visible self results + total_hidden self results /\
  evaluate_detections self results ovthresh
  = detection_metrics_from_tp_and_fp
      (acc_tp acc) (acc_fp acc) (total_annotated self results).
Proof.
  intros acc.
  assert (E : evaluate_loop self ovthresh results (init_accum self) = Ok acc).
  { apply evaluate_loop_ok; [exact Hok | |];
      unfold init_accum; cbn [acc_tp acc_fp]; apply repeat_length. }
  assert (N : npos acc = total_annotated self results).
  { unfold acc. rewrite expected_npos. reflexivity. }
  refine (conj E (conj _ (conj N (conj _ _)))).
  - intros seq seq_results Hres.
    rewrite (tracking_loop_resolved self ovthresh seq seq_results
               1 results (init_accum self) Hres).
    exact E.
  - rewrite N. apply annotated_visible_hidden. exact Hok.
  - unfold evaluate_detections. rewrite E. run_bind. rewrite N.
    reflexivity.
Qed.

Lemma demo_frames_ok : Forall (frame_ok demo_dataset) (map fst [(0, demo_boxes)]).
Proof.
  constructor; [|constructor].
  exists (mkAnn demo_boxes [1; 0.1]%Q).
  repeat split; simpl; lia.
Defined.

Lemma C10_npos_witness :
  let acc :=
    expected_accum demo_dataset 0.5 [(0, demo_boxes)]
                   (init_accum demo_dataset) in
  evaluate_loop demo_dataset 0.5 [(0, demo_boxes)] (init_accum demo_dataset)
  = Ok acc /\
  (forall seq seq_results,
      resolve_frames demo_dataset seq 1 seq_results
      = Some [(0, demo_boxes)] ->
      tracking_loop demo_dataset 0.5 seq 1 seq_results
                    (init_accum demo_dataset)
      = Ok acc) /\
  npos acc = total_annotated demo_dataset [(0, demo_boxes)] /\
  npos acc = total_visible demo_dataset [(0, demo_boxes)]
             + total_hidden demo_dataset [(0, demo_boxes)] /\
  evaluate_detections demo_dataset [(0, demo_boxes)] 0.5
  = detection_metrics_from_tp_and_fp
      (acc_tp acc) (acc_fp acc)
      (total_annotated demo_dataset [(0, demo_boxes)]).
Proof.
  exact (C10_npos_counts_hidden_boxes
           demo_dataset 0.5%Q [(0, demo_boxes)] demo_frames_ok).
Defined.

(** On the example dataset both annotated boxes are detected exactly, yet
    the hidden one is no matching target: [npos] is 2, one detection is a
    true positive, and the reported recall is 1/2 (the average precision
    comes out as the unreduced fraction 2/4). *)
Example demo_recall_is_half :
  evaluate_loop demo_dataset 0.5 [(0, demo_boxes)] (init_accum demo_dataset)
  = Ok (mkAcc [NdArray [1; 0]%Q] [NdArray [0; 1]%Q] 2) /\
  total_visible demo_dataset [(0, demo_boxes)] = 1 /\
  total_hidden demo_dataset [(0, demo_boxes)] = 1 /\
  evaluate_detections demo_dataset [(0, demo_boxes)] 0.5
  = Ok (mkEval (VStr2f (Fin (2 # 4))) (VStr2f (Fin (1 # 2)))
               (VStr2f (Fin (1 # 2))) (VStrInt 1) (VStrInt 1)) /\
  evaluate_detections_on_tracking_data
    demo_dataset [("MOT16-02"%string, [demo_boxes])] 0.5
  = Ok [("MOT16-02"%string,
         mkEval (VStr2f (Fin (2 # 4))) (VStr2f (Fin (1 # 2)))
                (VStr2f (Fin (1 # 2))) (VStrInt 1) (VStrInt 1))].
Proof. vm_compute. repeat split. Qed.

End DriverClaims.

(** ** The geometry codec *)

Section Codec.

Import Kalman KalmanSpec.
Local Open Scope R_scope.

Lemma codec_round_trip_row (b : row4) :
  well_formed b ->
  convert_state_to_box (convert_box_to_state [b]) = [b].
Proof.
  destruct b as [x1 y1 x2 y2]. unfold well_formed. cbn [c0 c1 c2 c3].
  intros [Hw Hh].
  unfold convert_box_to_state, convert_state_to_box,
    box_convert_xyxy_cxcywh, box_area.
  cbn [map c0 c1 c2 c3].
  assert (Hsq : (x2 - x1) * (y2 - y1) * ((x2 - x1) / (y2 - y1))
                = (x2 - x1) * (x2 - x1)).
  { field. lra. }
  rewrite Hsq, sqrt_square by lra.
  assert (Hh' : (x2 - x1) * (y2 - y1) / (x2 - x1) = y2 - y1).
  { field. lra. }
  rewrite Hh'.
  f_equal. f_equal; lra.
Qed.

(** C2.  On boxes of positive width and height, decoding the encoded state
    gives the box back: in exact arithmetic the round trip is the
    identity. *)
Theorem C2_codec_round_trip (boxes : list row4)
        (Hwf : Forall well_formed boxes) :
  convert_state_to_box (convert_box_to_state boxes) = boxes.
Proof.
  induction Hwf as [|b boxes Hb _ IH]; [reflexivity|].
  change (convert_state_to_box (convert_box_to_state (b :: boxes)))
    with (convert_state_to_box (convert_box_to_state [b])
          ++ convert_state_to_box (convert_box_to_state boxes)).
  rewrite codec_round_trip_row by exact Hb.
  rewrite IH. reflexivity.
Qed.

Lemma C2_codec_round_trip_witness :
  convert_state_to_box (convert_box_to_state [mk4 0 0 10 10])
  = [mk4 0 0 10 10].
Proof.
  apply (C2_codec_round_trip [mk4 0 0 10 10]).
  constructor; [|constructor].
  unfold well_formed; simpl; lra.
Defined.

End Codec.

(** ** Freezing a trajectory *)

Section Freeze.

Import Kalman KalmanSpec.
Local Open Scope R_scope.

Lemma np_tile_length (a : list row4) (n : nat) :
  length (np_tile a n) = (n * length a)%nat.
Proof.
  induction n as [|n IH]; [reflexivity|].
  cbn [np_tile]. rewrite length_app, IH. simpl. lia.
Qed.

(** The tensor branch does what the name of the function says. *)
Lemma freeze_at_mean_tensor (rows : list row4) :
  (1 < length rows)%nat ->
  freeze_at_mean (TorchTensor rows)
  = TorchTensor (repeat (mean0 rows) (length rows)).
Proof.
  intros H. unfold freeze_at_mean, len. cbn [rows_of].
  apply Nat.ltb_lt in H. rewrite H. reflexivity.
Qed.

Lemma freeze_at_mean_single (t : trajectory) :
  (len t <= 1)%nat -> freeze_at_mean t = t.
Proof.
  intros H. unfold freeze_at_mean.
  destruct (Nat.ltb_spec 1 (len t)); [lia | reflexivity].
Qed.

Lemma mean0_sample : mean0 sample_trajectory = mk4 5 5 1 1.
Proof.
  unfold mean0, sample_trajectory, col_sum.
  cbn [fold_right length INR c0 c1 c2 c3].
  f_equal; field.
Qed.

Example freeze_at_mean_tensor_sample :
  freeze_at_mean (TorchTensor sample_trajectory)
  = TorchTensor [mk4 5 5 1 1; mk4 5 5 1 1].
Proof.
  rewrite freeze_at_mean_tensor by (simpl; lia).
  rewrite mean0_sample. reflexivity.
Qed.

(** The array branch on a trajectory of length [L > 1] returns [L] copies
    of the whole trajectory, [L * L] rows. *)
Lemma freeze_at_mean_array_length (rows : list row4) :
  (1 < length rows)%nat ->
  len (freeze_at_mean (NpArray rows)) = (length rows * length rows)%nat.
Proof.
  intros H. unfold freeze_at_mean, len. cbn [rows_of].
  apply Nat.ltb_lt in H. rewrite H. cbn [rows_of].
  apply np_tile_length.
Qed.

(** C3.  On the numpy array [[0,0,1,1],[10,10,1,1]] the function does not
    return two rows [5,5,1,1]: it returns the trajectory twice over, four
    rows, none of them the mean position. *)
Theorem C3_freeze_at_mean_array_is_tiled :
  freeze_at_mean (NpArray sample_trajectory)
  = NpArray [mk4 0 0 1 1; mk4 10 10 1 1; mk4 0 0 1 1; mk4 10 10 1 1] /\
  freeze_at_mean (NpArray sample_trajectory)
  <> NpArray [mk4 5 5 1 1; mk4 5 5 1 1] /\
  len (freeze_at_mean (NpArray sample_trajectory)) = 4%nat.
Proof.
  assert (E : freeze_at_mean (NpArray sample_trajectory)
              = NpArray [mk4 0 0 1 1; mk4 10 10 1 1;
                         mk4 0 0 1 1; mk4 10 10 1 1]) by reflexivity.
  rewrite E. repeat split. discriminate.
Qed.

End Freeze.

(** ** The matrices of the SORT filter *)

Section SortMatrices.

Import Kalman KalmanSpec.
Local Open Scope R_scope.

Lemma position_noise_is_one (i : nat) :
  (i < 4)%nat -> entry (kf_Q SORTKalmanFilter_init) i i = 1.
Proof.
  intros H.
  destruct i as [|[|[|[|i]]]]; try lia; reflexivity.
Qed.

(** C4, as stated: the four position and shape entries on the diagonal of
    [Q] are not near zero under any tolerance below 1; each of them is 1,
    the unit measurement variance of [R]. *)
Lemma C4_position_noise_not_near_zero :
  ~ (exists eps, eps < 1 /\
       forall i, (i < 4)%nat ->
         near_zero eps (entry (kf_Q SORTKalmanFilter_init) i i)).
Proof.
  intros (eps & Heps & H).
  specialize (H 0%nat ltac:(lia)).
  rewrite position_noise_is_one in H by lia.
  unfold near_zero in H. rewrite Rabs_R1 in H. lra.
Qed.

(** C4, amended.  [Q] is diagonal with 1 on the four position and shape
    components and 0.01, 0.01, 1e-4 on the three velocity components; [P]
    has 1000 on each velocity diagonal entry; [R] is diagonal with unit
    variance for the two centre coordinates and ten times that for area
    and ratio. *)
Theorem C4_sort_noise_matrices :
  kf_Q SORTKalmanFilter_init
  = diag_matrix [1; 1; 1; 1; 0.01; 0.01; 0.0001] /\
  (forall i, (4 <= i < 7)%nat ->
     entry (kf_P SORTKalmanFilter_init) i i = 1000) /\
  kf_R SORTKalmanFilter_init = diag_matrix [1; 1; 10; 10].
Proof.
  refine (conj _ (conj _ _)).
  - unfold diag_matrix, one_hot. cbn.
    repeat (f_equal; try lra).
  - intros i H.
    destruct i as [|[|[|[|[|[|[|i]]]]]]]; try lia; reflexivity.
  - unfold diag_matrix, one_hot. cbn. reflexivity.
Qed.

End SortMatrices.

(** ** The motion classifier *)

Section Moving.

Import Kalman KalmanSpec.
Local Open Scope R_scope.

Lemma Rgtb_true (a b : R) : Rgtb a b = true <-> b < a.
Proof.
  unfold Rgtb. destruct (Rlt_dec b a); split; auto; discriminate.
Qed.

Lemma Rgtb_false (a b : R) : Rgtb a b = false <-> ~ b < a.
Proof.
  unfold Rgtb. destruct (Rlt_dec b a); split; auto; try discriminate.
  contradiction.
Qed.

Lemma INR_12 : INR 12 = 12.
Proof. simpl. lra. Qed.

Lemma INR_13 : INR 13 = 13.
Proof. simpl. lra. Qed.

(** A duration under half a second is a length of at most 12 frames. *)
Lemma short_iff_at_most_12 (t : trajectory) :
  elapsed_time t < 0.5 <-> (len t <= 12)%nat.
Proof.
  unfold elapsed_time. split.
  - intros H. destruct (Nat.le_gt_cases (len t) 12) as [Hle|Hgt]; [exact Hle|].
    assert (13 <= INR (len t)).
    { rewrite <- INR_13. apply le_INR. lia. }
    lra.
  - intros H. apply le_INR in H. rewrite INR_12 in H. lra.
Qed.

Lemma threshold_frames : 0.5 / (1 / 25) = 12.5.
Proof. lra. Qed.

Lemma obj_is_moving_long (t : trajectory) :
  (13 <= len t)%nat ->
  obj_is_moving t = Ok (Rgtb (end_to_end_distance t / elapsed_time t) 5).
Proof.
  intros H. unfold obj_is_moving, obj_is_moving_with.
  assert (Hlong : Rgtb (INR (len t)) (0.5 / (1 / 25)) = true).
  { apply Rgtb_true. rewrite threshold_frames.
    apply le_INR in H. rewrite INR_13 in H. lra. }
  rewrite Hlong. unfold end_to_end_distance, elapsed_time.
  destruct (rows_of t) as [|first rest] eqn:E; [|reflexivity].
  unfold len in H. rewrite E in H. simpl in H. lia.
Qed.

Lemma not_short_long (t : trajectory) :
  ~ elapsed_time t < 0.5 -> (13 <= len t)%nat.
Proof.
  intros H.
  destruct (Nat.le_gt_cases (len t) 12) as [Hle|Hgt]; [|lia].
  apply short_iff_at_most_12 in Hle. contradiction.
Qed.

Lemma obj_is_moving_short (t : trajectory) :
  elapsed_time t < 0.5 -> obj_is_moving t = Ok true.
Proof.
  intros H. apply short_iff_at_most_12 in H.
  unfold obj_is_moving, obj_is_moving_with.
  assert (Hs : Rgtb (INR (len t)) (0.5 / (1 / 25)) = false).
  { apply Rgtb_false. rewrite threshold_frames.
    apply le_INR in H. rewrite INR_12 in H. lra. }
  rewrite Hs. reflexivity.
Qed.

Lemma obj_is_moving_fast (t : trajectory) :
  ~ elapsed_time t < 0.5 ->
  5 < end_to_end_distance t / elapsed_time t ->
  obj_is_moving t = Ok true.
Proof.
  intros H Hfast.
  rewrite (obj_is_moving_long t (not_short_long t H)).
  apply Rgtb_true in Hfast. rewrite Hfast. reflexivity.
Qed.

Lemma obj_is_moving_slow (t : trajectory) :
  ~ elapsed_time t < 0.5 ->
  ~ 5 < end_to_end_distance t / elapsed_time t ->
  obj_is_moving t = Ok false.
Proof.
  intros H Hslow.
  rewrite (obj_is_moving_long t (not_short_long t H)).
  apply Rgtb_false in Hslow. rewrite Hslow. reflexivity.
Qed.

Lemma obj_is_moving_still (t : trajectory) :
  ~ elapsed_time t < 0.5 -> end_to_end_distance t = 0 ->
  obj_is_moving t = Ok false.
Proof.
  intros H Hzero. apply obj_is_moving_slow; [exact H|].
  rewrite Hzero. unfold Rdiv. rewrite Rmult_0_l. lra.
Qed.

Lemma obj_is_moving_explicit (t : trajectory) (first : row4)
      (rest : list row4) :
  rows_of t = first :: rest -> (13 <= len t)%nat ->
  obj_is_moving t
  = Ok (Rgtb (sqrt ((c0 first - c0 (last (first :: rest) first))
                    * (c0 first - c0 (last (first :: rest) first))
                    + (c1 first - c1 (last (first :: rest) first))
                      * (c1 first - c1 (last (first :: rest) first)))
              / (INR (len t) * (1 / 25))) 5).
Proof.
  intros Hrows Hlong. rewrite (obj_is_moving_long t Hlong).
  unfold end_to_end_distance, elapsed_time, norm2. rewrite Hrows.
  reflexivity.
Qed.

Lemma velocity_above_iff (distance duration : R) :
  0 < duration ->
  (5 < distance / duration <-> 5 * duration < distance).
Proof.
  intros Hpos.
  assert (Hd : distance = distance / duration * duration)
    by (field; lra).
  set (y := distance / duration) in *. split; intros H.
  - rewrite Hd. nra.
  - rewrite Hd in H. nra.
Qed.

(** C5.  At 25 frames per second a trajectory of at most 12 frames (a
    duration [len * (1 / 25)] below 0.5 s) is moving whatever its
    positions.  A longer one is moving exactly when the straight-line
    distance [sqrt (dx * dx + dy * dy)] between the first two columns of
    its first and of its last row, divided by its duration, is strictly
    above 5, which is a distance above 5 times the duration; otherwise it
    is not moving, in particular when the first and the last position are
    equal.  Over 25 frames a displacement of (3, 4), exactly 5 pixels per
    second, is not moving, and a displacement of (4, 4) is. *)
Theorem C5_obj_is_moving (t : trajectory) :
  (INR (len t) * (1 / 25) < 0.5 <-> (len t <= 12)%nat) /\
  ((len t <= 12)%nat -> obj_is_moving t = Ok true) /\
  (forall first rest,
      rows_of t = first :: rest -> (13 <= len t)%nat ->
      let last_row := last (first :: rest) first in
      let dx := c0 first - c0 last_row in
      let dy := c1 first - c1 last_row in
      let distance := sqrt (dx * dx + dy * dy) in
      let duration := INR (len t) * (1 / 25) in
      (obj_is_moving t = Ok true <-> 5 < distance / duration) /\
      (obj_is_moving t = Ok false <-> ~ 5 < distance / duration) /\
      (5 < distance / duration <-> 5 * duration < distance) /\
      (c0 first = c0 last_row -> c1 first = c1 last_row ->
       obj_is_moving t = Ok false)) /\
  obj_is_moving (NpArray (mk4 0 0 1 1 :: repeat (mk4 3 4 1 1) 24))
  = Ok false /\
  obj_is_moving (TorchTensor (mk4 0 0 1 1 :: repeat (mk4 4 4 1 1) 24))
  = Ok true /\
  obj_is_moving (NpArray (mk4 0 0 1 1 :: repeat (mk4 100 100 1 1) 11))
  = Ok true.
Proof.
  refine (conj (short_iff_at_most_12 t) (conj _ (conj _ _))).
  - intros H. apply obj_is_moving_short, short_iff_at_most_12. exact H.
  - intros first rest Hrows Hlong. cbv zeta.
    rewrite (obj_is_moving_explicit t first rest Hrows Hlong).
    set (dx := c0 first - c0 (last (first :: rest) first)).
    set (dy := c1 first - c1 (last (first :: rest) first)).
    set (duration := INR (len t) * (1 / 25)).
    assert (Hpos : 0 < duration).
    { unfold duration. apply le_INR in Hlong. rewrite INR_13 in Hlong. lra. }
    refine (conj _ (conj _ (conj _ _))).
    + split; intros H.
      * apply Rgtb_true. congruence.
      * apply Rgtb_true in H. rewrite H. reflexivity.
    + split; intros H.
      * apply Rgtb_false. congruence.
      * apply Rgtb_false in H. rewrite H. reflexivity.
    + apply velocity_above_iff. exact Hpos.
    + intros H0 H1.
      assert (Hz : sqrt (dx * dx + dy * dy) = 0).
      { unfold dx, dy. rewrite <- H0, <- H1.
        replace ((c0 first - c0 first) * (c0 first - c0 first)
                 + (c1 first - c1 first) * (c1 first - c1 first))
          with 0 by ring.
        apply sqrt_0. }
      rewrite Hz.
      assert (Hs : Rgtb (0 / duration) 5 = false).
      { apply Rgtb_false. unfold Rdiv. rewrite Rmult_0_l. lra. }
      rewrite Hs. reflexivity.
  - assert (H25 : INR 25 = 25) by (simpl; lra).
    refine (conj _ (conj _ _)).
    + rewrite (obj_is_moving_explicit
                 (NpArray (mk4 0 0 1 1 :: repeat (mk4 3 4 1 1) 24))
                 (mk4 0 0 1 1) (repeat (mk4 3 4 1 1) 24) eq_refl)
        by (unfold len; simpl; lia).
      cbn [repeat last c0 c1 len rows_of length]. rewrite H25.
      replace ((0 - 3) * (0 - 3) + (0 - 4) * (0 - 4)) with (5 * 5) by ring.
      rewrite sqrt_square by lra.
      assert (Hs : Rgtb (5 / (25 * (1 / 25))) 5 = false).
      { apply Rgtb_false. lra. }
      rewrite Hs. reflexivity.
    + rewrite (obj_is_moving_explicit
                 (TorchTensor (mk4 0 0 1 1 :: repeat (mk4 4 4 1 1) 24))
                 (mk4 0 0 1 1) (repeat (mk4 4 4 1 1) 24) eq_refl)
        by (unfold len; simpl; lia).
      cbn [repeat last c0 c1 len rows_of length]. rewrite H25.
      assert (Hs : Rgtb (sqrt ((0 - 4) * (0 - 4) + (0 - 4) * (0 - 4))
                         / (25 * (1 / 25))) 5 = true).
      { apply Rgtb_true.
        replace (25 * (1 / 25)) with 1 by lra.
        unfold Rdiv. rewrite Rinv_1, Rmult_1_r.
        replace 5 with (sqrt (5 * 5)) at 1 by (apply sqrt_square; lra).
        apply sqrt_lt_1; lra. }
      rewrite Hs. reflexivity.
    + apply obj_is_moving_short, short_iff_at_most_12.
      unfold len. simpl. lia.
Qed.

(** Identical first and last positions give distance zero. *)
Lemma end_to_end_distance_closed (first : row4) (rest : list row4) :
  c0 (last (first :: rest) first) = c0 first ->
  c1 (last (first :: rest) first) = c1 first ->
  end_to_end_distance (NpArray (first :: rest)) = 0.
Proof.
  intros H0 H1. unfold end_to_end_distance. cbn [rows_of].
  rewrite H0, H1. unfold norm2.
  replace ((c0 first - c0 first) * (c0 first - c0 first)
           + (c1 first - c1 first) * (c1 first - c1 first)) with 0 by ring.
  apply sqrt_0.
Qed.

(** Thirteen frames at one place are not moving; thirteen frames ending 100
    pixels away are; twelve frames are moving even at one place. *)
Example obj_is_moving_samples :
  obj_is_moving (NpArray (repeat (mk4 3 4 1 1) 13)) = Ok false /\
  obj_is_moving (NpArray (repeat (mk4 0 0 1 1) 12 ++ [mk4 100 0 1 1]))
  = Ok true /\
  obj_is_moving (NpArray (repeat (mk4 3 4 1 1) 12)) = Ok true.
Proof.
  refine (conj _ (conj _ _)).
  - apply obj_is_moving_still.
    + intros H. apply short_iff_at_most_12 in H.
      unfold len in H. simpl in H. lia.
    + apply end_to_end_distance_closed; reflexivity.
  - apply obj_is_moving_fast.
    + intros H. apply short_iff_at_most_12 in H.
      unfold len in H. simpl in H. lia.
    + unfold end_to_end_distance, elapsed_time, len.
      cbn [rows_of repeat app last length c0 c1].
      unfold norm2.
      replace ((0 - 100) * (0 - 100) + (0 - 0) * (0 - 0))
        with (100 * 100) by ring.
      rewrite sqrt_square by lra.
      rewrite INR_13. lra.
  - apply obj_is_moving_short, short_iff_at_most_12.
    unfold len. simpl. lia.
Qed.

End Moving.

(** ** Smoothing a trajectory *)

Section Smoothing.

Import Kalman KalmanSpec.
Local Open Scope R_scope.

Variable cv_kalman : Type.
Variable cv_predict : cv_kalman -> cv_kalman * (row4 * row4).
Variable cv_correct : cv_kalman -> row4 -> result cv_kalman.

Local Abbreviation smooth_loop :=
  (smooth_loop cv_kalman cv_predict cv_correct).
Local Abbreviation run_rounds :=
  (run_rounds cv_kalman cv_predict cv_correct).
Local Abbreviation offset_prediction :=
  (offset_prediction cv_kalman cv_predict).

(** When every correction returns, the loop returns one row per position:
    row [i] is what the filter predicts after the rounds on the positions
    before [i], offset by [first]. *)
Lemma smooth_loop_ok (first : row4) (rows : list row4) :
  forall k kf,
    run_rounds first k rows = Ok kf ->
    exists sm,
      smooth_loop first k rows = (kf, Ok sm) /\
      length sm = length rows /\
      forall i, (i < length rows)%nat ->
        exists ki,
          run_rounds first k (firstn i rows) = Ok ki /\
          forall d, nth i sm d = offset_prediction first ki.
Proof.
  induction rows as [|p rest IH]; intros k kf H.
  - cbn in H. injection H as <-. exists []. cbn.
    repeat split. intros i Hi. lia.
  - cbn [KalmanSpec.run_rounds] in H. cbn [Kalman.smooth_loop].
    destruct (cv_predict k) as [k1 pred] eqn:Ek. cbn [fst] in H.
    unfold row_sub.
    destruct (cv_correct k1
                (mk4 (c0 p - c0 first) (c1 p - c1 first)
                     (c2 p - c2 first) (c3 p - c3 first)))
      as [k2|e] eqn:Ec; cbn [bind] in H; [|discriminate].
    destruct (IH k2 kf H) as (sm & E & Hlen & Hnth).
    rewrite E. cbn [bind].
    exists (row_add (fst pred) first :: sm).
    split; [reflexivity|]. split; [simpl; lia|].
    intros [|i] Hi.
    + exists k. split; [reflexivity|]. intros d. cbn [nth].
      unfold KalmanSpec.offset_prediction. rewrite Ek. reflexivity.
    + destruct (Hnth i) as (ki & Hki & Hd); [simpl in Hi; lia|].
      exists ki. split.
      * cbn [firstn KalmanSpec.run_rounds]. rewrite Ek. cbn [fst].
        rewrite Ec. cbn [bind]. exact Hki.
      * intros d. cbn [nth]. apply Hd.
Qed.

(** The first correction that raises ends the loop with its exception. *)
Lemma smooth_loop_raise (first : row4) (rows : list row4) :
  forall k e,
    run_rounds first k rows = Raise e ->
    snd (smooth_loop first k rows) = Raise e.
Proof.
  induction rows as [|p rest IH]; intros k e H.
  - cbn in H. discriminate.
  - cbn [KalmanSpec.run_rounds] in H. cbn [Kalman.smooth_loop].
    destruct (cv_predict k) as [k1 pred] eqn:Ek. cbn [fst] in H.
    unfold row_sub.
    destruct (cv_correct k1
                (mk4 (c0 p - c0 first) (c1 p - c1 first)
                     (c2 p - c2 first) (c3 p - c3 first)))
      as [k2|e'] eqn:Ec; cbn [bind] in H.
    + specialize (IH k2 e H).
      destruct (smooth_loop first k2 rest) as [k3 r].
      cbn [snd] in *. rewrite IH. reflexivity.
    + injection H as ->. reflexivity.
Qed.

(** What the loop returns, it returns with one row per position. *)
Lemma smooth_loop_length (first : row4) (rows : list row4) :
  forall k kf sm,
    smooth_loop first k rows = (kf, Ok sm) -> length sm = length rows.
Proof.
  induction rows as [|p rest IH]; intros k kf sm H.
  - cbn in H. injection H as _ <-. reflexivity.
  - cbn [Kalman.smooth_loop] in H.
    destruct (cv_predict k) as [k1 pred].
    destruct (cv_correct k1 (row_sub p first)) as [k2|e]; [|discriminate].
    destruct (smooth_loop first k2 rest) as [k3 [sm'|e]] eqn:E;
      cbn [bind] in H; [|discriminate].
    injection H as _ <-. simpl. rewrite (IH k2 k3 sm' E). reflexivity.
Qed.

Lemma smooth_ok (k kf : cv_kalman) (t : trajectory) (first : row4)
      (rest : list row4) :
  rows_of t = first :: rest ->
  run_rounds first k (rows_of t) = Ok kf ->
  exists sm,
    smooth_loop first k (rows_of t) = (kf, Ok sm) /\
    smooth cv_kalman cv_predict cv_correct k t = (kf, Ok (with_rows t sm)) /\
    length sm = length (rows_of t) /\
    forall i, (i < length (rows_of t))%nat ->
      exists ki,
        run_rounds first k (firstn i (rows_of t)) = Ok ki /\
        forall d, nth i sm d = offset_prediction first ki.
Proof.
  intros Hrows Hacc.
  destruct (smooth_loop_ok first (rows_of t) k kf Hacc)
    as (sm & E & Hlen & Hnth).
  exists sm. refine (conj E (conj _ (conj Hlen Hnth))).
  unfold smooth. rewrite Hrows. rewrite Hrows in E, Hlen. rewrite E.
  destruct sm as [|s0 sm]; [simpl in Hlen; discriminate|].
  cbn [bind np_stack]. destruct t; reflexivity.
Qed.

Lemma smooth_raise (k : cv_kalman) (t : trajectory) (first : row4)
      (rest : list row4) (e : exn) :
  rows_of t = first :: rest ->
  run_rounds first k (rows_of t) = Raise e ->
  snd (smooth cv_kalman cv_predict cv_correct k t) = Raise e.
Proof.
  intros Hrows Hrej.
  pose proof (smooth_loop_raise first (rows_of t) k e Hrej) as H.
  unfold smooth. rewrite Hrows. rewrite Hrows in H.
  destruct (smooth_loop first k (first :: rest)) as [k' r].
  cbn [snd] in *. rewrite H. reflexivity.
Qed.

Lemma rows_of_with_rows (t : trajectory) (rows : list row4) :
  rows_of (with_rows t rows) = rows.
Proof. destruct t; reflexivity. Qed.

Lemma with_rows_twice (t : trajectory) (r1 r2 : list row4) :
  with_rows (with_rows t r1) r2 = with_rows t r2.
Proof. destruct t; reflexivity. Qed.

(** C8.  On a non-empty trajectory on whose rows every [correct] of the
    filter returns, [smooth] returns a trajectory of the same kind and
    length; its row [i] is [predict()[:4]] of the filter that has gone
    through the predict-then-correct rounds on the rows before [i] only,
    each measurement taken minus the first row, plus the first row: the
    prediction made before measurement [i] is used, and row 0 that of the
    filter as it was passed in.  The filter is left after the rounds on all
    rows.  When a [correct] raises, [smooth] raises the same exception and
    returns no trajectory. *)
Theorem C8_smooth_returns_prior_predictions
        (k : cv_kalman) (t : trajectory) (first : row4) (rest : list row4)
        (Hrows : rows_of t = first :: rest) :
  (forall kf,
      run_rounds first k (rows_of t) = Ok kf ->
      exists out,
        smooth cv_kalman cv_predict cv_correct k t = (kf, Ok out) /\
        len out = len t /\
        out = with_rows t (rows_of out) /\
        (forall d, nth 0 (rows_of out) d
                   = mk4 (c0 (fst (snd (cv_predict k))) + c0 first)
                         (c1 (fst (snd (cv_predict k))) + c1 first)
                         (c2 (fst (snd (cv_predict k))) + c2 first)
                         (c3 (fst (snd (cv_predict k))) + c3 first)) /\
        forall i, (i < len t)%nat ->
          exists ki,
            run_rounds first k (firstn i (rows_of t)) = Ok ki /\
            forall d,
              nth i (rows_of out) d
              = mk4 (c0 (fst (snd (cv_predict ki))) + c0 first)
                    (c1 (fst (snd (cv_predict ki))) + c1 first)
                    (c2 (fst (snd (cv_predict ki))) + c2 first)
                    (c3 (fst (snd (cv_predict ki))) + c3 first)) /\
  (forall e,
      run_rounds first k (rows_of t) = Raise e ->
      snd (smooth cv_kalman cv_predict cv_correct k t) = Raise e).
Proof.
  split.
  - intros kf Hacc.
    destruct (smooth_ok k kf t first rest Hrows Hacc)
      as (sm & _ & E & Hlen & Hnth).
    exists (with_rows t sm). unfold len. rewrite !rows_of_with_rows.
    refine (conj E (conj Hlen (conj _ (conj _ Hnth)))).
    + reflexivity.
    + intros d.
      destruct (Hnth 0%nat) as (k0 & Hk0 & Hd).
      { rewrite Hrows. simpl. lia. }
      cbn in Hk0. injection Hk0 as <-. apply Hd.
  - intros e Hrej. exact (smooth_raise k t first rest e Hrows Hrej).
Qed.

End Smoothing.

Section SmoothingExamples.

Import Kalman KalmanSpec.
Local Open Scope R_scope.

Lemma C8_smooth_witness :
  rows_of (NpArray sample_trajectory) = [mk4 0 0 1 1; mk4 10 10 1 1] /\
  exists out,
    snd (smooth row4 hold_predict hold_correct (mk4 0 0 0 0)
                (NpArray sample_trajectory)) = Ok out /\
    len out = len (NpArray sample_trajectory).
Proof.
  split; [reflexivity|].
  destruct (C8_smooth_returns_prior_predictions
              row4 hold_predict hold_correct (mk4 0 0 0 0)
              (NpArray sample_trajectory) (mk4 0 0 1 1) [mk4 10 10 1 1]
              eq_refl) as [Hok _].
  destruct (Hok _ eq_refl) as (out & E & Hlen & _).
  exists out. rewrite E. split; [reflexivity | exact Hlen].
Defined.

(** C8, as stated for every non-empty trajectory: with a filter whose
    [correct] raises, as the OpenCV filter does on the rows of a float64
    array, smoothing a trajectory of two rows raises after the first
    prediction and returns no trajectory of any length. *)
Lemma C8_smooth_raises_when_correct_raises :
  rows_of (NpArray sample_trajectory) <> [] /\
  smooth row4 hold_predict reject_correct (mk4 0 0 0 0)
         (NpArray sample_trajectory)
  = (mk4 0 0 0 0, Raise CvError) /\
  ~ exists out,
      snd (smooth row4 hold_predict reject_correct (mk4 0 0 0 0)
                  (NpArray sample_trajectory)) = Ok out /\
      len out = len (NpArray sample_trajectory).
Proof.
  split; [discriminate|]. split; [reflexivity|].
  intros (out & H & _). discriminate H.
Qed.

(** With the filter that holds its last measurement, smoothing returns the
    trajectory delayed by one frame: row [i] is what the filter knew before
    measurement [i], not measurement [i] itself. *)
Example smooth_hold_filter_lags :
  snd (smooth row4 hold_predict hold_correct (mk4 0 0 0 0)
              (NpArray [mk4 1 1 1 1; mk4 2 2 1 1; mk4 3 3 1 1]))
  = Ok (NpArray [mk4 (0 + 1) (0 + 1) (0 + 1) (0 + 1);
                 mk4 (1 - 1 + 1) (1 - 1 + 1) (1 - 1 + 1) (1 - 1 + 1);
                 mk4 (2 - 1 + 1) (2 - 1 + 1) (1 - 1 + 1) (1 - 1 + 1)]).
Proof. reflexivity. Qed.

End SmoothingExamples.

(** ** More on the matcher *)

Section MatcherMore.

Import Detect DetectSpec.
Local Open Scope Q_scope.

Lemma count_ones_le_length (l : list Q) : (count_ones l <= length l)%nat.
Proof. unfold count_ones. apply filter_length_le. Qed.

Lemma count_ones_pos (l : list Q) (j : nat) :
  nth j l 0 = 1 -> (1 <= count_ones l)%nat.
Proof.
  unfold count_ones.
  revert j; induction l as [|x t IH]; intros [|j] H; simpl in H;
    try discriminate.
  - subst x. simpl. lia.
  - simpl. destruct (Qeq_bool x 1); simpl; specialize (IH j H); lia.
Qed.

(** Two arrays of flags that are set at complementary positions. *)
Lemma count_ones_complement (a : list Q) :
  forall b,
    length a = length b ->
    (forall i, (i < length a)%nat ->
       (nth i a 0 = 1 /\ nth i b 0 = 0) \/
       (nth i a 0 = 0 /\ nth i b 0 = 1)) ->
    (count_ones a + count_ones b = length a)%nat.
Proof.
  unfold count_ones.
  induction a as [|x a IH]; intros [|y b] Hlen H; simpl in Hlen;
    try discriminate; [reflexivity|].
  assert (IH' := IH b ltac:(lia)
                    (fun i Hi => H (S i) ltac:(simpl; lia))).
  destruct (H 0%nat ltac:(simpl; lia)) as [[Hx Hy] | [Hx Hy]];
    simpl in Hx, Hy; subst x y; simpl; lia.
Qed.

(** The claimed ground-truth boxes are the best matches of the detections
    over the threshold. *)
Lemma found_characterised im_gt im_det ovthresh r :
  matcher_inv im_gt ovthresh (length im_det) im_det r ->
  forall j, (j < length im_gt)%nat ->
    (nth j (found r) 0 = 0 \/ nth j (found r) 0 = 1) /\
    (nth j (found r) 0 = 1 <->
     exists d, In d im_det /\ hit im_gt ovthresh d = true /\
               target im_gt d = Some j).
Proof.
  intros [Lf Lt Lp _ Hdone Hfound _] j Hj.
  destruct (Hfound j Hj) as [[F1 Hc] | [F0 Hnc]].
  - split; [auto|]. split; [|auto]. intros _.
    destruct Hc as (m & dm & _ & Hm & Tm & Htgt).
    exists dm. split; [eapply nth_error_In; eauto|]. split; [|exact Htgt].
    destruct (Hdone m dm Hm) as [(_ & _ & Hh & _) | (T0 & _)]; [exact Hh|].
    rewrite T0 in Tm. discriminate.
  - split; [auto|]. split.
    + intros H. rewrite F0 in H. discriminate.
    + intros (d & Hin & Hh & Htgt). exfalso.
      destruct (In_nth_error _ _ Hin) as (i & Hi).
      assert (Hlt : (i < length im_det)%nat).
      { apply nth_error_Some. congruence. }
      destruct (Hdone i d Hi) as [(T1 & _) | (_ & _ & [Hf | Hc])].
      * apply Hnc. exists i, d. auto.
      * congruence.
      * rewrite Htgt in Hc.
        destruct Hc as (m & dm & Hmi & Hm & Tm & Hmt).
        apply Hnc. exists m, dm. repeat split; auto. lia.
Qed.

(** X2.  Reordering the detections of a frame changes neither the claimed
    ground-truth boxes nor the number of true positives. *)
Theorem matcher_count_order_independent
        (im_gt im_det im_det' : list box) (ovthresh : Q)
        (Hperm : Permutation im_det im_det') :
  exists r r',
    tp_and_fp_of_detection im_gt im_det ovthresh = Ok r /\
    tp_and_fp_of_detection im_gt im_det' ovthresh = Ok r' /\
    found r = found r' /\
    count_ones (im_tp r) = count_ones (im_tp r').
Proof.
  destruct (tp_and_fp_of_detection_inv im_gt im_det ovthresh)
    as (r & E & Hinv).
  destruct (tp_and_fp_of_detection_inv im_gt im_det' ovthresh)
    as (r' & E' & Hinv').
  exists r, r'. refine (conj E (conj E' _)).
  assert (Hf : found r = found r').
  { apply (nth_ext _ _ 0 0).
    - rewrite (inv_len_found _ _ _ _ _ Hinv).
      rewrite (inv_len_found _ _ _ _ _ Hinv'). reflexivity.
    - intros j Hj. rewrite (inv_len_found _ _ _ _ _ Hinv) in Hj.
      destruct (found_characterised _ _ _ _ Hinv j Hj) as [Hb Hiff].
      destruct (found_characterised _ _ _ _ Hinv' j Hj) as [Hb' Hiff'].
      assert (Hsame : nth j (found r) 0 = 1 <-> nth j (found r') 0 = 1).
      { rewrite Hiff, Hiff'. split; intros (d & Hin & H); exists d;
          (split; [|exact H]).
        - eapply Permutation_in; eauto.
        - eapply Permutation_in; [apply Permutation_sym|]; eauto. }
      destruct Hb as [H0 | H1], Hb' as [H0' | H1']; try congruence.
      + apply Hsame in H1'. congruence.
      + apply Hsame in H1. congruence. }
  split; [exact Hf|].
  rewrite <- (inv_count _ _ _ _ _ Hinv), <- (inv_count _ _ _ _ _ Hinv').
  rewrite Hf. reflexivity.
Qed.

Lemma matcher_count_order_independent_witness :
  exists r r',
    tp_and_fp_of_detection [mkBox 0 0 10 10]
      [mkBox 0 0 10 10; mkBox 50 50 60 60] 0.5 = Ok r /\
    tp_and_fp_of_detection [mkBox 0 0 10 10]
      [mkBox 50 50 60 60; mkBox 0 0 10 10] 0.5 = Ok r' /\
    found r = found r' /\
    count_ones (im_tp r) = count_ones (im_tp r').
Proof.
  apply (matcher_count_order_independent
           [mkBox 0 0 10 10]
           [mkBox 0 0 10 10; mkBox 50 50 60 60]
           [mkBox 50 50 60 60; mkBox 0 0 10 10] 0.5).
  apply perm_swap.
Defined.

(** X3.  The true positives of a frame are at most as many as its
    ground-truth boxes and as its detections, and true and false positives
    together are exactly the detections. *)
Theorem true_positives_bounded
        (im_gt im_det : list box) (ovthresh : Q) :
  exists r,
    tp_and_fp_of_detection im_gt im_det ovthresh = Ok r /\
    (count_ones (im_tp r) <= length im_gt)%nat /\
    (count_ones (im_tp r) <= length im_det)%nat /\
    (count_ones (im_tp r) + count_ones (im_fp r) = length im_det)%nat.
Proof.
  destruct (tp_and_fp_of_detection_inv im_gt im_det ovthresh)
    as (r & E & [Lf Lt Lp _ Hdone _ Hcount]).
  exists r. split; [exact E|].
  refine (conj _ (conj _ _)).
  - rewrite <- Hcount, <- Lf. apply count_ones_le_length.
  - rewrite <- Lt. apply count_ones_le_length.
  - rewrite <- Lt. apply count_ones_complement; [congruence|].
    intros i Hi. rewrite Lt in Hi.
    destruct (nth_error im_det i) as [d|] eqn:Hd.
    + destruct (Hdone i d Hd) as [(T & F & _) | (T & F & _)]; auto.
    + apply nth_error_None in Hd. lia.
Qed.

End MatcherMore.

(** ** The range of the IoU *)

Section Overlap.

Import Detect DetectSpec.
Local Open Scope Q_scope.

Lemma fdiv_finite (a b : Q) : 0 < b -> fdiv a b = Fin (a / b).
Proof.
  intros Hb. unfold fdiv.
  destruct (Qeq_bool b 0) eqn:E; [|reflexivity].
  apply Qeq_bool_iff in E. rewrite E in Hb.
  exfalso. exact (Qlt_irrefl 0 Hb).
Qed.

(** The intersection extent along one axis lies between zero and each of
    the two box extents. *)
Lemma extent_bounds (a1 a2 b1 b2 : Q) :
  a1 <= a2 -> b1 <= b2 ->
  let i := Qmax (Qmin a2 b2 - Qmax a1 b1 + 1) 0 in
  0 <= i /\ i <= a2 - a1 + 1 /\ i <= b2 - b1 + 1.
Proof.
  intros Ha Hb i. unfold i.
  pose proof (Q.le_min_l a2 b2). pose proof (Q.le_min_r a2 b2).
  pose proof (Q.le_max_l a1 b1). pose proof (Q.le_max_r a1 b1).
  refine (conj (Q.le_max_r _ _) (conj _ _));
    apply Q.max_lub; Lqa.lra.
Qed.

Lemma extent_of_itself (a1 a2 : Q) :
  a2 - a1 + 1 <= Qmax (Qmin a2 a2 - Qmax a1 a1 + 1) 0.
Proof.
  assert (a2 <= Qmin a2 a2) by (apply Q.min_glb; apply Qle_refl).
  assert (Qmax a1 a1 <= a1) by (apply Q.max_lub; apply Qle_refl).
  pose proof (Q.le_max_l (Qmin a2 a2 - Qmax a1 a1 + 1) 0).
  Lqa.lra.
Qed.

Lemma overlap_range (d g : box) :
  box_ok d -> box_ok g ->
  exists q, overlap d g = Fin q /\ 0 <= q /\ q <= 1.
Proof.
  intros Hd Hg.
  destruct Hd as [Hdx Hdy], Hg as [Hgx Hgy].
  unfold overlap.
  destruct (extent_bounds (bx1 g) (bx2 g) (bx1 d) (bx2 d) Hgx Hdx)
    as (Hw0 & Hwg & Hwd).
  destruct (extent_bounds (by1 g) (by2 g) (by1 d) (by2 d) Hgy Hdy)
    as (Hh0 & Hhg & Hhd).
  cbv zeta in Hw0, Hwg, Hwd, Hh0, Hhg, Hhd |- *.
  set (iw := Qmax (Qmin (bx2 g) (bx2 d) - Qmax (bx1 g) (bx1 d) + 1) 0) in *.
  set (ih := Qmax (Qmin (by2 g) (by2 d) - Qmax (by1 g) (by1 d) + 1) 0) in *.
  assert (Hid : iw * ih <= (bx2 d - bx1 d + 1) * (by2 d - by1 d + 1))
    by Lqa.nra.
  assert (Hig : iw * ih <= (bx2 g - bx1 g + 1) * (by2 g - by1 g + 1))
    by Lqa.nra.
  assert (Hag : 1 <= (bx2 g - bx1 g + 1) * (by2 g - by1 g + 1))
    by Lqa.nra.
  assert (Hi0 : 0 <= iw * ih) by Lqa.nra.
  set (uni := (bx2 d - bx1 d + 1) * (by2 d - by1 d + 1)
              + (bx2 g - bx1 g + 1) * (by2 g - by1 g + 1) - iw * ih).
  assert (Hu : 0 < uni) by (unfold uni; Lqa.lra).
  rewrite (fdiv_finite _ _ Hu).
  eexists. split; [reflexivity|]. split.
  - apply Qle_shift_div_l; [exact Hu | Lqa.lra].
  - apply Qle_shift_div_r; [exact Hu | unfold uni; Lqa.lra].
Qed.

(** X4.  For two boxes with ordered corners the pixel-inclusive IoU is a
    finite number between 0 and 1: the division never produces [inf] or
    [nan]. *)
Theorem overlap_between_zero_and_one (d g : box)
        (Hd : box_ok d) (Hg : box_ok g) :
  exists q, overlap d g = Fin q /\ 0 <= q /\ q <= 1.
Proof. exact (overlap_range d g Hd Hg). Qed.

Lemma overlap_between_zero_and_one_witness :
  exists q, overlap (mkBox 0 0 10 10) (mkBox 5 5 20 20) = Fin q /\
            0 <= q /\ q <= 1.
Proof.
  apply (overlap_between_zero_and_one (mkBox 0 0 10 10) (mkBox 5 5 20 20));
    split; simpl; Lqa.lra.
Defined.

(** A box overlaps itself with IoU 1. *)
Lemma overlap_with_itself (b : box) :
  box_ok b -> exists q, overlap b b = Fin q /\ 1 <= q.
Proof.
  intros [Hx Hy]. unfold overlap.
  destruct (extent_bounds (bx1 b) (bx2 b) (bx1 b) (bx2 b) Hx Hx)
    as (Hw0 & Hw & _).
  destruct (extent_bounds (by1 b) (by2 b) (by1 b) (by2 b) Hy Hy)
    as (Hh0 & Hh & _).
  pose proof (extent_of_itself (bx1 b) (bx2 b)) as Hw'.
  pose proof (extent_of_itself (by1 b) (by2 b)) as Hh'.
  cbv zeta in Hw0, Hw, Hh0, Hh |- *.
  set (iw := Qmax (Qmin (bx2 b) (bx2 b) - Qmax (bx1 b) (bx1 b) + 1) 0) in *.
  set (ih := Qmax (Qmin (by2 b) (by2 b) - Qmax (by1 b) (by1 b) + 1) 0) in *.
  assert (Hlow : (bx2 b - bx1 b + 1) * (by2 b - by1 b + 1) <= iw * ih)
    by Lqa.nra.
  assert (Hup : iw * ih <= (bx2 b - bx1 b + 1) * (by2 b - by1 b + 1))
    by Lqa.nra.
  assert (Ha : 1 <= (bx2 b - bx1 b + 1) * (by2 b - by1 b + 1)) by Lqa.nra.
  set (uni := (bx2 b - bx1 b + 1) * (by2 b - by1 b + 1)
              + (bx2 b - bx1 b + 1) * (by2 b - by1 b + 1) - iw * ih).
  assert (Hu : 0 < uni) by (unfold uni; Lqa.lra).
  rewrite (fdiv_finite _ _ Hu).
  eexists. split; [reflexivity|].
  apply Qle_shift_div_l; [exact Hu | unfold uni; Lqa.lra].
Qed.

(** The maximum of finite values is one of them and bounds them all. *)
Lemma fold_xmaximum_finite (t : list xfloat) :
  forall q0,
    Forall (fun y => exists q, y = Fin q) t ->
    exists m,
      fold_left xmaximum t (Fin q0) = Fin m /\
      q0 <= m /\
      (forall q, In (Fin q) t -> q <= m) /\
      In (Fin m) (Fin q0 :: t).
Proof.
  induction t as [|y t IH]; intros q0 Hall.
  - exists q0. repeat split; [apply Qle_refl | intros q [] | left; reflexivity].
  - inversion Hall as [|? ? [q Hq] Hall']; subst.
    cbn [fold_left xmaximum xgtb]. unfold Qlt_bool.
    destruct (Qle_bool q q0) eqn:E; cbn [negb].
    + apply Qle_bool_iff in E.
      destruct (IH q0 Hall') as (m & Hm & H0 & Hle & Hin).
      exists m. repeat split; auto.
      * intros q' [Heq | Hin']; [|auto].
        injection Heq as <-. Lqa.lra.
      * destruct Hin as [Hhd | Htl]; [left; exact Hhd | right; right; exact Htl].
    + assert (Hlt : q0 < q).
      { apply Qnot_le_lt. intros H. apply Qle_bool_iff in H. congruence. }
      destruct (IH q Hall') as (m & Hm & H0 & Hle & Hin).
      exists m. repeat split; auto.
      * Lqa.lra.
      * intros q' [Heq | Hin']; [|auto].
        injection Heq as <-. exact H0.
      * right. exact Hin.
Qed.

(** On boxes with ordered corners the best IoU is a finite number in
    [0, 1] that bounds the IoU with every ground-truth box. *)
Lemma best_match_finite (im_gt : list box) (d : box) :
  im_gt <> [] -> Forall box_ok im_gt -> box_ok d ->
  exists m jmax,
    best_match im_gt d = Ok (Fin m, jmax) /\ 0 <= m /\ m <= 1 /\
    forall g q, In g im_gt -> overlap d g = Fin q -> q <= m.
Proof.
  intros Hne Hgt Hd.
  destruct im_gt as [|g gt]; [congruence|].
  inversion Hgt as [|? ? Hg Hgt']; subst.
  destruct (overlap_range d g Hd Hg) as (q0 & E0 & H00 & H01).
  assert (Hall : Forall (fun y => exists q, y = Fin q) (map (overlap d) gt)).
  { apply Forall_forall. intros y Hy. apply in_map_iff in Hy.
    destruct Hy as (g' & <- & Hin).
    rewrite Forall_forall in Hgt'.
    destruct (overlap_range d g' Hd (Hgt' g' Hin))
      as (q & E & _).
    exists q. exact E. }
  destruct (fold_xmaximum_finite (map (overlap d) gt) q0 Hall)
    as (m & Hm & Hq0 & Hle & Hin).
  cbn [best_match map np_max np_argmax bind]. rewrite E0, Hm.
  eexists m, _. split; [reflexivity|].
  assert (Hm1 : m <= 1).
  { destruct Hin as [Hhd | Htl].
    - injection Hhd as <-. exact H01.
    - apply in_map_iff in Htl. destruct Htl as (g' & Eg & Hin').
      rewrite Forall_forall in Hgt'.
      destruct (overlap_range d g' Hd (Hgt' g' Hin'))
        as (q & E & _ & Hq1).
      rewrite E in Eg. injection Eg as <-. exact Hq1. }
  refine (conj _ (conj Hm1 _)); [Lqa.lra|].
  intros g' q [<- | Hg'] Eq.
  - rewrite E0 in Eq. injection Eq as <-. exact Hq0.
  - apply Hle. rewrite <- Eq. apply in_map. exact Hg'.
Qed.

(** When no detection exceeds the threshold everything is a false
    positive and nothing is claimed. *)
Lemma matcher_no_hit (im_gt im_det : list box) (ovthresh : Q) :
  (forall d, In d im_det -> hit im_gt ovthresh d = false) ->
  tp_and_fp_of_detection im_gt im_det ovthresh
  = Ok (mkFlags (zeros (length im_gt)) (zeros (length im_det))
                (repeat 1 (length im_det))).
Proof.
  intros Hno.
  destruct (tp_and_fp_of_detection_inv im_gt im_det ovthresh)
    as (r & E & Hinv).
  rewrite E. f_equal.
  pose proof (found_characterised _ _ _ _ Hinv) as Hfound.
  destruct Hinv as [Lf Lt Lp _ Hdone _ _].
  destruct r as [f tp fp]. cbn [found im_tp im_fp] in *.
  assert (Hk : forall k, (k < length im_det)%nat ->
                 nth k tp 0 = 0 /\ nth k fp 0 = 1).
  { intros k Hk.
    destruct (nth_error im_det k) as [d|] eqn:Hd.
    - destruct (Hdone k d Hd) as [(_ & _ & Hh & _) | (T0 & F1 & _)]; auto.
      rewrite (Hno d (nth_error_In _ _ Hd)) in Hh. discriminate.
    - apply nth_error_None in Hd. lia. }
  f_equal.
  - apply (nth_ext _ _ 0 0).
    + unfold zeros. rewrite repeat_length. exact Lf.
    + intros j Hj. rewrite nth_zeros. rewrite Lf in Hj.
      destruct (Hfound j Hj) as [[H0 | H1] Hiff]; [exact H0|].
      apply Hiff in H1. destruct H1 as (d & Hin & Hh & _).
      rewrite (Hno d Hin) in Hh. discriminate.
  - apply (nth_ext _ _ 0 0).
    + unfold zeros. rewrite repeat_length. exact Lt.
    + intros k Hlt. rewrite nth_zeros. apply Hk. lia.
  - apply (nth_ext _ _ 0 0).
    + rewrite repeat_length. exact Lp.
    + intros k Hlt. rewrite nth_repeat_lt by lia. apply Hk. lia.
Qed.

(** X5.  With a threshold of 1 or more no detection can be a true
    positive on boxes with ordered corners: the IoU never exceeds 1, so
    every detection is a false positive and no ground truth is claimed. *)
Theorem threshold_one_rejects_everything
        (im_gt im_det : list box) (ovthresh : Q)
        (Hgt : Forall box_ok im_gt) (Hdet : Forall box_ok im_det)
        (Hth : 1 <= ovthresh) :
  tp_and_fp_of_detection im_gt im_det ovthresh
  = Ok (mkFlags (zeros (length im_gt)) (zeros (length im_det))
                (repeat 1 (length im_det))).
Proof.
  apply matcher_no_hit. intros d Hin.
  rewrite Forall_forall in Hdet. specialize (Hdet d Hin).
  unfold hit.
  destruct im_gt as [|g gt]; [reflexivity|].
  destruct (best_match_finite (g :: gt) d ltac:(discriminate) Hgt Hdet)
    as (m & jmax & E & _ & Hm1 & _).
  rewrite E. cbn [xgtb]. unfold Qlt_bool.
  assert (H : Qle_bool m ovthresh = true) by (apply Qle_bool_iff; Lqa.lra).
  rewrite H. reflexivity.
Qed.

Lemma threshold_one_rejects_everything_witness :
  tp_and_fp_of_detection [mkBox 0 0 10 10] [mkBox 0 0 10 10] 1
  = Ok (mkFlags (zeros 1) (zeros 1) (repeat 1 1)).
Proof.
  apply (threshold_one_rejects_everything
           [mkBox 0 0 10 10] [mkBox 0 0 10 10] 1).
  - repeat constructor; simpl; Lqa.lra.
  - repeat constructor; simpl; Lqa.lra.
  - Lqa.lra.
Defined.

End Overlap.

(** ** The image index of the dataset *)

Section ImageIndex.

Import Detect DetectSpec.
Local Open Scope nat_scope.

Variable sparse_version : bool.

Lemma table_set_same table seq f v :
  table_set table seq f v seq f = Some v.
Proof.
  unfold table_set. rewrite String.eqb_refl, Nat.eqb_refl. reflexivity.
Qed.

Lemma table_set_other table seq f v s' f' :
  s' <> seq \/ f' <> f ->
  table_set table seq f v s' f' = table s' f'.
Proof.
  intros H. unfold table_set.
  destruct (String.eqb_spec s' seq) as [->|Hs]; [|reflexivity].
  destruct (Nat.eqb_spec f' f) as [->|Hf]; [|reflexivity].
  destruct H; congruence.
Qed.

(** What one pass over the listing of a sequence does to the index. *)
Lemma index_images_spec (seq dir : string) (files : list string) :
  forall frame_id ix,
    img_index ix = length (img_paths ix) ->
    let ix' := index_images sparse_version seq dir frame_id files ix in
    img_index ix' = length (img_paths ix') /\
    (exists extra, img_paths ix' = img_paths ix ++ extra) /\
    (forall s f, s <> seq \/ f < frame_id \/ frame_id + length files <= f ->
                 frame_table ix' s f = frame_table ix s f) /\
    (forall f, frame_id <= f < frame_id + length files ->
       if keep_frame sparse_version f then
         exists v file,
           frame_table ix' seq f = Some v /\
           nth_error files (f - frame_id) = Some file /\
           nth_error (img_paths ix') v = Some (path_join dir file)
       else frame_table ix' seq f = frame_table ix seq f).
Proof.
  induction files as [|file rest IH]; intros frame_id ix Hix; cbn zeta.
  - cbn [index_images length]. repeat split; auto.
    + exists []. rewrite app_nil_r. reflexivity.
    + intros f Hf. lia.
  - cbn [index_images length].
    set (ix1 := if keep_frame sparse_version frame_id
                then mkIndex (img_paths ix ++ [path_join dir file])
                       (table_set (frame_table ix) seq frame_id (img_index ix))
                       (S (img_index ix))
                else ix).
    assert (Hix1 : img_index ix1 = length (img_paths ix1)).
    { unfold ix1. destruct (keep_frame sparse_version frame_id);
        cbn [img_index img_paths]; [|exact Hix].
      rewrite length_app. simpl. lia. }
    assert (Hext1 : exists e1, img_paths ix1 = img_paths ix ++ e1).
    { unfold ix1. destruct (keep_frame sparse_version frame_id).
      - eexists. reflexivity.
      - exists []. rewrite app_nil_r. reflexivity. }
    assert (Htab1 : forall s f, s <> seq \/ f <> frame_id ->
                      frame_table ix1 s f = frame_table ix s f).
    { intros s f H. unfold ix1.
      destruct (keep_frame sparse_version frame_id); [|reflexivity].
      cbn [frame_table]. apply table_set_other. exact H. }
    destruct (IH (S frame_id) ix1 Hix1) as (H1 & (e2 & H2) & H3 & H4).
    destruct Hext1 as (e1 & He1).
    refine (conj H1 (conj _ (conj _ _))).
    + exists (e1 ++ e2). rewrite H2, He1, app_assoc. reflexivity.
    + intros s f H.
      rewrite H3 by (destruct H as [H|H]; [left; exact H | right; lia]).
      apply Htab1. destruct H as [H|H]; [left; exact H | right; lia].
    + intros f Hf.
      destruct (Nat.eq_dec f frame_id) as [->|Hne].
      * rewrite H3 by lia. rewrite Nat.sub_diag. cbn [nth_error].
        unfold ix1 in *.
        destruct (keep_frame sparse_version frame_id); [|reflexivity].
        cbn [frame_table img_paths img_index] in *.
        rewrite table_set_same.
        exists (img_index ix), file. repeat split.
        rewrite H2, Hix.
        rewrite nth_error_app1 by (rewrite length_app; simpl; lia).
        rewrite nth_error_app2, Nat.sub_diag by lia. reflexivity.
      * specialize (H4 f ltac:(lia)).
        replace (f - frame_id) with (S (f - S frame_id)) by lia.
        cbn [nth_error].
        destruct (keep_frame sparse_version f); [exact H4|].
        rewrite H4. apply Htab1. right. exact Hne.
Qed.

Lemma nth_error_prefix {A : Type} (l extra : list A) (v : nat) (x : A) :
  nth_error l v = Some x -> nth_error (l ++ extra) v = Some x.
Proof.
  intros H. rewrite nth_error_app1; [exact H|].
  apply nth_error_Some. congruence.
Qed.

(** What the loop over the sequences does to the index, for sequences with
    distinct names. *)
Lemma index_sequences_spec (seqs : list seq_listing) :
  forall ix,
    img_index ix = length (img_paths ix) ->
    NoDup (map seq_name seqs) ->
    let ix' := index_sequences sparse_version seqs ix in
    img_index ix' = length (img_paths ix') /\
    (exists extra, img_paths ix' = img_paths ix ++ extra) /\
    (forall s f, ~ In s (map seq_name seqs) ->
                 frame_table ix' s f = frame_table ix s f) /\
    (forall sq f, In sq seqs -> 1 <= f <= length (img_files sq) ->
       keep_frame sparse_version f = true ->
       exists v file,
         frame_table ix' (seq_name sq) f = Some v /\
         nth_error (img_files sq) (f - 1) = Some file /\
         nth_error (img_paths ix') v = Some (path_join (im_dir sq) file)).
Proof.
  induction seqs as [|sq0 rest IH]; intros ix Hix Hnd; cbn zeta.
  - cbn [index_sequences]. repeat split; auto.
    + exists []. rewrite app_nil_r. reflexivity.
    + intros sq f [].
  - cbn [index_sequences map] in *.
    inversion Hnd as [|? ? Hnotin Hnd']; subst.
    destruct (index_images_spec (seq_name sq0) (im_dir sq0) (img_files sq0)
                1 ix Hix) as (G1 & (e1 & G2) & G3 & G4).
    cbn zeta in G1, G2, G3, G4.
    set (ix1 := index_images sparse_version (seq_name sq0) (im_dir sq0) 1
                             (img_files sq0) ix) in *.
    destruct (IH ix1 G1 Hnd') as (H1 & (e2 & H2) & H3 & H4).
    cbn zeta in H1, H2, H3, H4.
    refine (conj H1 (conj _ (conj _ _))).
    + exists (e1 ++ e2). rewrite H2, G2, app_assoc. reflexivity.
    + intros s f Hs. rewrite H3 by (intros H; apply Hs; right; exact H).
      apply G3. left. intros ->. apply Hs. left. reflexivity.
    + intros sq f [<- | Hin] Hf Hkeep.
      * specialize (G4 f ltac:(lia)). rewrite Hkeep in G4.
        destruct G4 as (v & file & Ht & Hfile & Hpath).
        exists v, file. rewrite H3 by exact Hnotin.
        refine (conj Ht (conj Hfile _)).
        rewrite H2. apply nth_error_prefix. exact Hpath.
      * apply (H4 sq f Hin Hf Hkeep).
Qed.

(** The entries of the table stay in range and sit at kept frames. *)
Lemma index_images_entries (seq dir : string) (files : list string) :
  forall frame_id ix,
    1 <= frame_id ->
    img_index ix = length (img_paths ix) ->
    (forall s f v, frame_table ix s f = Some v ->
       v < length (img_paths ix) /\
       keep_frame sparse_version f = true /\ 1 <= f) ->
    let ix' := index_images sparse_version seq dir frame_id files ix in
    forall s f v, frame_table ix' s f = Some v ->
      v < length (img_paths ix') /\
      keep_frame sparse_version f = true /\ 1 <= f.
Proof.
  intros frame_id ix Hfid Hix Hold ix' s f v Hv.
  destruct (index_images_spec seq dir files frame_id ix Hix)
    as (_ & (extra & Hext) & Hother & Hnew).
  fold ix' in Hext, Hother, Hnew.
  assert (Hfrom_old : frame_table ix s f = Some v ->
            v < length (img_paths ix') /\
            keep_frame sparse_version f = true /\ 1 <= f).
  { intros H. destruct (Hold s f v H) as (Hlt & Hk & H1).
    rewrite Hext, length_app. repeat split; auto. lia. }
  destruct (String.eqb_spec s seq) as [->|Hs].
  - destruct (Nat.lt_ge_cases f frame_id) as [Hlow|Hge].
    + apply Hfrom_old. rewrite <- Hother; [exact Hv | right; left; exact Hlow].
    + destruct (Nat.lt_ge_cases f (frame_id + length files)) as [Hin|Hhigh].
      * specialize (Hnew f (conj Hge Hin)).
        destruct (keep_frame sparse_version f) eqn:Hk.
        -- destruct Hnew as (v' & file & Ht & _ & Hpath).
           rewrite Ht in Hv. injection Hv as <-.
           repeat split; [|lia].
           apply nth_error_Some. congruence.
        -- apply Hfrom_old. rewrite <- Hnew. exact Hv.
      * apply Hfrom_old.
        rewrite <- Hother; [exact Hv | right; right; exact Hhigh].
  - apply Hfrom_old. rewrite <- Hother; [exact Hv | left; exact Hs].
Qed.

Lemma index_sequences_entries (seqs : list seq_listing) :
  forall ix,
    img_index ix = length (img_paths ix) ->
    (forall s f v, frame_table ix s f = Some v ->
       v < length (img_paths ix) /\
       keep_frame sparse_version f = true /\ 1 <= f) ->
    forall s f v,
      frame_table (index_sequences sparse_version seqs ix) s f = Some v ->
      v < length (img_paths (index_sequences sparse_version seqs ix)) /\
      keep_frame sparse_version f = true /\ 1 <= f.
Proof.
  induction seqs as [|sq rest IH]; intros ix Hix Hold; [exact Hold|].
  cbn [index_sequences]. apply IH.
  - apply (index_images_spec (seq_name sq) (im_dir sq) (img_files sq) 1 ix Hix).
  - apply index_images_entries; auto.
Qed.

Lemma build_index_entries (seqs : list seq_listing) :
  forall s f v,
    frame_table (build_index sparse_version seqs) s f = Some v ->
    v < length (img_paths (build_index sparse_version seqs)) /\
    keep_frame sparse_version f = true /\ 1 <= f.
Proof.
  unfold build_index. apply index_sequences_entries; [reflexivity|].
  intros s f v H. discriminate.
Qed.

End ImageIndex.

Section ImageIndexMore.

Import Detect DetectSpec.
Local Open Scope nat_scope.

Lemma index_sequences_counter (sparse_version : bool)
      (seqs : list seq_listing) :
  forall ix,
    img_index ix = length (img_paths ix) ->
    img_index (index_sequences sparse_version seqs ix)
    = length (img_paths (index_sequences sparse_version seqs ix)).
Proof.
  induction seqs as [|sq rest IH]; intros ix Hix; [exact Hix|].
  cbn [index_sequences]. apply IH.
  apply (index_images_spec sparse_version
           (seq_name sq) (im_dir sq) (img_files sq) 1 ix Hix).
Qed.

(** Without the sparse filter every listed file becomes an image path. *)
Lemma index_images_full_length (seq dir : string) (files : list string) :
  forall frame_id ix,
    length (img_paths (index_images false seq dir frame_id files ix))
    = length (img_paths ix) + length files.
Proof.
  induction files as [|file rest IH]; intros frame_id ix.
  - simpl. lia.
  - cbn [index_images keep_frame negb orb]. rewrite IH.
    cbn [img_paths]. rewrite length_app. simpl. lia.
Qed.

Lemma index_sequences_full_length (seqs : list seq_listing) :
  forall ix,
    length (img_paths (index_sequences false seqs ix))
    = length (img_paths ix)
      + list_sum (map (fun sq => length (img_files sq)) seqs).
Proof.
  induction seqs as [|sq rest IH]; intros ix.
  - simpl. lia.
  - cbn [index_sequences map list_sum fold_right]. rewrite IH.
    rewrite index_images_full_length.
    change (fold_right Nat.add 0
              (map (fun sq0 => length (img_files sq0)) rest))
      with (list_sum (map (fun sq0 => length (img_files sq0)) rest)).
    lia.
Qed.

(** The frames of a sequence resolve when the table knows them all. *)
Lemma resolve_frames_some (self : MOT16ObjDetect) (seq : string)
      (seq_results : list (list box)) :
  forall frame_id,
    (forall f, frame_id <= f < frame_id + length seq_results ->
               exists v, convert_frame_to_img_idx self seq f = Some v) ->
    exists results,
      resolve_frames self seq frame_id seq_results = Some results /\
      Forall (fun idx => exists f, convert_frame_to_img_idx self seq f
                                   = Some idx)
             (map fst results).
Proof.
  induction seq_results as [|det rest IH]; intros frame_id H.
  - exists []. split; [reflexivity | constructor].
  - cbn [resolve_frames].
    destruct (H frame_id ltac:(simpl; lia)) as (v & Hv). rewrite Hv.
    destruct (IH (S frame_id)) as (results & Hres & Hall).
    { intros f Hf. apply H. simpl. lia. }
    rewrite Hres. eexists. split; [reflexivity|].
    cbn [map fst]. constructor; [|exact Hall].
    exists frame_id. exact Hv.
Qed.

End ImageIndexMore.

Section ImageIndexClaims.

Import Detect DetectSpec.
Local Open Scope string_scope.
Local Open Scope nat_scope.

(** X7.  Every entry of the frame table built by the constructor is the
    index of an image path, so an index read from the table never falls
    outside the per-image lists of the evaluation drivers; and the running
    counter equals the number of image paths. *)
Theorem frame_table_in_range (sparse_version : bool)
        (seqs : list seq_listing) :
  entries_in_range (build_index sparse_version seqs) /\
  img_index (build_index sparse_version seqs)
  = length (img_paths (build_index sparse_version seqs)).
Proof.
  split.
  - intros s f v H.
    apply (build_index_entries sparse_version seqs s f v H).
  - unfold build_index. apply index_sequences_counter. reflexivity.
Qed.

(** X8.  For sequences with distinct names, looking a kept frame up in the
    table and then reading [_img_paths] at the index found gives the path
    of the file listed at that frame's position in the sequence. *)
Theorem frame_table_points_to_frame_file
        (sparse_version : bool) (seqs : list seq_listing)
        (sq : seq_listing) (f : nat)
        (Hnames : NoDup (map seq_name seqs))
        (Hin : In sq seqs)
        (Hf : 1 <= f <= length (img_files sq))
        (Hkeep : keep_frame sparse_version f = true) :
  exists v file,
    frame_table (build_index sparse_version seqs) (seq_name sq) f = Some v /\
    nth_error (img_files sq) (f - 1) = Some file /\
    nth_error (img_paths (build_index sparse_version seqs)) v
    = Some (path_join (im_dir sq) file).
Proof.
  unfold build_index.
  destruct (index_sequences_spec sparse_version seqs
              (mkIndex [] (fun _ _ => None) 0) eq_refl Hnames)
    as (_ & _ & _ & H).
  apply (H sq f Hin Hf Hkeep).
Qed.

Lemma frame_table_points_to_frame_file_witness :
  exists v file,
    frame_table
      (build_index false
         [mkSeq "MOT16-02" "train/MOT16-02/img1" ["000001.jpg"; "000002.jpg"];
          mkSeq "MOT16-04" "train/MOT16-04/img1" ["000001.jpg"]])
      (seq_name (mkSeq "MOT16-04" "train/MOT16-04/img1" ["000001.jpg"])) 1
    = Some v /\
    nth_error (img_files (mkSeq "MOT16-04" "train/MOT16-04/img1"
                                ["000001.jpg"])) (1 - 1) = Some file /\
    nth_error
      (img_paths
         (build_index false
            [mkSeq "MOT16-02" "train/MOT16-02/img1"
                   ["000001.jpg"; "000002.jpg"];
             mkSeq "MOT16-04" "train/MOT16-04/img1" ["000001.jpg"]])) v
    = Some (path_join
              (im_dir (mkSeq "MOT16-04" "train/MOT16-04/img1"
                             ["000001.jpg"])) file).
Proof.
  apply (frame_table_points_to_frame_file false
           [mkSeq "MOT16-02" "train/MOT16-02/img1" ["000001.jpg"; "000002.jpg"];
            mkSeq "MOT16-04" "train/MOT16-04/img1" ["000001.jpg"]]
           (mkSeq "MOT16-04" "train/MOT16-04/img1" ["000001.jpg"]) 1).
  - repeat constructor; simpl; intuition discriminate.
  - right. left. reflexivity.
  - simpl. lia.
  - reflexivity.
Defined.

(** Without the sparse filter the dataset holds one image per listed
    file: [len(self._img_paths)] is the total length of the listings. *)
Theorem full_index_has_every_image (seqs : list seq_listing) :
  length (img_paths (build_index false seqs))
  = list_sum (map (fun sq => length (img_files sq)) seqs).
Proof.
  unfold build_index. rewrite index_sequences_full_length. reflexivity.
Qed.

(** X9.  In a sparse index only frame numbers that are multiples of 20
    have an entry, and frame numbers start at 1: frames 1 to 19
    of every sequence are unknown to the table. *)
Theorem sparse_table_only_multiples_of_20
        (seqs : list seq_listing) (s : string) (f v : nat)
        (Hentry : frame_table (build_index true seqs) s f = Some v) :
  f mod 20 = 0 /\ 20 <= f.
Proof.
  destruct (build_index_entries true seqs s f v Hentry) as (_ & Hk & H1).
  unfold keep_frame, sparse_frequency in Hk. cbn [negb orb andb] in Hk.
  apply Nat.eqb_eq in Hk. split; [exact Hk|].
  destruct (Nat.lt_ge_cases f 20) as [Hlt|Hge]; [|exact Hge].
  rewrite Nat.mod_small in Hk by exact Hlt. lia.
Qed.

Lemma sparse_table_only_multiples_of_20_witness :
  frame_table (build_index true [mkSeq "MOT16-02" "img1" (repeat "x.jpg" 20)])
              "MOT16-02" 20 = Some 0 /\
  20 mod 20 = 0 /\ 20 <= 20.
Proof.
  split; [reflexivity|].
  apply (sparse_table_only_multiples_of_20
           [mkSeq "MOT16-02" "img1" (repeat "x.jpg" 20)]
           "MOT16-02" 20 0).
  reflexivity.
Defined.

(** X10.  On a dataset built with the sparse filter the tracking driver
    cannot evaluate any sequence that has results: it numbers the result
    frames from 1, frame 1 is never in a sparse table, and the lookup
    raises KeyError. *)
Theorem sparse_dataset_tracking_raises_keyerror
        (seqs : list seq_listing) (vis_thr : Q)
        (annot : nat -> result annotation)
        (seq : string) (im_det : list box) (rest : list (list box))
        (more : list (string * list (list box))) (ovthresh : Q) :
  evaluate_detections_on_tracking_data
    (dataset_of (build_index true seqs) vis_thr annot)
    ((seq, im_det :: rest) :: more) ovthresh
  = Raise KeyError.
Proof.
  cbn [evaluate_detections_on_tracking_data tracking_loop
       dataset_of convert_frame_to_img_idx].
  destruct (frame_table (build_index true seqs) seq 1) as [v|] eqn:E.
  - destruct (build_index_entries true seqs seq 1 v E) as (_ & Hk & _).
    discriminate.
  - reflexivity.
Qed.

End ImageIndexClaims.

(** ** The aggregator on aligned inputs *)

Section MetricsAligned.

Import Detect DetectSpec.
Local Open Scope Q_scope.

Lemma flat_size_flat (tp : list slot) : flat_size tp = length (flat tp).
Proof.
  unfold flat. induction tp as [|[|a] t IH]; simpl; auto.
  rewrite length_app, IH. reflexivity.
Qed.

Lemma length_zeros (n : nat) : length (zeros n) = n.
Proof. apply repeat_length. Qed.

Lemma zeros_add (n k : nat) : zeros (n + k) = zeros n ++ zeros k.
Proof. unfold zeros. apply repeat_app. Qed.

(** Writing an array of the right length over the next zeros. *)
Lemma set_slice_fill (pre a : list Q) (i s k : nat) :
  length a = s -> i = length pre ->
  set_slice (pre ++ zeros (s + k)) i s a = Ok (pre ++ a ++ zeros k).
Proof.
  intros Ha ->. unfold set_slice.
  rewrite length_app, length_zeros.
  replace (Nat.min (length pre) (length pre + (s + k))) with (length pre)
    by lia.
  replace (Nat.min (s + length pre) (length pre + (s + k)))
    with (s + length pre)%nat by lia.
  replace (s + length pre - length pre)%nat with s by lia.
  rewrite Ha, Nat.eqb_refl.
  rewrite firstn_app, firstn_all, Nat.sub_diag, firstn_O, app_nil_r.
  rewrite skipn_app.
  rewrite skipn_all2 by lia.
  replace (s + length pre - length pre)%nat with s by lia.
  rewrite zeros_add, skipn_app, length_zeros, Nat.sub_diag.
  rewrite skipn_all2 by (rewrite length_zeros; lia).
  reflexivity.
Qed.

(** On aligned inputs the second loop writes the arrays one after the
    other and never raises. *)
Lemma flatten_loop_aligned (tp fp : list slot) :
  aligned tp fp ->
  forall pt pf,
    length pt = length pf ->
    flatten_loop tp fp (length pt)
                 (pt ++ zeros (flat_size tp)) (pf ++ zeros (flat_size tp))
    = Ok (pt ++ flat tp, pf ++ flat fp).
Proof.
  induction 1 as [|t f tp fp Hs Hal IH]; intros pt pf Hlen.
  - cbn [flatten_loop flat_size flat map concat zeros repeat].
    reflexivity.
  - cbn [flatten_loop].
    destruct t as [|a], f as [|b]; cbn [slots_aligned] in Hs;
      try contradiction.
    + cbn [flat_size]. unfold flat. cbn [map as_array concat app].
      apply IH. exact Hlen.
    + cbn [flat_size as_array].
      rewrite (set_slice_fill pt a (length pt) (length a) (flat_size tp)
                 eq_refl eq_refl).
      run_bind.
      rewrite (set_slice_fill pf b (length pt) (length a) (flat_size tp)
                 (eq_sym Hs) Hlen).
      run_bind.
      unfold flat. cbn [map as_array concat].
      rewrite <- length_app, !app_assoc.
      apply IH. rewrite !length_app. lia.
Qed.

Lemma cumsum_from_length (l : list Q) :
  forall acc, length (cumsum_from acc l) = length l.
Proof.
  induction l as [|x t IH]; intros acc; simpl; auto.
Qed.

Lemma Qsum_nonneg (l : list Q) :
  (forall x, In x l -> 0 <= x) -> 0 <= Qsum l.
Proof.
  induction l as [|x t IH]; intros H.
  - apply Qle_refl.
  - cbn [Qsum fold_right]. change (fold_right Qplus 0 t) with (Qsum t).
    assert (0 <= x) by (apply H; left; reflexivity).
    assert (0 <= Qsum t) by (apply IH; intros y Hy; apply H; right; exact Hy).
    Lqa.lra.
Qed.

(** Running sums of non-negative entries stay between the start and the
    total, which is their last value. *)
Lemma cumsum_from_bounds (l : list Q) :
  forall acc,
    (forall x, In x l -> 0 <= x) ->
    forall y, In y (cumsum_from acc l) ->
      acc <= y /\ y <= acc + Qsum l.
Proof.
  induction l as [|x t IH]; intros acc Hpos y Hy; [destruct Hy|].
  cbn [cumsum_from] in Hy. cbn [Qsum fold_right].
  change (fold_right Qplus 0 t) with (Qsum t).
  assert (Hx : 0 <= x) by (apply Hpos; left; reflexivity).
  assert (Ht : forall z, In z t -> 0 <= z)
    by (intros z Hz; apply Hpos; right; exact Hz).
  pose proof (Qsum_nonneg t Ht) as Hs.
  destruct Hy as [<- | Hy].
  - split; Lqa.lra.
  - destruct (IH (acc + x) Ht y Hy) as [H1 H2]. split; Lqa.lra.
Qed.

Lemma cumsum_from_last (l : list Q) :
  forall acc d,
    l <> [] ->
    In (last (cumsum_from acc l) d) (cumsum_from acc l) /\
    last (cumsum_from acc l) d == acc + Qsum l.
Proof.
  induction l as [|x t IH]; intros acc d Hne; [congruence|].
  destruct t as [|x' t'].
  - cbn. split; [left; reflexivity | Lqa.lra].
  - destruct (IH (acc + x) d ltac:(discriminate)) as [Hin Heq].
    cbn [cumsum_from] in *. cbn [last] in *.
    split; [right; exact Hin|].
    rewrite Heq. cbn [Qsum fold_right]. Lqa.lra.
Qed.

(** The maximum of an array with a largest element. *)
Lemma np_max_largest (l : list Q) (u : Q) :
  (forall y, In y l -> y <= u) ->
  (exists y, In y l /\ u <= y) ->
  exists m, np_max (map Fin l) = Ok (Fin m) /\ m == u.
Proof.
  intros Hub (y & Hy & Huy).
  destruct l as [|c0 rest]; [destruct Hy|].
  cbn [map np_max].
  assert (Hall : Forall (fun v => exists q, v = Fin q) (map Fin rest)).
  { apply Forall_forall. intros v Hv. apply in_map_iff in Hv.
    destruct Hv as (q & <- & _). exists q. reflexivity. }
  destruct (fold_xmaximum_finite (map Fin rest) c0 Hall)
    as (m & Hm & H0 & Hle & Hin).
  exists m. split; [rewrite Hm; reflexivity|].
  assert (Hm_in : In m (c0 :: rest)).
  { destruct Hin as [Hhd | Htl].
    - injection Hhd as <-. left. reflexivity.
    - apply in_map_iff in Htl. destruct Htl as (q & Eq & Hq).
      injection Eq as <-. right. exact Hq. }
  assert (Hy_le : y <= m).
  { destruct Hy as [<- | Hy]; [exact H0|].
    apply Hle. apply in_map. exact Hy. }
  specialize (Hub m Hm_in). Lqa.lra.
Qed.

(** [int(x)] of a float that is a whole number. *)
Lemma py_int_whole (m : Q) (c : Z) :
  m == inject_Z c -> py_int (Fin m) = Ok c.
Proof.
  intros H. cbn [py_int]. f_equal.
  unfold Qeq, inject_Z in H. cbn [Qnum Qden] in H.
  rewrite Z.mul_1_r in H. rewrite H.
  apply Z.quot_mul. discriminate.
Qed.

Lemma aligned_flat_length (tp fp : list slot) :
  aligned tp fp -> length (flat tp) = length (flat fp).
Proof.
  unfold flat.
  induction 1 as [|t f tp fp Hs _ IH]; [reflexivity|].
  destruct t as [|a], f as [|b]; cbn [slots_aligned] in Hs;
    try contradiction; cbn [map as_array concat]; [exact IH|].
  rewrite !length_app. lia.
Qed.

Lemma flatten_aligned (tp fp : list slot) :
  aligned tp fp ->
  flatten_loop tp fp 0 (zeros (flat_size tp)) (zeros (flat_size tp))
  = Ok (flat tp, flat fp).
Proof.
  intros H. exact (flatten_loop_aligned tp fp H [] [] eq_refl).
Qed.

Lemma np_max_finite_list (l : list Q) :
  l <> [] -> exists m, np_max (map Fin l) = Ok (Fin m).
Proof.
  intros Hne. destruct l as [|c rest]; [congruence|].
  cbn [map np_max].
  assert (Hall : Forall (fun v => exists q, v = Fin q) (map Fin rest)).
  { apply Forall_forall. intros v Hv. apply in_map_iff in Hv.
    destruct Hv as (q & <- & _). exists q. reflexivity. }
  destruct (fold_xmaximum_finite (map Fin rest) c Hall) as (m & Hm & _).
  exists m. rewrite Hm. reflexivity.
Qed.

Lemma py_int_finite (m : Q) : exists z, py_int (Fin m) = Ok z.
Proof. eexists. reflexivity. Qed.

Lemma length_zero_nil {A : Type} (l : list A) :
  (length l =? 0)%nat = false -> l <> [].
Proof. destruct l; [discriminate | discriminate]. Qed.

Lemma metrics_total_aligned (tp fp : list slot) (npos : nat) :
  aligned tp fp ->
  exists d, detection_metrics_from_tp_and_fp tp fp npos = Ok d.
Proof.
  intros Hal.
  unfold detection_metrics_from_tp_and_fp.
  rewrite (flatten_aligned tp fp Hal). run_bind. cbn [fst snd].
  destruct (length (cumsum (flat tp)) =? 0)%nat eqn:E;
    [eexists; reflexivity|].
  assert (Htp : cumsum (flat tp) <> []) by (apply length_zero_nil; exact E).
  assert (Hfp : cumsum (flat fp) <> []).
  { intros H. apply Htp. apply length_zero_iff_nil.
    apply (f_equal (@length Q)) in H.
    unfold cumsum in *. rewrite cumsum_from_length in *.
    rewrite (aligned_flat_length tp fp Hal). exact H. }
  destruct (cumsum (flat tp)) as [|c cs] eqn:Ec; [congruence|].
  cbn [map np_max]. run_bind.
  unfold Qlist_max.
  destruct (np_max_finite_list (c :: cs) ltac:(discriminate)) as (m1 & ->).
  destruct (np_max_finite_list (cumsum (flat fp)) Hfp) as (m2 & ->).
  run_bind. cbn [py_int]. run_bind.
  eexists. reflexivity.
Qed.

(** X11.  On aligned per-image entries (for every image two arrays of one
    length, or the two initial empty lists) the aggregator concatenates the
    arrays in image order and returns a dictionary: it raises nothing,
    whatever [npos] is. *)
Theorem metrics_return_on_aligned_input
        (tp fp : list slot) (npos : nat) (Hal : aligned tp fp) :
  flatten_loop tp fp 0 (zeros (flat_size tp)) (zeros (flat_size tp))
  = Ok (flat tp, flat fp) /\
  exists d, detection_metrics_from_tp_and_fp tp fp npos = Ok d.
Proof.
  split.
  - apply flatten_aligned. exact Hal.
  - apply metrics_total_aligned. exact Hal.
Qed.

Lemma metrics_return_on_aligned_input_witness :
  flatten_loop [NdArray [1; 0]; PyEmptyList; NdArray [0]]
               [NdArray [0; 1]; PyEmptyList; NdArray [1]] 0
               (zeros (flat_size [NdArray [1; 0]; PyEmptyList; NdArray [0]]))
               (zeros (flat_size [NdArray [1; 0]; PyEmptyList; NdArray [0]]))
  = Ok (flat [NdArray [1; 0]; PyEmptyList; NdArray [0]],
        flat [NdArray [0; 1]; PyEmptyList; NdArray [1]]) /\
  exists d,
    detection_metrics_from_tp_and_fp
      [NdArray [1; 0]; PyEmptyList; NdArray [0]]
      [NdArray [0; 1]; PyEmptyList; NdArray [1]] 0 = Ok d.
Proof.
  apply (metrics_return_on_aligned_input
           [NdArray [1; 0]; PyEmptyList; NdArray [0]]
           [NdArray [0; 1]; PyEmptyList; NdArray [1]] 0).
  repeat constructor.
Defined.

Lemma complementary_bits (T F : list Q) :
  complementary T F ->
  length T = length F /\
  (forall x, In x T -> x = 0 \/ x = 1) /\
  (forall x, In x F -> x = 0 \/ x = 1) /\
  (count_ones T + count_ones F = length T)%nat.
Proof.
  unfold count_ones.
  induction 1 as [|t f T F Htf _ (IH1 & IH2 & IH3 & IH4)].
  - repeat split; auto; intros x [].
  - cbn [length]. refine (conj _ (conj _ (conj _ _))).
    + lia.
    + intros x [<- | Hx]; [tauto | auto].
    + intros x [<- | Hx]; [tauto | auto].
    + destruct Htf as [[-> ->] | [-> ->]]; simpl; lia.
Qed.

Lemma bits_nonneg (l : list Q) :
  (forall x, In x l -> x = 0 \/ x = 1) -> forall x, In x l -> 0 <= x.
Proof.
  intros H x Hx. destruct (H x Hx) as [-> | ->]; Lqa.lra.
Qed.

Lemma last_map_combine {C : Type} (g : Q * Q -> C) (d : C) (a : list Q) :
  forall b,
    length a = length b -> a <> [] ->
    last (map g (combine a b)) d = g (last a 0, last b 0).
Proof.
  induction a as [|x a IH]; intros [|y b] Hlen Hne; simpl in Hlen;
    try congruence; try discriminate.
  destruct a as [|x' a'], b as [|y' b']; simpl in Hlen; try discriminate.
  - reflexivity.
  - change (last (map g (combine (x :: x' :: a') (y :: y' :: b'))) d)
      with (last (map g (combine (x' :: a') (y' :: b'))) d).
    rewrite (IH (y' :: b')) by (simpl; try lia; discriminate).
    reflexivity.
Qed.

Lemma float64_eps_small : 0 < float64_eps /\ float64_eps <= 1.
Proof. split; reflexivity || (unfold Qle; simpl; lia). Qed.

(** The running sums of an array of flags: their maximum and their last
    value are the number of flags set. *)
Lemma cumsum_flags (T : list Q) :
  T <> [] -> (forall x, In x T -> x = 0 \/ x = 1) ->
  (exists m, np_max (map Fin (cumsum T)) = Ok (Fin m) /\
             m == inject_Z (Z.of_nat (count_ones T))) /\
  last (cumsum T) 0 == inject_Z (Z.of_nat (count_ones T)) /\
  (forall y, In y (cumsum T) -> y <= inject_Z (Z.of_nat (count_ones T))) /\
  In (last (cumsum T) 0) (cumsum T).
Proof.
  intros Hne Hbits.
  pose proof (Qsum_count_ones T Hbits) as Hsum.
  pose proof (bits_nonneg T Hbits) as Hpos.
  destruct (cumsum_from_last T 0 0 Hne) as [Hin Hlast].
  assert (Hub : forall y, In y (cumsum T) -> y <= Qsum T).
  { intros y Hy. destruct (cumsum_from_bounds T 0 Hpos y Hy). Lqa.lra. }
  refine (conj _ (conj _ (conj _ Hin))).
  - destruct (np_max_largest (cumsum T) (Qsum T) Hub) as (m & Hm & Heq).
    + exists (last (cumsum T) 0). split; [exact Hin|].
      unfold cumsum. rewrite Hlast. Lqa.lra.
    + exists m. split; [exact Hm|]. rewrite Heq. exact Hsum.
  - unfold cumsum. rewrite Hlast, <- Hsum. Lqa.lra.
  - intros y Hy. rewrite <- Hsum. apply Hub. exact Hy.
Qed.

Lemma Qdiv_le_compat_r (a b c : Q) : 0 < c -> a <= b -> a / c <= b / c.
Proof.
  intros Hc Hab. unfold Qdiv. apply Qmult_le_compat_r; [exact Hab|].
  apply Qinv_le_0_compat. Lqa.lra.
Qed.

(** What the aggregator reports when every detection carries exactly one
    flag. *)
Lemma metrics_report (tp fp : list slot) (npos : nat) :
  aligned tp fp -> complementary (flat tp) (flat fp) ->
  flat tp <> [] -> (0 < npos)%nat ->
  exists ap p r,
    detection_metrics_from_tp_and_fp tp fp npos
    = Ok (mkEval (VStr2f ap) (VStr2f (Fin p)) (VStr2f (Fin r))
                 (VStrInt (Z.of_nat (count_ones (flat tp))))
                 (VStrInt (Z.of_nat (count_ones (flat fp))))) /\
    p == inject_Z (Z.of_nat (count_ones (flat tp)))
         / inject_Z (Z.of_nat (length (flat tp))) /\
    r == inject_Z (Z.of_nat (count_ones (flat tp)))
         / inject_Z (Z.of_nat npos).
Proof.
  intros Hal Hc Hne Hnpos.
  destruct (complementary_bits _ _ Hc) as (Hlen & HbT & HbF & Hcount).
  assert (HneF : flat fp <> []).
  { intros H. apply Hne. apply length_zero_iff_nil.
    rewrite Hlen, H. reflexivity. }
  destruct (cumsum_flags (flat tp) Hne HbT)
    as ((m1 & Hm1 & Em1) & HlastT & HubT & HinT).
  destruct (cumsum_flags (flat fp) HneF HbF)
    as ((m2 & Hm2 & Em2) & HlastF & _ & _).
  assert (HN : 0 < inject_Z (Z.of_nat npos)).
  { change 0 with (inject_Z 0). rewrite <- Zlt_Qlt. lia. }
  set (N := inject_Z (Z.of_nat npos)) in *.
  set (c := inject_Z (Z.of_nat (count_ones (flat tp)))) in *.
  (* recall *)
  assert (Hrec : map (fun t => fdiv t N) (cumsum (flat tp))
                 = map Fin (map (fun t => t / N) (cumsum (flat tp)))).
  { rewrite map_map. apply map_ext. intros t. apply fdiv_finite. exact HN. }
  destruct (np_max_largest (map (fun t => t / N) (cumsum (flat tp))) (c / N))
    as (r & Hr & Er).
  { intros y Hy. apply in_map_iff in Hy. destruct Hy as (t & <- & Ht).
    apply Qdiv_le_compat_r; [exact HN | apply HubT; exact Ht]. }
  { exists (last (cumsum (flat tp)) 0 / N). split.
    - apply (in_map (fun t => t / N)). exact HinT.
    - rewrite HlastT. apply Qle_refl. }
  (* precision *)
  assert (HlenC : length (cumsum (flat tp)) = length (cumsum (flat fp))).
  { unfold cumsum. rewrite !cumsum_from_length. exact Hlen. }
  assert (HneC : cumsum (flat tp) <> []).
  { intros H. apply Hne. apply length_zero_iff_nil.
    apply (f_equal (@length Q)) in H. unfold cumsum in H.
    rewrite cumsum_from_length in H. exact H. }
  assert (Hn1 : 1 <= inject_Z (Z.of_nat (length (flat tp)))).
  { change 1 with (inject_Z 1). rewrite <- Zle_Qle.
    destruct (flat tp); [congruence | simpl; lia]. }
  assert (Htot : last (cumsum (flat tp)) 0 + last (cumsum (flat fp)) 0
                 == inject_Z (Z.of_nat (length (flat tp)))).
  { rewrite HlastT, HlastF. unfold c. rewrite <- inject_Z_plus.
    rewrite <- Nat2Z.inj_add, Hcount. reflexivity. }
  destruct float64_eps_small as [He0 He1].
  assert (Hmax : Qmax (last (cumsum (flat tp)) 0 + last (cumsum (flat fp)) 0)
                      float64_eps
                 == inject_Z (Z.of_nat (length (flat tp)))).
  { rewrite Q.max_l; [exact Htot|]. rewrite Htot. Lqa.lra. }
  assert (Hmax0 : 0 < Qmax (last (cumsum (flat tp)) 0
                            + last (cumsum (flat fp)) 0) float64_eps).
  { rewrite Hmax. Lqa.lra. }
  unfold detection_metrics_from_tp_and_fp.
  rewrite (flatten_aligned tp fp Hal). run_bind. cbn [fst snd].
  assert (E0 : (length (cumsum (flat tp)) =? 0)%nat = false).
  { apply Nat.eqb_neq. intros H. apply HneC.
    apply length_zero_iff_nil. exact H. }
  rewrite E0. fold N. rewrite Hrec, Hr. run_bind.
  unfold Qlist_max. rewrite Hm1, Hm2. run_bind.
  rewrite (py_int_whole m1 _ Em1), (py_int_whole m2 _ Em2). run_bind.
  rewrite (last_map_combine _ NaN _ _ HlenC HneC).
  rewrite (fdiv_finite _ _ Hmax0).
  eexists _, _, r. split; [reflexivity|]. split; [|exact Er].
  rewrite Hmax, HlastT. reflexivity.
Qed.

(** X12.  When every detection carries exactly one of the two flags, at
    least one detection exists and [npos] is positive, the reported TP and
    FP are the numbers of true and false positive flags over all images,
    the reported precision is TP / (TP + FP) and the reported recall is
    TP / npos (before formatting to two decimals). *)
Theorem metrics_report_counts
        (tp fp : list slot) (npos : nat)
        (Hal : aligned tp fp)
        (Hc : complementary (flat tp) (flat fp))
        (Hne : flat tp <> []) (Hnpos : (0 < npos)%nat) :
  exists ap p r,
    detection_metrics_from_tp_and_fp tp fp npos
    = Ok (mkEval (VStr2f ap) (VStr2f (Fin p)) (VStr2f (Fin r))
                 (VStrInt (Z.of_nat (count_ones (flat tp))))
                 (VStrInt (Z.of_nat (count_ones (flat fp))))) /\
    p == inject_Z (Z.of_nat (count_ones (flat tp)))
         / inject_Z (Z.of_nat (count_ones (flat tp) + count_ones (flat fp))) /\
    r == inject_Z (Z.of_nat (count_ones (flat tp)))
         / inject_Z (Z.of_nat npos).
Proof.
  destruct (metrics_report tp fp npos Hal Hc Hne Hnpos)
    as (ap & p & r & E & Hp & Hr).
  exists ap, p, r. refine (conj E (conj _ Hr)).
  destruct (complementary_bits _ _ Hc) as (_ & _ & _ & Hcount).
  rewrite Hcount. exact Hp.
Qed.

Lemma metrics_report_counts_witness :
  exists ap p r,
    detection_metrics_from_tp_and_fp
      [NdArray [1; 0]; PyEmptyList; NdArray [0]]
      [NdArray [0; 1]; PyEmptyList; NdArray [1]] 4
    = Ok (mkEval (VStr2f ap) (VStr2f (Fin p)) (VStr2f (Fin r))
            (VStrInt (Z.of_nat (count_ones
               (flat [NdArray [1; 0]; PyEmptyList; NdArray [0]]))))
            (VStrInt (Z.of_nat (count_ones
               (flat [NdArray [0; 1]; PyEmptyList; NdArray [1]]))))) /\
    p == inject_Z (Z.of_nat (count_ones
            (flat [NdArray [1; 0]; PyEmptyList; NdArray [0]])))
         / inject_Z (Z.of_nat
            (count_ones (flat [NdArray [1; 0]; PyEmptyList; NdArray [0]])
             + count_ones (flat [NdArray [0; 1]; PyEmptyList; NdArray [1]]))) /\
    r == inject_Z (Z.of_nat (count_ones
            (flat [NdArray [1; 0]; PyEmptyList; NdArray [0]])))
         / inject_Z (Z.of_nat 4).
Proof.
  apply (metrics_report_counts
           [NdArray [1; 0]; PyEmptyList; NdArray [0]]
           [NdArray [0; 1]; PyEmptyList; NdArray [1]] 4).
  - repeat constructor.
  - unfold complementary, flat. simpl.
    repeat (apply Forall2_cons;
            [(left; split; reflexivity) || (right; split; reflexivity)|]).
    apply Forall2_nil.
  - discriminate.
  - lia.
Defined.

End MetricsAligned.

(** ** The evaluation drivers, end to end *)

Section DriversMore.

Import Detect DetectSpec.
Local Open Scope Q_scope.

Variable self : MOT16ObjDetect.
Variable ovthresh : Q.

Lemma Forall2_upd {A B : Type} (P : A -> B -> Prop)
      (l1 : list A) (l2 : list B) (i : nat) (a : A) (b : B) :
  Forall2 P l1 l2 -> P a b -> Forall2 P (upd l1 i a) (upd l2 i b).
Proof.
  intros H Hab. revert i.
  induction H as [|x y l1 l2 Hxy Hrest IH]; intros [|i]; cbn [upd];
    constructor; auto.
Qed.

Lemma Forall2_repeat {A B : Type} (P : A -> B -> Prop) (a : A) (b : B)
      (n : nat) :
  P a b -> Forall2 P (repeat a n) (repeat b n).
Proof. intros H. induction n; simpl; constructor; auto. Qed.

(** The flags of one frame are complementary. *)
Lemma matcher_flags_complementary (im_gt im_det : list box) :
  complementary (im_tp (matcher_flags im_gt im_det ovthresh))
                (im_fp (matcher_flags im_gt im_det ovthresh)).
Proof.
  unfold matcher_flags.
  destruct (tp_and_fp_of_detection_inv im_gt im_det ovthresh)
    as (r & E & [_ Lt Lp _ Hdone _ _]).
  rewrite E. unfold complementary.
  assert (H : forall i, (i < length im_det)%nat ->
     (nth i (im_tp r) 0 = 1 /\ nth i (im_fp r) 0 = 0) \/
     (nth i (im_tp r) 0 = 0 /\ nth i (im_fp r) 0 = 1)).
  { intros i Hi.
    destruct (nth_error im_det i) as [d|] eqn:Hd.
    - destruct (Hdone i d Hd) as [(T & F & _) | (T & F & _)]; auto.
    - apply nth_error_None in Hd. lia. }
  revert H. rewrite <- Lt. rewrite <- Lt in Lp.
  generalize (im_tp r) (im_fp r) Lp. clear.
  intros T. induction T as [|t T IH]; intros [|f F] Hlen H;
    simpl in Hlen; try discriminate; constructor.
  - exact (H 0%nat ltac:(simpl; lia)).
  - apply IH; [lia|]. intros i Hi. apply (H (S i)). simpl. lia.
Qed.

(** The accumulators of an evaluation hold, image by image, complementary
    flag arrays. *)
Lemma expected_accum_complementary (results : list (nat * list box)) :
  forall acc,
    Forall2 slots_complementary (acc_tp acc) (acc_fp acc) ->
    Forall2 slots_complementary
            (acc_tp (expected_accum self ovthresh results acc))
            (acc_fp (expected_accum self ovthresh results acc)).
Proof.
  induction results as [|[idx det] rest IH]; intros acc H; [exact H|].
  cbn [expected_accum]. apply IH. cbn [acc_tp acc_fp].
  apply Forall2_upd; [exact H|].
  cbn [slots_complementary]. apply matcher_flags_complementary.
Qed.

Lemma complementary_app (a1 a2 b1 b2 : list Q) :
  complementary a1 b1 -> complementary a2 b2 ->
  complementary (a1 ++ a2) (b1 ++ b2).
Proof. apply Forall2_app. Qed.

Lemma slots_complementary_flat (tp fp : list slot) :
  Forall2 slots_complementary tp fp ->
  aligned tp fp /\ complementary (flat tp) (flat fp).
Proof.
  unfold flat, aligned.
  induction 1 as [|t f tp fp Hs _ [IH1 IH2]].
  - split; constructor.
  - destruct t as [|a], f as [|b]; cbn [slots_complementary] in Hs;
      try contradiction; cbn [map as_array concat].
    + split; [constructor; [exact I | exact IH1] | exact IH2].
    + split.
      * constructor; [|exact IH1]. cbn [slots_aligned].
        apply (Forall2_length Hs).
      * apply complementary_app; assumption.
Qed.

Lemma init_accum_complementary :
  Forall2 slots_complementary (acc_tp (init_accum self))
          (acc_fp (init_accum self)).
Proof.
  unfold init_accum. cbn [acc_tp acc_fp].
  apply Forall2_repeat. exact I.
Qed.

Lemma flat_size_upd_empty (l : list slot) (i : nat) :
  flat_size l = 0%nat -> flat_size (upd l i (NdArray [])) = 0%nat.
Proof.
  revert i; induction l as [|s l IH]; intros [|i] H; cbn [upd];
    try reflexivity;
    destruct (flat_size_cons_zero _ _ H) as [Ha Hl].
  - exact Hl.
  - destruct s as [|a]; cbn [flat_size] in *.
    + apply IH. exact Hl.
    + simpl in Ha. subst a. simpl. apply IH. exact Hl.
Qed.

Lemma flat_size_repeat_empty (n : nat) :
  flat_size (repeat PyEmptyList n) = 0%nat.
Proof. induction n; simpl; auto. Qed.

Lemma matcher_flags_no_detections (im_gt : list box) :
  matcher_flags im_gt [] ovthresh = mkFlags (zeros (length im_gt)) [] [].
Proof. reflexivity. Qed.

(** Without detections the accumulators hold no flag. *)
Lemma expected_accum_no_detections (results : list (nat * list box)) :
  Forall (fun r => snd r = []) results ->
  forall acc,
    flat_size (acc_tp acc) = 0%nat -> flat_size (acc_fp acc) = 0%nat ->
    flat_size (acc_tp (expected_accum self ovthresh results acc)) = 0%nat /\
    flat_size (acc_fp (expected_accum self ovthresh results acc)) = 0%nat.
Proof.
  induction 1 as [|[idx det] rest Hdet _ IH]; intros acc Ht Hf;
    [split; assumption|].
  cbn [snd] in Hdet. subst det.
  cbn [expected_accum]. rewrite matcher_flags_no_detections.
  cbn [im_tp im_fp].
  apply IH; cbn [acc_tp acc_fp]; apply flat_size_upd_empty; assumption.
Qed.

Lemma metrics_zero (tp fp : list slot) (npos : nat) :
  flat_size tp = 0%nat -> flat_size fp = 0%nat ->
  detection_metrics_from_tp_and_fp tp fp npos = Ok zero_dict.
Proof.
  intros Htp Hfp. unfold detection_metrics_from_tp_and_fp.
  rewrite Htp. cbn [zeros repeat].
  rewrite flatten_loop_empty by assumption.
  reflexivity.
Qed.

Lemma init_accum_lengths :
  length (acc_tp (init_accum self)) = img_paths_len self /\
  length (acc_fp (init_accum self)) = img_paths_len self.
Proof. unfold init_accum; cbn [acc_tp acc_fp]. split; apply repeat_length. Qed.

Lemma evaluate_loop_from_init (results : list (nat * list box)) :
  Forall (frame_ok self) (map fst results) ->
  evaluate_loop self ovthresh results (init_accum self)
  = Ok (expected_accum self ovthresh results (init_accum self)).
Proof.
  intros Hok. destruct init_accum_lengths as [Lt Lf].
  apply evaluate_loop_ok; assumption.
Qed.

End DriversMore.

Section DriversEndToEnd.

Import Detect DetectSpec.
Local Open Scope string_scope.
Local Open Scope Q_scope.

(** X13.  A detector that reports no box on any frame is given the zero
    dictionary, also when the frames hold ground truth and [npos] is
    positive: no division is reached. *)
Theorem silent_detector_scores_zero
        (self : MOT16ObjDetect) (ovthresh : Q)
        (results : list (nat * list box))
        (Hok : Forall (frame_ok self) (map fst results))
        (Hsilent : Forall (fun r => snd r = []) results) :
  evaluate_detections self results ovthresh = Ok zero_dict.
Proof.
  unfold evaluate_detections.
  rewrite (evaluate_loop_from_init self ovthresh results Hok). run_bind.
  destruct (expected_accum_no_detections self ovthresh results Hsilent
              (init_accum self)) as [Ht Hf].
  - apply flat_size_repeat_empty.
  - apply flat_size_repeat_empty.
  - apply metrics_zero; assumption.
Qed.

Lemma silent_detector_scores_zero_witness :
  evaluate_detections demo_dataset [(0%nat, [])] 0.5 = Ok zero_dict.
Proof.
  apply (silent_detector_scores_zero demo_dataset 0.5 [(0%nat, [])]).
  - exact demo_frames_ok.
  - repeat constructor.
Defined.

(** X14.  On frames whose annotations load with one visibility per box and
    whose image indices are in range, [evaluate_detections] returns a
    dictionary: neither the matcher, nor the per-image assignments, nor the
    aggregator raises. *)
Theorem evaluate_detections_returns
        (self : MOT16ObjDetect) (ovthresh : Q)
        (results : list (nat * list box))
        (Hok : Forall (frame_ok self) (map fst results)) :
  exists d, evaluate_detections self results ovthresh = Ok d.
Proof.
  unfold evaluate_detections.
  rewrite (evaluate_loop_from_init self ovthresh results Hok). run_bind.
  apply metrics_total_aligned.
  apply slots_complementary_flat.
  apply expected_accum_complementary.
  apply init_accum_complementary.
Qed.

Lemma evaluate_detections_returns_witness :
  exists d, evaluate_detections demo_dataset [(0%nat, demo_boxes)] 0.5 = Ok d.
Proof.
  apply (evaluate_detections_returns demo_dataset 0.5 [(0%nat, demo_boxes)]).
  exact demo_frames_ok.
Defined.

(** X15.  When at least one detection is evaluated and some box is
    annotated, [evaluate_detections] reports as TP and FP the numbers of
    true and false positive flags of the processed images, as precision
    TP / (TP + FP), and as recall TP divided by the number of all annotated
    boxes of the processed frames, hidden ones included. *)
Theorem evaluate_detections_report
        (self : MOT16ObjDetect) (ovthresh : Q)
        (results : list (nat * list box))
        (Hok : Forall (frame_ok self) (map fst results))
        (Hdet : flat (acc_tp (expected_accum self ovthresh results
                                             (init_accum self))) <> [])
        (Hann : (0 < total_annotated self results)%nat) :
  let acc := expected_accum self ovthresh results (init_accum self) in
  let n_tp := count_ones (flat (acc_tp acc)) in
  let n_fp := count_ones (flat (acc_fp acc)) in
  exists ap p r,
    evaluate_detections self results ovthresh
    = Ok (mkEval (VStr2f ap) (VStr2f (Fin p)) (VStr2f (Fin r))
                 (VStrInt (Z.of_nat n_tp)) (VStrInt (Z.of_nat n_fp))) /\
    p == inject_Z (Z.of_nat n_tp) / inject_Z (Z.of_nat (n_tp + n_fp)) /\
    r == inject_Z (Z.of_nat n_tp)
         / inject_Z (Z.of_nat (total_annotated self results)).
Proof.
  intros acc n_tp n_fp.
  destruct (slots_complementary_flat (acc_tp acc) (acc_fp acc)) as [Hal Hc].
  { apply expected_accum_complementary, init_accum_complementary. }
  assert (Hnpos : npos acc = total_annotated self results).
  { unfold acc. rewrite expected_npos. reflexivity. }
  destruct (metrics_report (acc_tp acc) (acc_fp acc) (npos acc) Hal Hc Hdet)
    as (ap & p & r & E & Hp & Hr); [rewrite Hnpos; exact Hann|].
  exists ap, p, r.
  unfold evaluate_detections.
  rewrite (evaluate_loop_from_init self ovthresh results Hok). run_bind.
  fold acc. refine (conj E (conj _ _)).
  - destruct (complementary_bits _ _ Hc) as (_ & _ & _ & Hcount).
    unfold n_tp, n_fp. rewrite Hcount. exact Hp.
  - rewrite <- Hnpos. exact Hr.
Qed.

Lemma evaluate_detections_report_witness :
  let acc := expected_accum demo_dataset 0.5 [(0%nat, demo_boxes)]
                            (init_accum demo_dataset) in
  let n_tp := count_ones (flat (acc_tp acc)) in
  let n_fp := count_ones (flat (acc_fp acc)) in
  exists ap p r,
    evaluate_detections demo_dataset [(0%nat, demo_boxes)] 0.5
    = Ok (mkEval (VStr2f ap) (VStr2f (Fin p)) (VStr2f (Fin r))
                 (VStrInt (Z.of_nat n_tp)) (VStrInt (Z.of_nat n_fp))) /\
    p == inject_Z (Z.of_nat n_tp) / inject_Z (Z.of_nat (n_tp + n_fp)) /\
    r == inject_Z (Z.of_nat n_tp)
         / inject_Z (Z.of_nat
              (total_annotated demo_dataset [(0%nat, demo_boxes)])).
Proof.
  apply (evaluate_detections_report demo_dataset 0.5
           [(0%nat, demo_boxes)]).
  - exact demo_frames_ok.
  - vm_compute. discriminate.
  - vm_compute. lia.
Defined.

(** The frames of a listed sequence resolve in a full index, to images
    whose annotations load. *)
Lemma full_index_frames_ok
      (seqs : list seq_listing) (vis_thr : Q)
      (annot : nat -> result annotation)
      (sq : seq_listing) (seq_results : list (list box)) :
  NoDup (map seq_name seqs) -> In sq seqs ->
  (length seq_results <= length (img_files sq))%nat ->
  (forall idx, (idx < length (img_paths (build_index false seqs)))%nat ->
     exists ann, annot idx = Ok ann /\
                 length (boxes ann) = length (visibilities ann)) ->
  exists results,
    resolve_frames (dataset_of (build_index false seqs) vis_thr annot)
                   (seq_name sq) 1 seq_results = Some results /\
    Forall (frame_ok (dataset_of (build_index false seqs) vis_thr annot))
           (map fst results).
Proof.
  intros Hnd Hin Hlen Hann.
  set (self := dataset_of (build_index false seqs) vis_thr annot).
  destruct (resolve_frames_some self (seq_name sq) seq_results 1)
    as (results & Hres & Hall).
  { intros f Hf. unfold self, dataset_of. cbn [convert_frame_to_img_idx].
    unfold build_index.
    destruct (index_sequences_spec false seqs
                (mkIndex [] (fun _ _ => None) 0%nat) eq_refl Hnd)
      as (_ & _ & _ & H).
    destruct (H sq f Hin ltac:(lia) eq_refl) as (v & _ & Hv & _).
    exists v. exact Hv. }
  exists results. split; [exact Hres|].
  apply Forall_forall. intros idx Hidx.
  rewrite Forall_forall in Hall.
  destruct (Hall idx Hidx) as (f & Hf).
  unfold self, dataset_of in Hf. cbn [convert_frame_to_img_idx] in Hf.
  destruct (build_index_entries false seqs _ _ _ Hf) as (Hlt & _).
  destruct (Hann idx Hlt) as (ann & Ea & Hshape).
  exists ann. unfold self, dataset_of.
  cbn [get_annotation img_paths_len]. auto.
Qed.

(** X16.  On a dataset built without the sparse filter from sequences with
    distinct names, whose annotations all load with one visibility per
    box, the tracking driver evaluates any listed sequence that has at most
    as many result frames as listed images, and returns its row: no frame
    lookup and no per-image assignment fails. *)
Theorem full_dataset_tracking_returns
        (seqs : list seq_listing) (vis_thr : Q)
        (annot : nat -> result annotation)
        (sq : seq_listing) (seq_results : list (list box)) (ovthresh : Q)
        (Hnames : NoDup (map seq_name seqs))
        (Hin : In sq seqs)
        (Hlen : (length seq_results <= length (img_files sq))%nat)
        (Hann : forall idx,
            (idx < length (img_paths (build_index false seqs)))%nat ->
            exists ann, annot idx = Ok ann /\
                        length (boxes ann) = length (visibilities ann)) :
  exists d,
    evaluate_detections_on_tracking_data
      (dataset_of (build_index false seqs) vis_thr annot)
      [(seq_name sq, seq_results)] ovthresh
    = Ok [(seq_name sq, d)].
Proof.
  destruct (full_index_frames_ok seqs vis_thr annot sq seq_results
              Hnames Hin Hlen Hann) as (results & Hres & Hok).
  set (self := dataset_of (build_index false seqs) vis_thr annot) in *.
  cbn [evaluate_detections_on_tracking_data].
  rewrite (tracking_loop_resolved self ovthresh (seq_name sq) seq_results
             1 results (init_accum self) Hres).
  rewrite (evaluate_loop_from_init self ovthresh results Hok). run_bind.
  destruct (metrics_total_aligned
              (acc_tp (expected_accum self ovthresh results (init_accum self)))
              (acc_fp (expected_accum self ovthresh results (init_accum self)))
              (npos (expected_accum self ovthresh results (init_accum self))))
    as (d & Ed).
  { apply slots_complementary_flat.
    apply expected_accum_complementary, init_accum_complementary. }
  rewrite Ed. run_bind. exists d. reflexivity.
Qed.

Lemma full_dataset_tracking_returns_witness :
  exists d,
    evaluate_detections_on_tracking_data
      (dataset_of
         (build_index false [mkSeq "MOT16-02" "img1" ["000001.jpg"]])
         0.25 (fun _ => Ok (mkAnn demo_boxes [1; 0.1])))
      [(seq_name (mkSeq "MOT16-02" "img1" ["000001.jpg"]), [demo_boxes])]
      0.5
    = Ok [(seq_name (mkSeq "MOT16-02" "img1" ["000001.jpg"]), d)].
Proof.
  apply (full_dataset_tracking_returns
           [mkSeq "MOT16-02" "img1" ["000001.jpg"]] 0.25
           (fun _ => Ok (mkAnn demo_boxes [1; 0.1]))
           (mkSeq "MOT16-02" "img1" ["000001.jpg"]) [demo_boxes] 0.5).
  - repeat constructor. simpl. tauto.
  - left. reflexivity.
  - simpl. lia.
  - intros idx _. eexists. split; reflexivity.
Defined.

End DriversEndToEnd.

(** ** Comparing two detectors *)

Section Compare.

Import Detect DetectSpec.
Local Open Scope Q_scope.

Variable self : MOT16ObjDetect.
Variable ovthresh : Q.

Lemma elementwise_same_length {A B C : Type} (f : A -> B -> C)
      (a : list A) (b : list B) :
  length a = length b ->
  elementwise f a b = Ok (map (fun xy => f (fst xy) (snd xy)) (combine a b)).
Proof.
  intros H. unfold elementwise. rewrite H, Nat.eqb_refl. reflexivity.
Qed.

Lemma astype_bool_length (a : list Q) : length (astype_bool a) = length a.
Proof. apply length_map. Qed.

(** No index array of a mask holds a non-zero index exactly when the mask
    is false from position 1 on. *)
Lemma int_any_np_where (m : list bool) :
  forall k,
    int_any (np_where k m) = false <->
    (forall j, (k + j <> 0)%nat -> nth j m false = false).
Proof.
  induction m as [|b m IH]; intros k.
  - split; [intros _ [|j] _; reflexivity | reflexivity].
  - cbn [np_where]. split.
    + intros H [|j] Hj; cbn [nth].
      * destruct b; [|reflexivity].
        cbn [int_any existsb] in H. apply orb_false_iff in H.
        destruct H as [H _]. apply negb_false_iff, Nat.eqb_eq in H. lia.
      * assert (H' : int_any (np_where (S k) m) = false).
        { destruct b; [|exact H].
          cbn [int_any existsb] in H. apply orb_false_iff in H.
          apply H. }
        apply (proj1 (IH (S k)) H' j). lia.
    + intros H.
      assert (H' : int_any (np_where (S k) m) = false).
      { apply IH. intros j Hj. apply (H (S j)). lia. }
      destruct b; [|exact H'].
      cbn [int_any existsb]. apply orb_false_iff. split; [|exact H'].
      apply negb_false_iff, Nat.eqb_eq.
      destruct k as [|k]; [reflexivity|].
      specialize (H 0%nat ltac:(lia)). discriminate.
Qed.

Lemma np_where_all_false (m : list bool) :
  (forall j, nth j m false = false) -> forall k, np_where k m = [].
Proof.
  induction m as [|b m IH]; intros H k; [reflexivity|].
  cbn [np_where]. rewrite (H 0%nat : b = false).
  apply IH. intros j. apply (H (S j)).
Qed.

Lemma nth_mask (f1 f2 : list Q) (j : nat) :
  length f1 = length f2 ->
  nth j (map (fun ab : bool * bool => fst ab && negb (snd ab))
             (combine (astype_bool f1) (astype_bool f2))) false
  = negb (Qeq_bool (nth j f1 0) 0) && Qeq_bool (nth j f2 0) 0.
Proof.
  unfold astype_bool.
  revert f2 j; induction f1 as [|x f1 IH]; intros [|y f2] j Hlen;
    simpl in Hlen; try discriminate.
  - destruct j; reflexivity.
  - destruct j as [|j]; cbn [map combine nth fst snd].
    + rewrite negb_involutive. reflexivity.
    + apply IH. lia.
Qed.

(** The body of the comparison loop on a frame it can process. *)
Lemma compare_frame_ok (im_index : nat) (im_det1 im_det2 : list box) :
  frame_ok self im_index ->
  let f1 := found_on self ovthresh im_index im_det1 in
  let f2 := found_on self ovthresh im_index im_det2 in
  length f1 = length f2 /\
  compare_frame self ovthresh im_index im_det1 im_det2
  = if int_any (exclusive f1 f2) || int_any (exclusive f2 f1)
    then Ok (Some (exclusive f1 f2, exclusive f2 f1)) else Ok None.
Proof.
  intros (ann & Hann & Hshape & _) f1 f2.
  assert (Hlen : length f1 = length f2).
  { unfold f1, f2, found_on, matcher_flags.
    destruct (tp_and_fp_of_detection_inv
                (visible_boxes self (annotation_at self im_index))
                im_det1 ovthresh) as (r1 & E1 & I1).
    destruct (tp_and_fp_of_detection_inv
                (visible_boxes self (annotation_at self im_index))
                im_det2 ovthresh) as (r2 & E2 & I2).
    rewrite E1, E2.
    rewrite (inv_len_found _ _ _ _ _ I1), (inv_len_found _ _ _ _ _ I2).
    reflexivity. }
  split; [exact Hlen|].
  unfold compare_frame. rewrite Hann. run_bind.
  assert (Ha : annotation_at self im_index = ann)
    by (unfold annotation_at; rewrite Hann; reflexivity).
  destruct ann as [bs vs]. cbn [boxes visibilities] in *.
  rewrite (mask_select_visible self bs vs Hshape). run_bind.
  rewrite !(matcher_flags_ok ovthresh). run_bind.
  unfold f1, f2, found_on in *. rewrite Ha in *.
  rewrite !elementwise_same_length
    by (rewrite !astype_bool_length; congruence).
  run_bind. reflexivity.
Qed.

Lemma found_on_bits (im_index : nat) (im_det : list box) (j : nat) :
  nth j (found_on self ovthresh im_index im_det) 0 = 0 \/
  nth j (found_on self ovthresh im_index im_det) 0 = 1.
Proof.
  unfold found_on, matcher_flags.
  destruct (tp_and_fp_of_detection_inv
              (visible_boxes self (annotation_at self im_index))
              im_det ovthresh) as (r & E & Hinv).
  rewrite E.
  destruct (Nat.lt_ge_cases j (length (found r))) as [Hlt|Hge].
  - rewrite (inv_len_found _ _ _ _ _ Hinv) in Hlt.
    destruct (inv_found _ _ _ _ _ Hinv j Hlt) as [[H _] | [H _]]; auto.
  - left. apply nth_overflow. exact Hge.
Qed.

(** A frame is left out exactly when the two detectors agree on every
    ground-truth box but possibly the first. *)
Lemma compare_frame_none (im_index : nat) (im_det1 im_det2 : list box) :
  frame_ok self im_index ->
  (compare_frame self ovthresh im_index im_det1 im_det2 = Ok None <->
   forall j, (1 <= j)%nat ->
     nth j (found_on self ovthresh im_index im_det1) 0
     = nth j (found_on self ovthresh im_index im_det2) 0).
Proof.
  intros Hok.
  destruct (compare_frame_ok im_index im_det1 im_det2 Hok) as [Hlen E].
  cbv zeta in Hlen, E. rewrite E.
  set (f1 := found_on self ovthresh im_index im_det1) in *.
  set (f2 := found_on self ovthresh im_index im_det2) in *.
  assert (Hiff : int_any (exclusive f1 f2) || int_any (exclusive f2 f1)
                 = false <->
                 forall j, (1 <= j)%nat -> nth j f1 0 = nth j f2 0).
  { rewrite orb_false_iff. unfold exclusive.
    rewrite !int_any_np_where. split.
    - intros [H1 H2] j Hj.
      specialize (H1 j ltac:(lia)). specialize (H2 j ltac:(lia)).
      rewrite nth_mask in H1 by exact Hlen.
      rewrite nth_mask in H2 by (symmetry; exact Hlen).
      destruct (found_on_bits im_index im_det1 j) as [A|A];
        destruct (found_on_bits im_index im_det2 j) as [B|B];
        fold f1 in A; fold f2 in B; rewrite A, B in *;
        try reflexivity; discriminate.
    - intros H. split; intros j Hj.
      + rewrite nth_mask by exact Hlen. rewrite (H j ltac:(lia)).
        destruct (Qeq_bool (nth j f2 0) 0); reflexivity.
      + rewrite nth_mask by (symmetry; exact Hlen).
        rewrite (H j ltac:(lia)).
        destruct (Qeq_bool (nth j f2 0) 0); reflexivity. }
  destruct (int_any (exclusive f1 f2) || int_any (exclusive f2 f1)) eqn:Eany.
  - split; [discriminate|]. intros H. apply Hiff in H. discriminate.
  - split; [intros _; apply Hiff; reflexivity | reflexivity].
Qed.

Lemma exclusive_self (f : list Q) : exclusive f f = [].
Proof.
  unfold exclusive. apply np_where_all_false. intros j.
  rewrite nth_mask by reflexivity.
  destruct (Qeq_bool (nth j f 0) 0); reflexivity.
Qed.

(** Comparing a frame with itself records nothing. *)
Lemma compare_frame_self (im_index : nat) (im_det : list box)
      (c : option (list nat * list nat)) :
  compare_frame self ovthresh im_index im_det im_det = Ok c -> c = None.
Proof.
  unfold compare_frame.
  destruct (get_annotation self im_index) as [ann|e]; [|discriminate].
  run_bind.
  destruct (mask_select (boxes ann) _) as [im_gt|e]; [|discriminate].
  run_bind.
  destruct (tp_and_fp_of_detection im_gt im_det ovthresh) as [r|e];
    [|discriminate].
  run_bind.
  rewrite !elementwise_same_length by reflexivity. run_bind.
  change (np_where 0
            (map (fun xy : bool * bool => fst xy && negb (snd xy))
                 (combine (astype_bool (found r)) (astype_bool (found r)))))
    with (exclusive (found r) (found r)).
  rewrite exclusive_self. cbn [int_any existsb orb].
  intros H. injection H as <-. reflexivity.
Qed.

Lemma compare_sequence_self (seq : string) (seq_results : list (list box)) :
  forall frame_id acc l,
    compare_sequence self ovthresh seq frame_id seq_results seq_results acc
    = Ok l ->
    l = acc.
Proof.
  induction seq_results as [|det rest IH]; intros frame_id acc l H.
  - cbn [compare_sequence] in H. injection H as <-. reflexivity.
  - cbn [compare_sequence] in H.
    destruct (convert_frame_to_img_idx self seq frame_id) as [idx|];
      [|discriminate].
    destruct (compare_frame self ovthresh idx det det) as [c|e] eqn:E;
      [|discriminate].
    apply compare_frame_self in E. subst c.
    cbn beta iota delta [bind] in H. apply IH in H. exact H.
Qed.

Lemma compare_loop_self (results : list (string * list (list box))) :
  forall acc l,
    compare_loop self ovthresh results results acc = Ok l -> l = acc.
Proof.
  induction results as [|[seq sr] rest IH]; intros acc l H.
  - cbn [compare_loop] in H. injection H as <-. reflexivity.
  - cbn [compare_loop] in H.
    destruct (compare_sequence self ovthresh seq 1 sr sr acc)
      as [acc'|e] eqn:E; [|discriminate].
    apply compare_sequence_self in E. subst acc'.
    cbn beta iota delta [bind] in H. apply IH in H. exact H.
Qed.

End Compare.

Section CompareClaims.

Import Detect DetectSpec.
Local Open Scope string_scope.
Local Open Scope Q_scope.

Lemma demo_frame_ok : frame_ok demo_dataset 0.
Proof.
  exists (mkAnn demo_boxes [1; 0.1]).
  repeat split; simpl; lia.
Defined.

(** X17.  Comparing a detector with itself never records a frame: whenever
    [compare_detectors] returns on twice the same results, the returned
    dictionary is empty. *)
Theorem compare_detectors_with_itself
        (self : MOT16ObjDetect) (ovthresh : Q)
        (results : list (string * list (list box)))
        (l : list compare_entry)
        (Hret : compare_detectors self results results ovthresh = Ok l) :
  l = [].
Proof.
  unfold compare_detectors in Hret.
  apply (compare_loop_self self ovthresh results [] l Hret).
Qed.

Lemma compare_detectors_with_itself_witness :
  compare_detectors demo_dataset [("MOT16-02", [demo_boxes])]
                    [("MOT16-02", [demo_boxes])] 0.5 = Ok [] /\
  @nil compare_entry = [].
Proof.
  split; [reflexivity|].
  apply (compare_detectors_with_itself demo_dataset 0.5
           [("MOT16-02", [demo_boxes])] []).
  reflexivity.
Defined.

(** X18.  [compare_detectors] tests its index arrays with [.any()], which
    is false for the index 0: a frame the loop can process is left out of
    the result exactly when the two detectors claim the same ground-truth
    boxes from the second box on, whether or not they agree on the first
    box. *)
Theorem compare_frame_ignores_first_box
        (self : MOT16ObjDetect) (ovthresh : Q)
        (im_index : nat) (im_det1 im_det2 : list box)
        (Hok : frame_ok self im_index) :
  compare_frame self ovthresh im_index im_det1 im_det2 = Ok None <->
  forall j, (1 <= j)%nat ->
    nth j (found_on self ovthresh im_index im_det1) 0
    = nth j (found_on self ovthresh im_index im_det2) 0.
Proof.
  apply compare_frame_none. exact Hok.
Qed.

Lemma compare_frame_ignores_first_box_witness :
  compare_frame demo_dataset 0.5 0 [mkBox 0 0 10 10] [] = Ok None <->
  forall j, (1 <= j)%nat ->
    nth j (found_on demo_dataset 0.5 0 [mkBox 0 0 10 10]) 0
    = nth j (found_on demo_dataset 0.5 0 []) 0.
Proof.
  apply (compare_frame_ignores_first_box demo_dataset 0.5 0
           [mkBox 0 0 10 10] []).
  exact demo_frame_ok.
Defined.

(** On the example frame the first detector finds the visible box and the
    second finds nothing, yet the frame is not recorded. *)
Example compare_misses_first_box :
  found_on demo_dataset 0.5 0 [mkBox 0 0 10 10] = [1] /\
  found_on demo_dataset 0.5 0 [] = [0] /\
  compare_detectors demo_dataset [("MOT16-02", [[mkBox 0 0 10 10]])]
                    [("MOT16-02", [[]])] 0.5 = Ok [].
Proof. vm_compute. repeat split. Qed.

End CompareClaims.

(** ** The geometry codec, the other way round *)

Section CodecMore.

Import Kalman KalmanSpec.
Local Open Scope R_scope.

Lemma encode_state_ok (b : row4) :
  well_formed b -> Forall state_ok (convert_box_to_state [b]).
Proof.
  destruct b as [x1 y1 x2 y2]. unfold well_formed. cbn [c0 c1 c2 c3].
  intros [Hw Hh]. constructor; [|constructor].
  unfold state_ok, box_convert_xyxy_cxcywh, box_area. cbn [c0 c1 c2 c3].
  split.
  - apply Rmult_lt_0_compat; lra.
  - apply Rdiv_lt_0_compat; lra.
Qed.

Lemma decode_row (s : row4) :
  state_ok s ->
  Forall well_formed (convert_state_to_box [s]) /\
  convert_box_to_state (convert_state_to_box [s]) = [s].
Proof.
  destruct s as [cx cy a r]. unfold state_ok. cbn [c0 c1 c2 c3].
  intros [Ha Hr].
  assert (Har : 0 < a * r) by (apply Rmult_lt_0_compat; assumption).
  pose proof (sqrt_lt_R0 (a * r) Har) as Hw.
  pose proof (sqrt_sqrt (a * r) (Rlt_le _ _ Har)) as Hw2.
  unfold convert_state_to_box, convert_box_to_state,
    box_convert_xyxy_cxcywh, box_area.
  cbn [map c0 c1 c2 c3].
  set (w := sqrt (a * r)) in *.
  assert (Hh : 0 < a / w) by (apply Rdiv_lt_0_compat; assumption).
  split.
  - constructor; [|constructor]. unfold well_formed. cbn [c0 c1 c2 c3].
    split; lra.
  - f_equal. f_equal.
    + lra.
    + lra.
    + replace (cx + w / 2 - (cx - w / 2)) with w by lra.
      replace (cy + a / w / 2 - (cy - a / w / 2)) with (a / w) by lra.
      field. lra.
    + replace (cx + w / 2 - (cx - w / 2)) with w by lra.
      replace (cy + a / w / 2 - (cy - a / w / 2)) with (a / w) by lra.
      replace (w / (a / w)) with (w * w / a) by (field; lra).
      rewrite Hw2. field. lra.
Qed.

(** X19.  The codec is a bijection between boxes of positive width and
    height and states of positive area and ratio: encoding such a box
    gives such a state, decoding such a state gives such a box, and
    encoding the decoded state gives the state back (exact arithmetic). *)
Theorem codec_decode_then_encode (states : list row4)
        (Hok : Forall state_ok states) :
  Forall well_formed (convert_state_to_box states) /\
  convert_box_to_state (convert_state_to_box states) = states /\
  (forall boxes, Forall well_formed boxes ->
                 Forall state_ok (convert_box_to_state boxes)).
Proof.
  refine (conj _ (conj _ _)).
  - induction Hok as [|s states Hs _ IH]; [constructor|].
    destruct (decode_row s Hs) as [Hwf _].
    inversion Hwf; subst. constructor; assumption.
  - induction Hok as [|s states Hs _ IH]; [reflexivity|].
    destruct (decode_row s Hs) as [_ Heq].
    change (convert_box_to_state (convert_state_to_box (s :: states)))
      with (convert_box_to_state (convert_state_to_box [s])
            ++ convert_box_to_state (convert_state_to_box states)).
    rewrite Heq, IH. reflexivity.
  - intros boxes Hb. induction Hb as [|b boxes Hb _ IH]; [constructor|].
    pose proof (encode_state_ok b Hb) as H. inversion H; subst.
    constructor; assumption.
Qed.

Lemma codec_decode_then_encode_witness :
  Forall well_formed (convert_state_to_box [mk4 5 5 100 1]) /\
  convert_box_to_state (convert_state_to_box [mk4 5 5 100 1])
  = [mk4 5 5 100 1] /\
  (forall boxes, Forall well_formed boxes ->
                 Forall state_ok (convert_box_to_state boxes)).
Proof.
  apply (codec_decode_then_encode [mk4 5 5 100 1]).
  constructor; [|constructor]. unfold state_ok; simpl; lra.
Defined.

End CodecMore.

(** ** Smoothing, extrapolating and the composed filter *)

Section SmoothMore.

Import Kalman KalmanSpec.
Local Open Scope R_scope.

Variable cv_kalman : Type.
Variable cv_predict : cv_kalman -> cv_kalman * (row4 * row4).
Variable cv_correct : cv_kalman -> row4 -> result cv_kalman.

Local Abbreviation smooth_loop' :=
  (smooth_loop cv_kalman cv_predict cv_correct).
Local Abbreviation smooth' := (smooth cv_kalman cv_predict cv_correct).
Local Abbreviation run_rounds' :=
  (run_rounds cv_kalman cv_predict cv_correct).
Local Abbreviation predict_loop' := (predict_loop cv_kalman cv_predict).
Local Abbreviation predict_only' := (predict_only cv_kalman cv_predict).
Local Abbreviation predict_with' := (predict_with cv_kalman cv_predict).

(** Smoothing more positions continues the loop where it stood, unless it
    has already raised. *)
Lemma smooth_loop_app (first : row4) (a b : list row4) :
  forall k,
    smooth_loop' first k (a ++ b)
    = match smooth_loop' first k a with
      | (ka, Ok sa) =>
          let (kb, rb) := smooth_loop' first ka b in
          (kb, sb <- rb ;; Ok (sa ++ sb))
      | (ka, Raise e) => (ka, Raise e)
      end.
Proof.
  induction a as [|p a IH]; intros k.
  - cbn [app Kalman.smooth_loop].
    destruct (smooth_loop' first k b) as [kb [sb|e]]; reflexivity.
  - cbn [app Kalman.smooth_loop].
    destruct (cv_predict k) as [k1 pred].
    destruct (cv_correct k1 (row_sub p first)) as [k2|e]; [|reflexivity].
    rewrite IH.
    destruct (smooth_loop' first k2 a) as [ka [sa|e]]; cbn [bind];
      [|reflexivity].
    destruct (smooth_loop' first ka b) as [kb [sb|e]]; reflexivity.
Qed.

Lemma run_rounds_app (first : row4) (a b : list row4) :
  forall k,
    run_rounds' first k (a ++ b)
    = (ka <- run_rounds' first k a ;; run_rounds' first ka b).
Proof.
  induction a as [|p a IH]; intros k; [reflexivity|].
  cbn [app KalmanSpec.run_rounds].
  destruct (cv_correct (fst (cv_predict k))
              (mk4 (c0 p - c0 first) (c1 p - c1 first)
                   (c2 p - c2 first) (c3 p - c3 first))) as [k2|e];
    cbn [bind]; [apply IH | reflexivity].
Qed.

Lemma smooth_rows (k : cv_kalman) (t : trajectory) (first : row4)
      (rest : list row4) :
  rows_of t = first :: rest ->
  smooth' k t
  = (fst (smooth_loop' first k (first :: rest)),
     sm <- snd (smooth_loop' first k (first :: rest)) ;;
     Ok (with_rows t sm)).
Proof.
  intros Hrows. unfold smooth. rewrite Hrows.
  destruct (smooth_loop' first k (first :: rest)) as [k' [sm|e]] eqn:E;
    cbn [fst snd bind]; [|reflexivity].
  pose proof (smooth_loop_length cv_kalman cv_predict cv_correct
                first (first :: rest) k k' sm E) as Hlen.
  destruct sm as [|s0 sm]; [simpl in Hlen; discriminate|].
  cbn [np_stack]. destruct t; reflexivity.
Qed.

Lemma smooth_causal (k : cv_kalman) (t : trajectory) (first : row4)
      (rest extra : list row4) :
  rows_of t = first :: rest ->
  (forall out2,
      snd (smooth' k (with_rows t (rows_of t ++ extra))) = Ok out2 ->
      exists out1,
        snd (smooth' k t) = Ok out1 /\
        firstn (len t) (rows_of out2) = rows_of out1 /\
        len out2 = (len t + length extra)%nat) /\
  (forall e,
      snd (smooth' k t) = Raise e ->
      snd (smooth' k (with_rows t (rows_of t ++ extra))) = Raise e).
Proof.
  intros Hrows.
  rewrite (smooth_rows k t first rest Hrows).
  rewrite (smooth_rows k (with_rows t (rows_of t ++ extra)) first
             (rest ++ extra))
    by (rewrite rows_of_with_rows, Hrows; reflexivity).
  cbn [snd].
  change (first :: rest ++ extra) with ((first :: rest) ++ extra).
  rewrite smooth_loop_app.
  destruct (smooth_loop' first k (first :: rest)) as [ka [sa|e]] eqn:Ea;
    cbn [snd bind].
  - pose proof (smooth_loop_length cv_kalman cv_predict cv_correct
                  first (first :: rest) k ka sa Ea) as Hla.
    destruct (smooth_loop' first ka extra) as [kb [sb|e]] eqn:Eb;
      cbn [snd bind].
    + pose proof (smooth_loop_length cv_kalman cv_predict cv_correct
                    first extra ka kb sb Eb) as Hlb.
      split; [|intros e H; discriminate].
      intros out2 H. injection H as <-.
      exists (with_rows t sa). split; [reflexivity|].
      unfold len. rewrite with_rows_twice, !rows_of_with_rows, Hrows.
      split.
      * rewrite <- Hla, firstn_app, Nat.sub_diag, firstn_O, app_nil_r.
        apply firstn_all.
      * rewrite length_app, Hla, Hlb. reflexivity.
    + split; intros ? H; discriminate.
  - split; [intros ? H; discriminate|].
    intros e' H. exact H.
Qed.

Lemma predict_loop_spec (first : row4) (n : nat) :
  forall k,
    fst (predict_loop' first k n) = predict_only' k n /\
    length (snd (predict_loop' first k n)) = n /\
    forall i d, (i < n)%nat ->
      nth i (snd (predict_loop' first k n)) d
      = offset_prediction cv_kalman cv_predict first (predict_only' k i).
Proof.
  induction n as [|n IH]; intros k.
  - cbn. repeat split. intros i d Hi. lia.
  - cbn [Kalman.predict_loop KalmanSpec.predict_only].
    destruct (cv_predict k) as [k1 pred] eqn:Ek.
    destruct (IH k1) as (H1 & H2 & H3).
    destruct (predict_loop' first k1 n) as [k2 l].
    cbn [fst snd] in *. refine (conj H1 (conj _ _)).
    + simpl. rewrite H2. reflexivity.
    + intros [|i] d Hi.
      * cbn [nth KalmanSpec.predict_only].
        unfold offset_prediction. rewrite Ek. reflexivity.
      * cbn [nth KalmanSpec.predict_only]. rewrite Ek. cbn [fst].
        apply H3. lia.
Qed.

(** [predict] once the smoothing has returned, for any method that
    [self.smooth] resolves to. *)
Lemma predict_with_extrapolates
      (smooth_method : cv_kalman -> trajectory
                       -> cv_kalman * result trajectory)
      (k ks : cv_kalman) (t sm : trajectory) (first : row4)
      (rest : list row4) (n : nat) :
  rows_of t = first :: rest ->
  smooth_method k (NpArray (rows_of t)) = (ks, Ok sm) ->
  exists out,
    predict_with' smooth_method k t (S n)
    = (predict_only' ks (S n), Ok out) /\
    out = with_rows t (rows_of out) /\
    len out = S n /\
    forall i d, (i < S n)%nat ->
      nth i (rows_of out) d
      = mk4 (c0 (fst (snd (cv_predict (predict_only' ks i)))) + c0 first)
            (c1 (fst (snd (cv_predict (predict_only' ks i)))) + c1 first)
            (c2 (fst (snd (cv_predict (predict_only' ks i)))) + c2 first)
            (c3 (fst (snd (cv_predict (predict_only' ks i)))) + c3 first).
Proof.
  intros Hrows Hsm.
  destruct (predict_loop_spec first (S n) ks) as (H1 & H2 & H3).
  exists (with_rows t (snd (predict_loop' first ks (S n)))).
  unfold len. rewrite !rows_of_with_rows.
  refine (conj _ (conj eq_refl (conj H2 H3))).
  unfold predict_with. rewrite Hsm, Hrows.
  destruct (predict_loop' first ks (S n)) as [k2 pred].
  cbn [fst snd] in *. subst k2.
  destruct pred as [|p0 pred]; [simpl in H2; discriminate|].
  cbn [np_stack bind]. destruct t; reflexivity.
Qed.

(** With [future_len = 0] the list handed to [np.stack] is empty. *)
Lemma predict_with_no_horizon
      (smooth_method : cv_kalman -> trajectory
                       -> cv_kalman * result trajectory)
      (k ks : cv_kalman) (t sm : trajectory) :
  rows_of t <> [] ->
  smooth_method k (NpArray (rows_of t)) = (ks, Ok sm) ->
  predict_with' smooth_method k t 0 = (ks, Raise ValueError).
Proof.
  intros Hne Hsm. unfold predict_with. rewrite Hsm.
  destruct (rows_of t) as [|first rest]; [congruence|]. reflexivity.
Qed.

Lemma predict_with_raise
      (smooth_method : cv_kalman -> trajectory
                       -> cv_kalman * result trajectory)
      (k ks : cv_kalman) (t : trajectory) (e : exn) (n : nat) :
  smooth_method k (NpArray (rows_of t)) = (ks, Raise e) ->
  predict_with' smooth_method k t n = (ks, Raise e).
Proof.
  intros Hsm. unfold predict_with. rewrite Hsm. reflexivity.
Qed.

(** A first correction that raises ends the smoothing after one
    prediction. *)
Lemma smooth_first_correct_raises (k : cv_kalman) (t : trajectory)
      (first : row4) (rest : list row4) (e : exn) :
  rows_of t = first :: rest ->
  cv_correct (fst (cv_predict k))
             (mk4 (c0 first - c0 first) (c1 first - c1 first)
                  (c2 first - c2 first) (c3 first - c3 first)) = Raise e ->
  smooth' k t = (fst (cv_predict k), Raise e).
Proof.
  intros Hrows Hrej. unfold smooth. rewrite Hrows.
  cbn [Kalman.smooth_loop]. unfold row_sub.
  destruct (cv_predict k) as [k1 pred]. cbn [fst] in Hrej.
  rewrite Hrej. reflexivity.
Qed.

End SmoothMore.

Section SmoothClaims.

Import Kalman KalmanSpec.
Local Open Scope R_scope.

Variable cv_kalman : Type.
Variable cv_predict : cv_kalman -> cv_kalman * (row4 * row4).
Variable cv_correct : cv_kalman -> row4 -> result cv_kalman.

(** X20.  Smoothing is causal.  When smoothing a non-empty trajectory
    extended by further positions returns, smoothing the trajectory itself
    returns as well, its rows are the first rows of the longer output, and
    the longer output has one row per position: the smoothed value at a
    frame never depends on later frames.  When smoothing the trajectory
    raises, as it does once a [correct] of the filter raises, smoothing
    the extended trajectory raises the same exception. *)
Theorem smooth_ignores_later_positions
        (k : cv_kalman) (t : trajectory) (first : row4)
        (rest extra : list row4)
        (Hrows : rows_of t = first :: rest) :
  (forall out2,
      snd (smooth cv_kalman cv_predict cv_correct k
                  (with_rows t (rows_of t ++ extra))) = Ok out2 ->
      exists out1,
        snd (smooth cv_kalman cv_predict cv_correct k t) = Ok out1 /\
        firstn (len t) (rows_of out2) = rows_of out1 /\
        len out2 = (len t + length extra)%nat) /\
  (forall e,
      snd (smooth cv_kalman cv_predict cv_correct k t) = Raise e ->
      snd (smooth cv_kalman cv_predict cv_correct k
                  (with_rows t (rows_of t ++ extra))) = Raise e).
Proof.
  exact (smooth_causal cv_kalman cv_predict cv_correct
                       k t first rest extra Hrows).
Qed.

(** X21.  [predict] calls [self.smooth] on the trajectory as an array,
    which is [KalmanFilter.smooth] on a [KalmanFilter] and the override on
    a [FullFilter].  On a non-empty trajectory and a positive
    [future_len], when that smoothing returns and leaves the filter in
    state [ks], [predict] returns [future_len] rows of the kind of its
    input; row [i] is [predict()[:4]] of the filter [ks] after [i]
    further predictions without any correction, plus the first row of the
    trajectory, and the filter is left [future_len] predictions past
    [ks]. *)
Theorem predict_extrapolates
        (k : cv_kalman) (t : trajectory) (first : row4)
        (rest : list row4) (n : nat)
        (Hrows : rows_of t = first :: rest) :
  (forall ks sm,
      smooth cv_kalman cv_predict cv_correct k (NpArray (rows_of t))
      = (ks, Ok sm) ->
      exists out,
        KalmanFilter_predict cv_kalman cv_predict cv_correct k t (S n)
        = (predict_only cv_kalman cv_predict ks (S n), Ok out) /\
        out = with_rows t (rows_of out) /\
        len out = S n /\
        forall i d, (i < S n)%nat ->
          nth i (rows_of out) d
          = mk4 (c0 (fst (snd (cv_predict
                                 (predict_only cv_kalman cv_predict ks i))))
                 + c0 first)
                (c1 (fst (snd (cv_predict
                                 (predict_only cv_kalman cv_predict ks i))))
                 + c1 first)
                (c2 (fst (snd (cv_predict
                                 (predict_only cv_kalman cv_predict ks i))))
                 + c2 first)
                (c3 (fst (snd (cv_predict
                                 (predict_only cv_kalman cv_predict ks i))))
                 + c3 first)) /\
  (forall ks sm,
      FullFilter_smooth cv_kalman cv_predict cv_correct k
                        (NpArray (rows_of t))
      = (ks, Ok sm) ->
      exists out,
        FullFilter_predict cv_kalman cv_predict cv_correct k t (S n)
        = (predict_only cv_kalman cv_predict ks (S n), Ok out) /\
        out = with_rows t (rows_of out) /\
        len out = S n /\
        forall i d, (i < S n)%nat ->
          nth i (rows_of out) d
          = mk4 (c0 (fst (snd (cv_predict
                                 (predict_only cv_kalman cv_predict ks i))))
                 + c0 first)
                (c1 (fst (snd (cv_predict
                                 (predict_only cv_kalman cv_predict ks i))))
                 + c1 first)
                (c2 (fst (snd (cv_predict
                                 (predict_only cv_kalman cv_predict ks i))))
                 + c2 first)
                (c3 (fst (snd (cv_predict
                                 (predict_only cv_kalman cv_predict ks i))))
                 + c3 first)).
Proof.
  split; intros ks sm Hsm.
  - exact (predict_with_extrapolates cv_kalman cv_predict
             (smooth cv_kalman cv_predict cv_correct)
             k ks t sm first rest n Hrows Hsm).
  - exact (predict_with_extrapolates cv_kalman cv_predict
             (FullFilter_smooth cv_kalman cv_predict cv_correct)
             k ks t sm first rest n Hrows Hsm).
Qed.

(** X22.  [predict], on a [KalmanFilter] and on a [FullFilter]: an empty
    trajectory raises ValueError and leaves the filter untouched; an
    exception of the smoothing is raised whatever [future_len] is, and
    when the first [correct] raises, the filter has made one prediction;
    with [future_len = 0] on a non-empty trajectory whose smoothing
    returns, [np.stack] raises ValueError after the smoothing has run, on
    a [KalmanFilter] after the rounds on every row. *)
Theorem predict_raises_without_rows_or_horizon
        (k : cv_kalman) (t : trajectory) (n : nat) :
  (rows_of t = [] ->
   KalmanFilter_predict cv_kalman cv_predict cv_correct k t n
   = (k, Raise ValueError) /\
   FullFilter_predict cv_kalman cv_predict cv_correct k t n
   = (k, Raise ValueError)) /\
  (forall ks e,
      smooth cv_kalman cv_predict cv_correct k (NpArray (rows_of t))
      = (ks, Raise e) ->
      KalmanFilter_predict cv_kalman cv_predict cv_correct k t n
      = (ks, Raise e)) /\
  (forall ks e,
      FullFilter_smooth cv_kalman cv_predict cv_correct k
                        (NpArray (rows_of t))
      = (ks, Raise e) ->
      FullFilter_predict cv_kalman cv_predict cv_correct k t n
      = (ks, Raise e)) /\
  (forall first rest e,
      rows_of t = first :: rest ->
      cv_correct (fst (cv_predict k))
                 (mk4 (c0 first - c0 first) (c1 first - c1 first)
                      (c2 first - c2 first) (c3 first - c3 first))
      = Raise e ->
      KalmanFilter_predict cv_kalman cv_predict cv_correct k t n
      = (fst (cv_predict k), Raise e)) /\
  (forall ks sm,
      rows_of t <> [] ->
      smooth cv_kalman cv_predict cv_correct k (NpArray (rows_of t))
      = (ks, Ok sm) ->
      KalmanFilter_predict cv_kalman cv_predict cv_correct k t 0
      = (ks, Raise ValueError)) /\
  (forall ks sm,
      rows_of t <> [] ->
      FullFilter_smooth cv_kalman cv_predict cv_correct k
                        (NpArray (rows_of t))
      = (ks, Ok sm) ->
      FullFilter_predict cv_kalman cv_predict cv_correct k t 0
      = (ks, Raise ValueError)) /\
  (forall first rest kf,
      rows_of t = first :: rest ->
      run_rounds cv_kalman cv_predict cv_correct first k (rows_of t)
      = Ok kf ->
      KalmanFilter_predict cv_kalman cv_predict cv_correct k t 0
      = (kf, Raise ValueError)).
Proof.
  refine (conj _ (conj _ (conj _ (conj _ (conj _ (conj _ _)))))).
  - intros H. split.
    + unfold KalmanFilter_predict, predict_with, smooth. rewrite H.
      reflexivity.
    + unfold FullFilter_predict, predict_with, FullFilter_smooth. rewrite H.
      rewrite (obj_is_moving_short (NpArray []));
        [reflexivity|].
      apply short_iff_at_most_12. unfold len. simpl. lia.
  - intros ks e Hsm. apply predict_with_raise. exact Hsm.
  - intros ks e Hsm. apply predict_with_raise. exact Hsm.
  - intros first rest e Hrows Hrej.
    apply predict_with_raise.
    apply (smooth_first_correct_raises cv_kalman cv_predict cv_correct
             k (NpArray (rows_of t)) first rest e); [|exact Hrej].
    cbn [rows_of]. exact Hrows.
  - intros ks sm Hne Hsm.
    exact (predict_with_no_horizon cv_kalman cv_predict _ k ks t sm Hne Hsm).
  - intros ks sm Hne Hsm.
    exact (predict_with_no_horizon cv_kalman cv_predict _ k ks t sm Hne Hsm).
  - intros first rest kf Hrows Hacc.
    destruct (smooth_ok cv_kalman cv_predict cv_correct k kf
                (NpArray (rows_of t)) first rest)
      as (sm & _ & E & _); [exact Hrows | exact Hacc |].
    apply (predict_with_no_horizon cv_kalman cv_predict _ k kf t
             (with_rows (NpArray (rows_of t)) sm)); [|exact E].
    rewrite Hrows. discriminate.
Qed.

(** X23.  [FullFilter.smooth] hands a trajectory of at most 12 frames to
    the Kalman smoother whatever its displacement: short tracks are never
    frozen. *)
Theorem full_filter_smooths_short_tracks
        (k : cv_kalman) (t : trajectory) (Hshort : (len t <= 12)%nat) :
  FullFilter_smooth cv_kalman cv_predict cv_correct k t
  = smooth cv_kalman cv_predict cv_correct k t.
Proof.
  unfold FullFilter_smooth.
  rewrite (obj_is_moving_short t); [reflexivity|].
  apply short_iff_at_most_12. exact Hshort.
Qed.


End SmoothClaims.

Section SmoothClaimWitnesses.

Import Kalman KalmanSpec.
Local Open Scope R_scope.

Lemma smooth_ignores_later_positions_witness :
  rows_of (NpArray sample_trajectory) = [mk4 0 0 1 1; mk4 10 10 1 1] /\
  exists out1 out2,
    snd (smooth row4 hold_predict hold_correct (mk4 0 0 0 0)
                (NpArray sample_trajectory)) = Ok out1 /\
    snd (smooth row4 hold_predict hold_correct (mk4 0 0 0 0)
                (with_rows (NpArray sample_trajectory)
                   (rows_of (NpArray sample_trajectory) ++ [mk4 7 7 1 1])))
    = Ok out2 /\
    firstn (len (NpArray sample_trajectory)) (rows_of out2) = rows_of out1 /\
    len out2 = (len (NpArray sample_trajectory) + length [mk4 7 7 1 1])%nat.
Proof.
  split; [reflexivity|].
  destruct (smooth_ignores_later_positions row4 hold_predict hold_correct
              (mk4 0 0 0 0) (NpArray sample_trajectory)
              (mk4 0 0 1 1) [mk4 10 10 1 1] [mk4 7 7 1 1] eq_refl)
    as [Hok _].
  destruct (Hok _ eq_refl) as (out1 & E1 & Hfirst & Hlen).
  exists out1. eexists. split; [exact E1|]. split; [reflexivity|].
  split; [exact Hfirst | exact Hlen].
Defined.

Lemma predict_extrapolates_witness :
  rows_of (TorchTensor sample_trajectory) = [mk4 0 0 1 1; mk4 10 10 1 1] /\
  exists ks out,
    KalmanFilter_predict row4 hold_predict hold_correct (mk4 0 0 0 0)
                         (TorchTensor sample_trajectory) (S 2)
    = (predict_only row4 hold_predict ks (S 2), Ok out) /\
    out = with_rows (TorchTensor sample_trajectory) (rows_of out) /\
    len out = S 2.
Proof.
  split; [reflexivity|].
  destruct (predict_extrapolates row4 hold_predict hold_correct
              (mk4 0 0 0 0) (TorchTensor sample_trajectory)
              (mk4 0 0 1 1) [mk4 10 10 1 1] 2 eq_refl)
    as [Hk _].
  destruct (Hk _ _ eq_refl) as (out & E & Hkind & Hlen & _).
  eexists. exists out. split; [exact E|]. split; [exact Hkind | exact Hlen].
Defined.

(** With the filter that holds its last measurement, three steps ahead of
    a tensor of two rows are three copies of the last displacement plus the
    first row, returned as a tensor; on the filter whose [correct] raises,
    [predict] raises after one prediction, also with [future_len = 0]. *)
Example predict_hold_filter :
  KalmanFilter_predict row4 hold_predict hold_correct (mk4 0 0 0 0)
                       (TorchTensor sample_trajectory) 3
  = (mk4 (10 - 0) (10 - 0) (1 - 1) (1 - 1),
     Ok (TorchTensor
           [mk4 (10 - 0 + 0) (10 - 0 + 0) (1 - 1 + 1) (1 - 1 + 1);
            mk4 (10 - 0 + 0) (10 - 0 + 0) (1 - 1 + 1) (1 - 1 + 1);
            mk4 (10 - 0 + 0) (10 - 0 + 0) (1 - 1 + 1) (1 - 1 + 1)])) /\
  KalmanFilter_predict row4 hold_predict reject_correct (mk4 0 0 0 0)
                       (NpArray sample_trajectory) 0
  = (mk4 0 0 0 0, Raise CvError) /\
  FullFilter_predict row4 hold_predict reject_correct (mk4 0 0 0 0)
                     (NpArray sample_trajectory) 3
  = (mk4 0 0 0 0, Raise CvError).
Proof.
  refine (conj eq_refl (conj eq_refl _)).
  unfold FullFilter_predict, predict_with, FullFilter_smooth.
  rewrite (obj_is_moving_short (NpArray (rows_of (NpArray sample_trajectory))));
    [reflexivity|].
  apply short_iff_at_most_12. unfold len. simpl. lia.
Qed.

Lemma full_filter_smooths_short_tracks_witness :
  FullFilter_smooth row4 hold_predict hold_correct (mk4 0 0 0 0)
                    (NpArray sample_trajectory)
  = smooth row4 hold_predict hold_correct (mk4 0 0 0 0)
           (NpArray sample_trajectory).
Proof.
  apply (full_filter_smooths_short_tracks row4 hold_predict hold_correct
           (mk4 0 0 0 0) (NpArray sample_trajectory)).
  unfold len. simpl. lia.
Defined.


End SmoothClaimWitnesses.

(** ** The SORT filter object *)

Section SortFilter.

Import Kalman KalmanSpec.
Local Open Scope R_scope.

Variable cv_kalman : Type.
Variable cv_create : SORTKalmanFilter -> cv_kalman.
Variable cv_predict : cv_kalman -> cv_kalman * (row4 * (R * R * R)).
Variable cv_correct : cv_kalman -> row4 -> cv_kalman.

Local Abbreviation update' :=
  (sort_update cv_kalman cv_predict cv_correct).
Local Abbreviation reset' := (sort_reset cv_kalman cv_create).

(** Once the reference state is set, updates correct the filter with
    offsets from it and keep it. *)
Lemma sort_updates_keep_reference (s0 : row4) (bs : list row4) :
  forall k,
    fold_left update' bs (mkSortFilter cv_kalman k (Some s0))
    = mkSortFilter cv_kalman
        (fold_left (fun k' b => cv_correct k' (row_sub (box_state b) s0))
                   bs k)
        (Some s0).
Proof.
  induction bs as [|b bs IH]; intros k; [reflexivity|].
  cbn [fold_left]. unfold sort_update at 2. cbn [initial_state sort_kalman].
  apply IH.
Qed.

Lemma sort_predict_with_reference (k : cv_kalman) (s0 : row4) :
  snd (sort_predict cv_kalman cv_predict
         (mkSortFilter cv_kalman k (Some s0)))
  = Some (state_box (row_add s0 (fst (snd (cv_predict k))))).
Proof.
  unfold sort_predict. cbn [sort_kalman initial_state].
  destruct (cv_predict k) as [k1 pred]. reflexivity.
Qed.

Lemma sort_updates_from_reset (b : row4) (bs : list row4) :
  fold_left update' (b :: bs) reset'
  = mkSortFilter cv_kalman
      (fold_left
         (fun k' b' => cv_correct k' (row_sub (box_state b') (box_state b)))
         bs
         (fst (cv_predict (cv_create SORTKalmanFilter_init))))
      (Some (box_state b)).
Proof.
  cbn [fold_left]. unfold sort_update at 2, sort_reset.
  cbn [initial_state sort_kalman].
  apply sort_updates_keep_reference.
Qed.



End SortFilter.

(** ** The matrices of the trajectory filter *)

Section KalmanMatrices.

Import Kalman KalmanSpec.
Local Open Scope R_scope.

Variables process_variance measurement_variance dt : R.

Local Abbreviation M :=
  (KalmanFilter_init process_variance measurement_variance dt).

Lemma kfm_Q_entries (i j : nat) :
  entry (kfm_Q M) i j
  = if ((i <? 8) && (j <? 8))%nat%bool then
      if (i =? j)%nat then
        if (i <? 4)%nat then process_variance * (dt ^ 4 / 4)
        else process_variance * dt ^ 2
      else if ((j =? i + 4) || (i =? j + 4))%nat%bool then
        process_variance * (dt ^ 3 / 2)
      else 0
    else 0.
Proof.
  do 8 (destruct i as [|i]; [do 8 (destruct j as [|j]; [reflexivity|]);
                              destruct j; reflexivity|]).
  destruct i, j; reflexivity.
Qed.

Lemma kfm_A_entries (i j : nat) :
  entry (kfm_A M) i j
  = if ((i <? 8) && (j <? 8))%nat%bool then
      if (i =? j)%nat then 1
      else if (j =? i + 4)%nat then dt
      else 0
    else 0.
Proof.
  do 8 (destruct i as [|i]; [do 8 (destruct j as [|j]; [reflexivity|]);
                              destruct j; reflexivity|]).
  destruct i, j; reflexivity.
Qed.

(** X27.  For every choice of the parameters the process-noise matrix of
    [KalmanFilter] is symmetric, and each of its four position/velocity
    blocks is singular: the product of the two variances equals the square
    of the covariance, so the noise of a velocity and of its position are
    fully correlated. *)
Theorem kalman_Q_symmetric_and_singular :
  (forall i j, entry (kfm_Q M) i j = entry (kfm_Q M) j i) /\
  (forall i, (i < 4)%nat ->
     entry (kfm_Q M) i i * entry (kfm_Q M) (i + 4) (i + 4)
     = entry (kfm_Q M) i (i + 4) * entry (kfm_Q M) (i + 4) i) /\
  (forall i j, (i < 8)%nat -> (j < 8)%nat ->
     i <> j -> j <> (i + 4)%nat -> i <> (j + 4)%nat ->
     entry (kfm_Q M) i j = 0).
Proof.
  refine (conj _ (conj _ _)).
  - intros i j. rewrite !kfm_Q_entries.
    rewrite (andb_comm (j <? 8)%nat), (Nat.eqb_sym j i),
      (orb_comm (i =? j + 4)%nat).
    destruct ((i <? 8) && (j <? 8))%nat%bool eqn:Hb; [|reflexivity].
    destruct (Nat.eqb_spec i j) as [->|Hne]; reflexivity.
  - intros i Hi. rewrite !kfm_Q_entries.
    destruct i as [|[|[|[|i]]]]; try lia;
      cbn [Nat.add Nat.ltb Nat.leb Nat.eqb andb orb]; field.
  - intros i j Hi Hj H1 H2 H3. rewrite kfm_Q_entries.
    apply Nat.ltb_lt in Hi, Hj. rewrite Hi, Hj. cbn [andb].
    apply Nat.eqb_neq in H1, H2, H3.
    rewrite (Nat.eqb_sym i j) in H1. rewrite Nat.eqb_sym in H1.
    rewrite H1, H2, H3. reflexivity.
Qed.

(** The transition matrix of [KalmanFilter] is the identity plus [dt]
    in the four entries that couple a position with its own velocity, and
    the measurement matrix reads the four positions; no other entry is
    set. *)
Theorem kalman_A_couples_position_to_velocity :
  (forall i j, (i < 8)%nat -> (j < 8)%nat ->
     entry (kfm_A M) i j
     = if (i =? j)%nat then 1 else if (j =? i + 4)%nat then dt else 0) /\
  (forall i j, (i < 4)%nat -> (j < 8)%nat ->
     entry (kfm_H M) i j = if (i =? j)%nat then 1 else 0) /\
  (forall i j, (i < 4)%nat -> (j < 4)%nat ->
     entry (kfm_R M) i j
     = if (i =? j)%nat then measurement_variance else 0).
Proof.
  refine (conj _ (conj _ _)).
  - intros i j Hi Hj. rewrite kfm_A_entries.
    apply Nat.ltb_lt in Hi, Hj. rewrite Hi, Hj. reflexivity.
  - intros i j Hi Hj.
    destruct i as [|[|[|[|i]]]]; try lia;
      destruct j as [|[|[|[|[|[|[|[|j]]]]]]]]; try lia; reflexivity.
  - intros i j Hi Hj.
    destruct i as [|[|[|[|i]]]]; try lia;
      destruct j as [|[|[|[|j]]]]; try lia; cbn; lra.
Qed.

End KalmanMatrices.

(** ** More on freezing and on the motion test *)

Section FreezeMore.

Import Kalman KalmanSpec.
Local Open Scope R_scope.

Lemma col_sum_repeat (f : row4 -> R) (m : row4) (n : nat) :
  col_sum f (repeat m n) = INR n * f m.
Proof.
  unfold col_sum. induction n as [|n IH].
  - simpl. ring.
  - cbn [repeat fold_right]. rewrite IH, S_INR. ring.
Qed.

(** The mean of copies of one row is that row. *)
Lemma mean0_repeat (m : row4) (n : nat) :
  (0 < n)%nat -> mean0 (repeat m n) = m.
Proof.
  intros Hn. unfold mean0. rewrite repeat_length, !col_sum_repeat.
  assert (INR n <> 0) by (apply not_0_INR; lia).
  destruct m as [a b c d]. cbn [c0 c1 c2 c3].
  f_equal; field; assumption.
Qed.

(** X28.  On tensors [freeze_at_mean] keeps the length of the trajectory
    and is idempotent: freezing a frozen trajectory changes nothing. *)
Theorem freeze_at_mean_tensor_idempotent (rows : list row4) :
  len (freeze_at_mean (TorchTensor rows)) = length rows /\
  freeze_at_mean (freeze_at_mean (TorchTensor rows))
  = freeze_at_mean (TorchTensor rows).
Proof.
  destruct (Nat.ltb_spec 1 (length rows)) as [Hlong|Hshort].
  - rewrite (freeze_at_mean_tensor rows Hlong).
    unfold len. cbn [rows_of]. rewrite repeat_length. split; [reflexivity|].
    rewrite freeze_at_mean_tensor by (rewrite repeat_length; exact Hlong).
    rewrite repeat_length, mean0_repeat by lia. reflexivity.
  - rewrite (freeze_at_mean_single (TorchTensor rows))
      by (unfold len; cbn [rows_of]; lia).
    split; [reflexivity|].
    apply freeze_at_mean_single. unfold len; cbn [rows_of]; lia.
Qed.

Lemma nth_np_tile (a : list row4) (d : row4) (n : nat) :
  forall i, (i < n * length a)%nat ->
    nth i (np_tile a n) d = nth (i mod length a) a d.
Proof.
  induction n as [|n IH]; intros i Hi; [simpl in Hi; lia|].
  cbn [np_tile].
  assert (Hpos : (0 < length a)%nat) by (destruct a; simpl in *; lia).
  destruct (Nat.lt_ge_cases i (length a)) as [Hlt|Hge].
  - rewrite app_nth1 by exact Hlt. rewrite Nat.mod_small by exact Hlt.
    reflexivity.
  - rewrite app_nth2 by exact Hge.
    rewrite IH by (simpl in Hi; lia).
    f_equal.
    replace i with ((i - length a) + 1 * length a)%nat at 2 by lia.
    rewrite Nat.Div0.mod_add. reflexivity.
Qed.

(** X29.  On a numpy array of length [L > 1], [freeze_at_mean] returns
    [L * L] rows, row [i] being row [i mod L] of the input: the input
    repeated [L] times, not its mean. *)
Theorem freeze_at_mean_array_repeats_input
        (rows : list row4) (Hlong : (1 < length rows)%nat) :
  len (freeze_at_mean (NpArray rows)) = (length rows * length rows)%nat /\
  forall i d, (i < length rows * length rows)%nat ->
    nth i (rows_of (freeze_at_mean (NpArray rows))) d
    = nth (i mod length rows) rows d.
Proof.
  split; [apply freeze_at_mean_array_length; exact Hlong|].
  intros i d Hi. unfold freeze_at_mean, len. cbn [rows_of].
  apply Nat.ltb_lt in Hlong. rewrite Hlong. cbn [rows_of].
  apply nth_np_tile. exact Hi.
Qed.

Lemma freeze_at_mean_array_repeats_input_witness :
  len (freeze_at_mean (NpArray sample_trajectory))
  = (length sample_trajectory * length sample_trajectory)%nat /\
  forall i d, (i < length sample_trajectory * length sample_trajectory)%nat ->
    nth i (rows_of (freeze_at_mean (NpArray sample_trajectory))) d
    = nth (i mod length sample_trajectory) sample_trajectory d.
Proof.
  apply (freeze_at_mean_array_repeats_input sample_trajectory).
  simpl. lia.
Defined.

(** X30.  For a trajectory of [n >= 13] frames the motion test needs no
    square root and no division: the object is moving exactly when the
    squared distance between its first and last position exceeds
    [(n / 5)^2], one fifth of a pixel per frame. *)
Theorem obj_is_moving_squared_distance
        (t : trajectory) (first : row4) (rest : list row4)
        (Hrows : rows_of t = first :: rest)
        (Hlong : (13 <= len t)%nat) :
  let last_row := last (rows_of t) first in
  let dx := c0 first - c0 last_row in
  let dy := c1 first - c1 last_row in
  obj_is_moving t = Ok true <->
  (INR (len t) / 5) ^ 2 < dx * dx + dy * dy.
Proof.
  intros last_row dx dy.
  rewrite (obj_is_moving_long t Hlong).
  unfold end_to_end_distance, elapsed_time. rewrite Hrows.
  fold last_row. rewrite <- Hrows. fold last_row dx dy. unfold norm2.
  assert (Hn : 13 <= INR (len t)).
  { rewrite <- INR_13. apply le_INR. exact Hlong. }
  set (n := INR (len t)) in *.
  set (S2 := dx * dx + dy * dy).
  assert (HS : 0 <= S2) by (unfold S2; nra).
  assert (Hq : sqrt S2 / (n * (1 / 25)) = sqrt S2 * (25 / n))
    by (field; lra).
  rewrite Hq.
  split.
  - intros H. injection H as H. apply Rgtb_true in H.
    assert (Hs : n / 5 < sqrt S2).
    { assert (0 < 25 / n) by (apply Rdiv_lt_0_compat; lra).
      assert (E : sqrt S2 = sqrt S2 * (25 / n) * (n / 25)) by (field; lra).
      rewrite E. nra. }
    pose proof (sqrt_sqrt S2 HS) as Hsq.
    assert (0 <= sqrt S2) by apply sqrt_pos.
    nra.
  - intros H. f_equal. apply Rgtb_true.
    assert (Hs : n / 5 < sqrt S2).
    { rewrite <- (sqrt_pow2 (n / 5)) by lra.
      apply sqrt_lt_1_alt. split; [apply pow2_ge_0 | exact H]. }
    assert (E : sqrt S2 * (25 / n) = sqrt S2 / (n / 25)) by (field; lra).
    rewrite E.
    assert (Ey : sqrt S2 = sqrt S2 / (n / 25) * (n / 25)) by (field; lra).
    set (y := sqrt S2 / (n / 25)) in *.
    assert (0 < n / 25) by lra.
    nra.
Qed.

Lemma obj_is_moving_squared_distance_witness :
  let t := NpArray (repeat (mk4 0 0 1 1) 12 ++ [mk4 100 0 1 1]) in
  let last_row := last (rows_of t) (mk4 0 0 1 1) in
  let dx := c0 (mk4 0 0 1 1) - c0 last_row in
  let dy := c1 (mk4 0 0 1 1) - c1 last_row in
  obj_is_moving t = Ok true <->
  (INR (len t) / 5) ^ 2 < dx * dx + dy * dy.
Proof.
  apply (obj_is_moving_squared_distance
           (NpArray (repeat (mk4 0 0 1 1) 12 ++ [mk4 100 0 1 1]))
           (mk4 0 0 1 1)
           (repeat (mk4 0 0 1 1) 11 ++ [mk4 100 0 1 1])).
  - reflexivity.
  - unfold len. simpl. lia.
Defined.

End FreezeMore.

(** ** The matcher in explicit terms *)

Section ExplicitMatching.

Import Detect DetectSpec.
Local Open Scope Q_scope.

(** On boxes with ordered corners the model's overlap is the written-out
    IoU, a finite number. *)
Lemma overlap_pixel_iou (d g : box) :
  box_ok d -> box_ok g -> overlap d g = Fin (pixel_iou d g).
Proof.
  intros [Hdx Hdy] [Hgx Hgy].
  unfold overlap, pixel_iou.
  destruct (extent_bounds (bx1 g) (bx2 g) (bx1 d) (bx2 d) Hgx Hdx)
    as (Hw0 & Hwg & Hwd).
  destruct (extent_bounds (by1 g) (by2 g) (by1 d) (by2 d) Hgy Hdy)
    as (Hh0 & Hhg & Hhd).
  cbv zeta in Hw0, Hwg, Hwd, Hh0, Hhg, Hhd |- *.
  set (iw := Qmax (Qmin (bx2 g) (bx2 d) - Qmax (bx1 g) (bx1 d) + 1) 0) in *.
  set (ih := Qmax (Qmin (by2 g) (by2 d) - Qmax (by1 g) (by1 d) + 1) 0) in *.
  assert (Hid : iw * ih <= (bx2 d - bx1 d + 1) * (by2 d - by1 d + 1))
    by Lqa.nra.
  assert (Hag : 1 <= (bx2 g - bx1 g + 1) * (by2 g - by1 g + 1))
    by Lqa.nra.
  apply fdiv_finite. Lqa.lra.
Qed.

(** [np.argmax] on finite values returns the first index of the maximum. *)
Lemma argmax_from_first_max (qs : list Q) :
  forall b bi i,
    let j := argmax_from (Fin b) bi i (map Fin qs) in
    (j = bi /\ forall p q, nth_error qs p = Some q -> q <= b) \/
    (exists p q,
        j = (i + p)%nat /\ nth_error qs p = Some q /\ b < q /\
        (forall p' q', nth_error qs p' = Some q' -> q' <= q) /\
        (forall p' q', (p' < p)%nat -> nth_error qs p' = Some q' -> q' < q)).
Proof.
  induction qs as [|x t IH]; intros b bi i; cbv zeta.
  - left. split; [reflexivity|]. intros [|p] q H; discriminate.
  - cbn [map argmax_from better xgtb]. unfold Qlt_bool.
    destruct (Qle_bool x b) eqn:E; cbn [negb].
    + apply Qle_bool_iff in E.
      destruct (IH b bi (S i)) as [[Hj Hall] | (p & q & Hj & Hp & Hb & Hall & Hfirst)].
      * left. split; [exact Hj|].
        intros [|p] q H; cbn [nth_error] in H.
        -- injection H as <-. exact E.
        -- apply (Hall p q H).
      * right. exists (S p), q. cbn [nth_error].
        refine (conj _ (conj Hp (conj Hb (conj _ _)))).
        -- rewrite Hj. lia.
        -- intros [|p'] q' H; cbn [nth_error] in H.
           ++ injection H as <-. Lqa.lra.
           ++ apply (Hall p' q' H).
        -- intros [|p'] q' Hlt H; cbn [nth_error] in H.
           ++ injection H as <-. Lqa.lra.
           ++ apply (Hfirst p' q'); [lia | exact H].
    + assert (Hlt : b < x).
      { apply Qnot_le_lt. intros H. apply Qle_bool_iff in H. congruence. }
      destruct (IH x i (S i)) as [[Hj Hall] | (p & q & Hj & Hp & Hb & Hall & Hfirst)].
      * right. exists 0%nat, x. cbn [nth_error].
        refine (conj _ (conj eq_refl (conj Hlt (conj _ _)))).
        -- rewrite Hj. lia.
        -- intros [|p'] q' H; cbn [nth_error] in H.
           ++ injection H as <-. apply Qle_refl.
           ++ apply (Hall p' q' H).
        -- intros p' q' Hl. lia.
      * right. exists (S p), q. cbn [nth_error].
        refine (conj _ (conj Hp (conj _ (conj _ _)))).
        -- rewrite Hj. lia.
        -- Lqa.lra.
        -- intros [|p'] q' H; cbn [nth_error] in H.
           ++ injection H as <-. Lqa.lra.
           ++ apply (Hall p' q' H).
        -- intros [|p'] q' Hl H; cbn [nth_error] in H.
           ++ injection H as <-. exact Hb.
           ++ apply (Hfirst p' q'); [lia | exact H].
Qed.

Lemma np_argmax_first_max (qs : list Q) :
  qs <> [] ->
  exists j q,
    np_argmax (map Fin qs) = Ok j /\ nth_error qs j = Some q /\
    (forall p' q', nth_error qs p' = Some q' -> q' <= q) /\
    (forall p' q', (p' < j)%nat -> nth_error qs p' = Some q' -> q' < q).
Proof.
  intros Hne. destruct qs as [|q0 t]; [congruence|].
  cbn [map np_argmax].
  destruct (argmax_from_first_max t q0 0%nat 1%nat)
    as [[Hj Hall] | (p & q & Hj & Hp & Hb & Hall & Hfirst)];
    cbv zeta in Hj; rewrite Hj.
  - exists 0%nat, q0. refine (conj eq_refl (conj eq_refl (conj _ _))).
    + intros [|p'] q' H; cbn [nth_error] in H.
      * injection H as <-. apply Qle_refl.
      * apply (Hall p' q' H).
    + intros p' q' Hl. lia.
  - exists (S p), q. cbn [nth_error].
    refine (conj eq_refl (conj Hp (conj _ _))).
    + intros [|p'] q' H; cbn [nth_error] in H.
      * injection H as <-. Lqa.lra.
      * apply (Hall p' q' H).
    + intros [|p'] q' Hl H; cbn [nth_error] in H.
      * injection H as <-. exact Hb.
      * apply (Hfirst p' q'); [lia | exact H].
Qed.

(** What [best_match] computes on boxes with ordered corners: the largest
    written-out IoU and the first index that reaches it. *)
Lemma best_match_explicit (im_gt : list box) (d : box) :
  im_gt <> [] -> Forall box_ok im_gt -> box_ok d ->
  exists m j g,
    best_match im_gt d = Ok (Fin m, Some j) /\
    nth_error im_gt j = Some g /\
    m == pixel_iou d g /\
    first_best im_gt d j.
Proof.
  intros Hne Hgt Hd.
  assert (Hmap : map (overlap d) im_gt
                 = map Fin (map (pixel_iou d) im_gt)).
  { rewrite map_map. apply map_ext_in. intros g Hg.
    rewrite Forall_forall in Hgt.
    apply overlap_pixel_iou; [exact Hd | apply Hgt; exact Hg]. }
  assert (Hne' : map (pixel_iou d) im_gt <> [])
    by (destruct im_gt; [congruence | discriminate]).
  destruct (np_argmax_first_max _ Hne') as (j & q & Hj & Hq & Hall & Hfirst).
  destruct (nth_error im_gt j) as [g|] eqn:Hg.
  2:{ rewrite nth_error_map, Hg in Hq. discriminate. }
  assert (Eq : q = pixel_iou d g).
  { rewrite nth_error_map, Hg in Hq. injection Hq as <-. reflexivity. }
  subst q.
  assert (Hall' : forall j' g', nth_error im_gt j' = Some g' ->
                    pixel_iou d g' <= pixel_iou d g).
  { intros j' g' H. apply (Hall j'). rewrite nth_error_map, H. reflexivity. }
  assert (Hfirst' : forall j' g', (j' < j)%nat ->
                      nth_error im_gt j' = Some g' ->
                      pixel_iou d g' < pixel_iou d g).
  { intros j' g' Hl H. apply (Hfirst j'); [exact Hl|].
    rewrite nth_error_map, H. reflexivity. }
  destruct (np_max_largest (map (pixel_iou d) im_gt) (pixel_iou d g))
    as (m & Hm & Em).
  { intros y Hy. apply in_map_iff in Hy. destruct Hy as (g' & <- & Hin).
    destruct (In_nth_error _ _ Hin) as (j' & Hj'). apply (Hall' j' g' Hj'). }
  { exists (pixel_iou d g). split; [|apply Qle_refl].
    apply in_map. eapply nth_error_In. exact Hg. }
  exists m, j, g.
  destruct im_gt as [|g0 gt]; [congruence|].
  cbn [best_match]. rewrite Hmap, Hm, Hj. run_bind.
  refine (conj eq_refl (conj Hg (conj Em _))).
  exists g. auto.
Qed.

Lemma first_best_unique (im_gt : list box) (d : box) (j j' : nat) :
  first_best im_gt d j -> first_best im_gt d j' -> j = j'.
Proof.
  intros (g & Hg & Hall & Hfirst) (g' & Hg' & Hall' & Hfirst').
  destruct (Nat.lt_total j j') as [Hlt | [Heq | Hlt]]; [|exact Heq|].
  - pose proof (Hfirst' j g Hlt Hg). pose proof (Hall j' g' Hg').
    exfalso. Lqa.lra.
  - pose proof (Hfirst j' g' Hlt Hg'). pose proof (Hall' j g Hg).
    exfalso. Lqa.lra.
Qed.

(** The model's [target] and [hit] in explicit terms. *)
Lemma target_first_best (im_gt : list box) (d : box) (j : nat) :
  Forall box_ok im_gt -> box_ok d ->
  (target im_gt d = Some j <-> first_best im_gt d j).
Proof.
  intros Hgt Hd.
  destruct im_gt as [|g0 gt].
  - split.
    + unfold target. cbn [best_match]. discriminate.
    + intros (g & Hg & _). destruct j; discriminate.
  - destruct (best_match_explicit (g0 :: gt) d ltac:(discriminate) Hgt Hd)
      as (m & j0 & g & E & Hg & Em & Hbest).
    unfold target. rewrite E. split.
    + intros H. injection H as <-. exact Hbest.
    + intros H. f_equal. apply (first_best_unique _ _ _ _ Hbest H).
Qed.

Lemma hit_explicit (im_gt : list box) (ovthresh : Q) (d : box) :
  Forall box_ok im_gt -> box_ok d ->
  (hit im_gt ovthresh d = true <->
   exists j g, first_best im_gt d j /\ nth_error im_gt j = Some g /\
               ovthresh < pixel_iou d g).
Proof.
  intros Hgt Hd.
  destruct im_gt as [|g0 gt].
  - split.
    + unfold hit. cbn [best_match xgtb]. discriminate.
    + intros (j & g & _ & Hg & _). destruct j; discriminate.
  - destruct (best_match_explicit (g0 :: gt) d ltac:(discriminate) Hgt Hd)
      as (m & j0 & g & E & Hg & Em & Hbest).
    unfold hit. rewrite E. cbn [xgtb]. unfold Qlt_bool. split.
    + intros H. exists j0, g. refine (conj Hbest (conj Hg _)).
      apply negb_true_iff in H.
      apply Qnot_le_lt. intros Hle.
      assert (Hb : Qle_bool m ovthresh = true)
        by (apply Qle_bool_iff; Lqa.lra).
      congruence.
    + intros (j & g' & Hbest' & Hg' & Hlt).
      assert (j = j0) by (apply (first_best_unique _ _ _ _ Hbest' Hbest)).
      subst j. rewrite Hg in Hg'. injection Hg' as <-.
      apply negb_true_iff.
      destruct (Qle_bool m ovthresh) eqn:Hb; [|reflexivity].
      apply Qle_bool_iff in Hb. exfalso. Lqa.lra.
Qed.

Lemma claimed_before_explicit (im_gt im_det : list box) (tp : list Q)
      (i j : nat) :
  Forall box_ok im_gt -> Forall box_ok im_det ->
  (claimed_before im_gt im_det tp i (Some j) <->
   exists k dk, (k < i)%nat /\ nth_error im_det k = Some dk /\
                nth k tp 0 = 1 /\ first_best im_gt dk j).
Proof.
  intros Hgt Hdet. rewrite Forall_forall in Hdet.
  unfold claimed_before. split.
  - intros (k & dk & Hk & Hn & Ht & Htgt). exists k, dk.
    refine (conj Hk (conj Hn (conj Ht _))).
    apply target_first_best; auto. apply Hdet. eapply nth_error_In; eauto.
  - intros (k & dk & Hk & Hn & Ht & Hb). exists k, dk.
    refine (conj Hk (conj Hn (conj Ht _))).
    apply target_first_best; auto. apply Hdet. eapply nth_error_In; eauto.
Qed.

(** The result of the matcher on boxes with ordered corners, in explicit
    terms. *)
Lemma matcher_explicit (im_gt im_det : list box) (ovthresh : Q) :
  Forall box_ok im_gt -> Forall box_ok im_det ->
  exists r,
    tp_and_fp_of_detection im_gt im_det ovthresh = Ok r /\
    (forall i d, nth_error im_det i = Some d ->
       (nth i (im_tp r) 0 = 1 /\ nth i (im_fp r) 0 = 0) \/
       (nth i (im_tp r) 0 = 0 /\ nth i (im_fp r) 0 = 1)) /\
    (forall i d, nth_error im_det i = Some d ->
       (nth i (im_tp r) 0 = 1 <->
        exists j g,
          first_best im_gt d j /\ nth_error im_gt j = Some g /\
          ovthresh < pixel_iou d g /\
          forall k dk, (k < i)%nat -> nth_error im_det k = Some dk ->
                       nth k (im_tp r) 0 = 1 -> ~ first_best im_gt dk j)) /\
    (forall j, (j < length im_gt)%nat ->
       (nth j (found r) 0 = 1 <->
        exists i d, nth_error im_det i = Some d /\
                    nth i (im_tp r) 0 = 1 /\ first_best im_gt d j)) /\
    (forall j, (j < length im_gt)%nat ->
       nth j (found r) 0 = 0 \/ nth j (found r) 0 = 1).
Proof.
  intros Hgt Hdet.
  destruct (tp_and_fp_of_detection_inv im_gt im_det ovthresh)
    as (r & E & Hinv).
  exists r. split; [exact E|].
  pose proof (inv_done _ _ _ _ _ Hinv) as Hdone.
  pose proof (inv_found _ _ _ _ _ Hinv) as Hfound.
  assert (Hok : forall i d, nth_error im_det i = Some d -> box_ok d).
  { intros i d H. rewrite Forall_forall in Hdet. apply Hdet.
    eapply nth_error_In; eauto. }
  refine (conj _ (conj _ (conj _ _))).
  - intros i d Hd.
    destruct (Hdone i d Hd) as [(T & F & _) | (T & F & _)]; auto.
  - intros i d Hd. pose proof (Hok i d Hd) as Hbd. split.
    + intros T1.
      destruct (Hdone i d Hd) as [(_ & _ & Hh & Hfree) | (T0 & _)].
      2:{ rewrite T0 in T1. discriminate. }
      apply (hit_explicit im_gt ovthresh d Hgt Hbd) in Hh.
      destruct Hh as (j & g & Hb & Hg & Hlt).
      exists j, g. refine (conj Hb (conj Hg (conj Hlt _))).
      intros k dk Hk Hdk Tk Hbk. apply Hfree.
      apply (proj2 (target_first_best im_gt d j Hgt Hbd)) in Hb.
      rewrite Hb. apply claimed_before_explicit; auto.
      exists k, dk. auto.
    + intros (j & g & Hb & Hg & Hlt & Hnone).
      destruct (Hdone i d Hd) as [(T1 & _) | (_ & _ & [Hh | Hc])];
        [exact T1 | |].
      * exfalso.
        assert (Hhit : hit im_gt ovthresh d = true).
        { apply hit_explicit; auto. exists j, g. auto. }
        congruence.
      * exfalso.
        rewrite (proj2 (target_first_best im_gt d j Hgt Hbd) Hb) in Hc.
        apply claimed_before_explicit in Hc; auto.
        destruct Hc as (k & dk & Hk & Hdk & Tk & Hbk).
        apply (Hnone k dk Hk Hdk Tk Hbk).
  - intros j Hj. split.
    + intros F1.
      destruct (Hfound j Hj) as [[_ Hc] | [F0 _]].
      2:{ rewrite F0 in F1. discriminate. }
      apply claimed_before_explicit in Hc; auto.
      destruct Hc as (k & dk & _ & Hdk & Tk & Hbk).
      exists k, dk. auto.
    + intros (i & d & Hd & T1 & Hb).
      destruct (Hfound j Hj) as [[F1 _] | [_ Hnc]]; [exact F1|].
      exfalso. apply Hnc. apply claimed_before_explicit; auto.
      exists i, d. repeat split; auto.
      apply nth_error_Some. congruence.
  - intros j Hj.
    destruct (Hfound j Hj) as [[F1 _] | [F0 _]]; auto.
Qed.

(** C1.  The matcher returns on every ground-truth array and detection
    array; every detection is flagged as exactly one of true positive and
    false positive, every ground-truth box is flagged 0 or 1 in [found],
    as many ground-truth boxes are claimed as there are true positives,
    and two true positives never share the ground-truth index of their
    maximum IoU.  On boxes with ordered corners, in detection order:
    detection [i] is a true positive exactly when the ground-truth box of
    largest pixel-inclusive IoU with it (the first such box) has an IoU
    strictly above the threshold and is the best match of no earlier true
    positive; a detection whose best match is claimed by an earlier true
    positive is a false positive; two true positives never share their
    best match; a box is claimed exactly when it is the best match of a
    true positive.  With ground truth [[0,0,10,10]] and two detections
    [[0,0,10,10]] at threshold 0.5 the first is TP and the second FP; an
    IoU of exactly 0.5 does not exceed the threshold 0.5; of two
    ground-truth boxes the one of larger IoU is claimed, of two equal ones
    the first. *)
Theorem C1_ground_truth_claimed_once
        (im_gt im_det : list box) (ovthresh : Q) :
  (exists r,
    tp_and_fp_of_detection im_gt im_det ovthresh = Ok r /\
    (forall i d, nth_error im_det i = Some d ->
       (nth i (im_tp r) 0 = 1 /\ nth i (im_fp r) 0 = 0) \/
       (nth i (im_tp r) 0 = 0 /\ nth i (im_fp r) 0 = 1)) /\
    (forall j, (j < length im_gt)%nat ->
       nth j (found r) 0 = 0 \/ nth j (found r) 0 = 1) /\
    count_ones (found r) = count_ones (im_tp r) /\
    (forall i k di dk,
        nth_error im_det i = Some di -> nth_error im_det k = Some dk ->
        nth i (im_tp r) 0 = 1 -> nth k (im_tp r) 0 = 1 ->
        target im_gt di = target im_gt dk -> i = k) /\
    (Forall box_ok im_gt -> Forall box_ok im_det ->
     (forall i d, nth_error im_det i = Some d ->
        (nth i (im_tp r) 0 = 1 <->
         exists j g,
           first_best im_gt d j /\ nth_error im_gt j = Some g /\
           ovthresh < pixel_iou d g /\
           forall k dk, (k < i)%nat -> nth_error im_det k = Some dk ->
                        nth k (im_tp r) 0 = 1 -> ~ first_best im_gt dk j)) /\
     (forall i k di dk j,
         nth_error im_det i = Some di -> nth_error im_det k = Some dk ->
         nth i (im_tp r) 0 = 1 -> nth k (im_tp r) 0 = 1 ->
         first_best im_gt di j -> first_best im_gt dk j -> i = k) /\
     (forall i k d dk j,
         nth_error im_det i = Some d -> nth_error im_det k = Some dk ->
         (k < i)%nat -> nth k (im_tp r) 0 = 1 ->
         first_best im_gt dk j -> first_best im_gt d j ->
         nth i (im_tp r) 0 = 0 /\ nth i (im_fp r) 0 = 1) /\
     (forall j, (j < length im_gt)%nat ->
        (nth j (found r) 0 = 1 <->
         exists i d, nth_error im_det i = Some d /\
                     nth i (im_tp r) 0 = 1 /\ first_best im_gt d j)))) /\
  tp_and_fp_of_detection [mkBox 0 0 10 10]
    [mkBox 0 0 10 10; mkBox 0 0 10 10] 0.5
  = Ok (mkFlags [1] [1; 0] [0; 1]) /\
  pixel_iou (mkBox 0 0 9 4) (mkBox 0 0 9 9) == 0.5 /\
  tp_and_fp_of_detection [mkBox 0 0 9 9] [mkBox 0 0 9 4] 0.5
  = Ok (mkFlags [0] [0] [1]) /\
  tp_and_fp_of_detection [mkBox 0 0 9 9] [mkBox 0 0 9 4] 0.49
  = Ok (mkFlags [1] [1] [0]) /\
  tp_and_fp_of_detection [mkBox 0 0 9 4; mkBox 0 0 9 9] [mkBox 0 0 9 9] 0.4
  = Ok (mkFlags [0; 1] [1] [0]) /\
  tp_and_fp_of_detection [mkBox 0 0 9 9; mkBox 0 0 9 9] [mkBox 0 0 9 9] 0.5
  = Ok (mkFlags [1; 0] [1] [0]).
Proof.
  split.
  - destruct (tp_and_fp_of_detection_inv im_gt im_det ovthresh)
      as (r & E & Hinv).
    exists r. split; [exact E|].
    pose proof (inv_done _ _ _ _ _ Hinv) as Hdone.
    pose proof (inv_found _ _ _ _ _ Hinv) as Hfnd.
    refine (conj _ (conj _ (conj (inv_count _ _ _ _ _ Hinv) (conj _ _)))).
    + intros i d Hd.
      destruct (Hdone i d Hd) as [(T & F & _) | (T & F & _)]; auto.
    + intros j Hj.
      destruct (Hfnd j Hj) as [[F1 _] | [F0 _]]; auto.
    + assert (Hshare : forall i k di dk,
                 (i < k)%nat ->
                 nth_error im_det i = Some di -> nth_error im_det k = Some dk ->
                 nth i (im_tp r) 0 = 1 -> nth k (im_tp r) 0 = 1 ->
                 target im_gt di = target im_gt dk -> False).
      { intros i k di dk Hik Hi Hk Ti Tk Heq.
        destruct (Hdone k dk Hk) as [(_ & _ & _ & Hfree) | (T0 & _)].
        - apply Hfree. exists i, di. auto.
        - rewrite T0 in Tk. discriminate. }
      intros i k di dk Hi Hk Ti Tk Heq.
      destruct (Nat.lt_total i k) as [Hlt | [-> | Hlt]]; [|reflexivity|].
      * exfalso. exact (Hshare i k di dk Hlt Hi Hk Ti Tk Heq).
      * exfalso. exact (Hshare k i dk di Hlt Hk Hi Tk Ti (eq_sym Heq)).
    + intros Hgt Hdet.
      destruct (matcher_explicit im_gt im_det ovthresh Hgt Hdet)
        as (r' & E' & Hbits & Htp & Hfound & _).
      assert (r' = r) by congruence. subst r'.
      refine (conj Htp (conj _ (conj _ Hfound))).
      * assert (Hone : forall i k di dk j,
                   (i < k)%nat ->
                   nth_error im_det i = Some di ->
                   nth_error im_det k = Some dk ->
                   nth i (im_tp r) 0 = 1 -> nth k (im_tp r) 0 = 1 ->
                   first_best im_gt di j -> first_best im_gt dk j -> False).
        { intros i k di dk j Hik Hi Hk Ti Tk Hbi Hbk.
          apply (Htp k dk Hk) in Tk.
          destruct Tk as (j' & g & Hb' & _ & _ & Hnone).
          assert (j' = j) by (apply (first_best_unique _ _ _ _ Hb' Hbk)).
          subst j'. apply (Hnone i di Hik Hi Ti Hbi). }
        intros i k di dk j Hi Hk Ti Tk Hbi Hbk.
        destruct (Nat.lt_total i k) as [Hlt | [-> | Hlt]]; [|reflexivity|].
        -- exfalso. apply (Hone i k di dk j Hlt Hi Hk Ti Tk Hbi Hbk).
        -- exfalso. apply (Hone k i dk di j Hlt Hk Hi Tk Ti Hbk Hbi).
      * intros i k d dk j Hd Hdk Hki Tk Hbk Hb.
        destruct (Hbits i d Hd) as [[T1 _] | H0]; [|exact H0].
        exfalso. apply (Htp i d Hd) in T1.
        destruct T1 as (j' & g & Hb' & _ & _ & Hnone).
        assert (j' = j) by (apply (first_best_unique _ _ _ _ Hb' Hb)).
        subst j'. apply (Hnone k dk Hki Hdk Tk Hbk).
  - vm_compute. repeat split; reflexivity || discriminate.
Qed.

Lemma C1_ground_truth_claimed_once_witness :
  Forall box_ok [mkBox 0 0 10 10] /\
  Forall box_ok [mkBox 0 0 10 10; mkBox 0 0 10 10] /\
  exists r,
    tp_and_fp_of_detection [mkBox 0 0 10 10]
      [mkBox 0 0 10 10; mkBox 0 0 10 10] 0.5 = Ok r /\
    (forall i k di dk j,
        nth_error [mkBox 0 0 10 10; mkBox 0 0 10 10] i = Some di ->
        nth_error [mkBox 0 0 10 10; mkBox 0 0 10 10] k = Some dk ->
        nth i (im_tp r) 0 = 1 -> nth k (im_tp r) 0 = 1 ->
        first_best [mkBox 0 0 10 10] di j ->
        first_best [mkBox 0 0 10 10] dk j -> i = k).
Proof.
  assert (H1 : Forall box_ok [mkBox 0 0 10 10]).
  { repeat constructor; simpl; Lqa.lra. }
  assert (H2 : Forall box_ok [mkBox 0 0 10 10; mkBox 0 0 10 10]).
  { repeat constructor; simpl; Lqa.lra. }
  split; [exact H1 | split; [exact H2 |]].
  destruct (C1_ground_truth_claimed_once
              [mkBox 0 0 10 10] [mkBox 0 0 10 10; mkBox 0 0 10 10] 0.5)
    as [(r & E & _ & _ & _ & _ & Hexp) _].
  destruct (Hexp H1 H2) as (_ & Hone & _).
  exists r. split; [exact E | exact Hone].
Defined.

(** X1.  On boxes with ordered corners, ground-truth box [j] is flagged in
    [found] exactly when some detection has it as the first ground-truth
    box of largest pixel-inclusive IoU and that IoU is strictly above the
    threshold; every other flag is 0.  Two boxes that share one pixel
    column have IoU 1/19 and are matched at threshold 0.05; a detection
    covering half of the second of two ground-truth boxes claims the
    second one at threshold 0.25 and none at threshold 0.5. *)
Theorem found_iff_best_match_of_a_hit
        (im_gt im_det : list box) (ovthresh : Q)
        (Hgt : Forall box_ok im_gt) (Hdet : Forall box_ok im_det) :
  (exists r,
    tp_and_fp_of_detection im_gt im_det ovthresh = Ok r /\
    length (found r) = length im_gt /\
    forall j, (j < length im_gt)%nat ->
      (nth j (found r) 0 = 0 \/ nth j (found r) 0 = 1) /\
      (nth j (found r) 0 = 1 <->
       exists d g, In d im_det /\ first_best im_gt d j /\
                   nth_error im_gt j = Some g /\
                   ovthresh < pixel_iou d g)) /\
  pixel_iou (mkBox 9 0 18 9) (mkBox 0 0 9 9) == 1 # 19 /\
  tp_and_fp_of_detection [mkBox 0 0 9 9] [mkBox 9 0 18 9] 0.05
  = Ok (mkFlags [1] [1] [0]) /\
  tp_and_fp_of_detection [mkBox 0 0 9 9; mkBox 10 0 19 9]
    [mkBox 10 0 19 4] 0.25
  = Ok (mkFlags [0; 1] [1] [0]) /\
  tp_and_fp_of_detection [mkBox 0 0 9 9; mkBox 10 0 19 9]
    [mkBox 10 0 19 4] 0.5
  = Ok (mkFlags [0; 0] [0] [1]).
Proof.
  split.
  - destruct (tp_and_fp_of_detection_inv im_gt im_det ovthresh)
      as (r & E & Hinv).
    exists r. refine (conj E (conj (inv_len_found _ _ _ _ _ Hinv) _)).
    intros j Hj.
    destruct (found_characterised _ _ _ _ Hinv j Hj) as [Hbit Hiff].
    split; [exact Hbit|].
    rewrite Hiff. rewrite Forall_forall in Hdet. split.
    + intros (d & Hin & Hh & Ht).
      pose proof (Hdet d Hin) as Hd.
      apply (target_first_best im_gt d j Hgt Hd) in Ht.
      apply (hit_explicit im_gt ovthresh d Hgt Hd) in Hh.
      destruct Hh as (j' & g & Hb & Hg & Hlt).
      assert (j' = j) by (apply (first_best_unique _ _ _ _ Hb Ht)).
      subst j'. exists d, g. auto.
    + intros (d & g & Hin & Hb & Hg & Hlt).
      pose proof (Hdet d Hin) as Hd.
      exists d. split; [exact Hin|]. split.
      * apply (hit_explicit im_gt ovthresh d Hgt Hd). exists j, g. auto.
      * apply (target_first_best im_gt d j Hgt Hd). exact Hb.
  - vm_compute. repeat split; reflexivity || discriminate.
Qed.

Lemma found_iff_best_match_of_a_hit_witness :
  Forall box_ok [mkBox 0 0 9 9; mkBox 10 0 19 9] /\
  Forall box_ok [mkBox 10 0 19 4] /\
  exists r,
    tp_and_fp_of_detection [mkBox 0 0 9 9; mkBox 10 0 19 9]
      [mkBox 10 0 19 4] 0.25 = Ok r /\
    length (found r) = 2%nat.
Proof.
  assert (H1 : Forall box_ok [mkBox 0 0 9 9; mkBox 10 0 19 9]).
  { repeat constructor; simpl; Lqa.lra. }
  assert (H2 : Forall box_ok [mkBox 10 0 19 4]).
  { repeat constructor; simpl; Lqa.lra. }
  split; [exact H1 | split; [exact H2 |]].
  destruct (found_iff_best_match_of_a_hit
              [mkBox 0 0 9 9; mkBox 10 0 19 9] [mkBox 10 0 19 4] 0.25
              H1 H2) as [(r & E & Hlen & _) _].
  exists r. split; [exact E | exact Hlen].
Defined.

(** X6.  When the ground-truth boxes have ordered corners, a detection
    that coincides with one of them has a largest pixel-inclusive IoU of
    exactly 1, which is strictly above every threshold below 1: the first
    ground-truth box of IoU 1 ends up flagged in [found] and the frame has
    at least one true positive.  The bound is sharp: at threshold 0.99 a
    coinciding detection is a true positive, at threshold 1 it is a false
    positive. *)
Theorem exact_detection_is_matched
        (im_gt im_det : list box) (ovthresh : Q) (d : box)
        (Hgt : Forall box_ok im_gt)
        (Hin_gt : In d im_gt) (Hin_det : In d im_det)
        (Hth : ovthresh < 1) :
  (exists r j g,
    tp_and_fp_of_detection im_gt im_det ovthresh = Ok r /\
    first_best im_gt d j /\
    nth_error im_gt j = Some g /\
    pixel_iou d g == 1 /\
    ovthresh < pixel_iou d g /\
    nth j (found r) 0 = 1 /\
    (1 <= count_ones (im_tp r))%nat) /\
  tp_and_fp_of_detection [mkBox 2 3 7 11] [mkBox 2 3 7 11] 0.99
  = Ok (mkFlags [1] [1] [0]) /\
  tp_and_fp_of_detection [mkBox 2 3 7 11] [mkBox 2 3 7 11] 1
  = Ok (mkFlags [0] [0] [1]).
Proof.
  split; [|split; reflexivity].
  destruct (tp_and_fp_of_detection_inv im_gt im_det ovthresh)
    as (r & E & Hinv).
  assert (Hall : forall b, In b im_gt -> box_ok b).
  { apply Forall_forall. exact Hgt. }
  pose proof (Hall d Hin_gt) as Hd.
  assert (Hne : im_gt <> [])
    by (destruct im_gt; [destruct Hin_gt | discriminate]).
  destruct (best_match_explicit im_gt d Hne Hgt Hd)
    as (m & j & g & Eb & Hg & Hm & Hb).
  assert (Hone : pixel_iou d g == 1).
  { pose proof (nth_error_In _ _ Hg) as Hgin.
    destruct (overlap_range d g Hd (Hall g Hgin)) as (q & Eq & _ & Hq1).
    rewrite (overlap_pixel_iou d g Hd (Hall g Hgin)) in Eq.
    injection Eq as Eq.
    destruct (overlap_with_itself d Hd) as (q' & Eq' & Hq').
    rewrite (overlap_pixel_iou d d Hd Hd) in Eq'.
    injection Eq' as Eq'.
    destruct Hb as (g' & Hg' & Hmax & _).
    assert (g' = g) by congruence. subst g'.
    destruct (In_nth_error _ _ Hin_gt) as (jd & Hjd).
    pose proof (Hmax jd d Hjd) as Hle.
    subst q q'.
    apply Qle_antisym; [exact Hq1 | exact (Qle_trans _ _ _ Hq' Hle)]. }
  assert (Hlt : ovthresh < pixel_iou d g) by (rewrite Hone; exact Hth).
  assert (Hj : (j < length im_gt)%nat)
    by (apply nth_error_Some; congruence).
  assert (F1 : nth j (found r) 0 = 1).
  { apply (found_characterised _ _ _ _ Hinv j Hj). exists d.
    split; [exact Hin_det|]. split.
    - apply (hit_explicit im_gt ovthresh d Hgt Hd). exists j, g. auto.
    - apply (target_first_best im_gt d j Hgt Hd). exact Hb. }
  exists r, j, g.
  refine (conj E (conj Hb (conj Hg (conj Hone (conj Hlt (conj F1 _)))))).
  rewrite <- (inv_count _ _ _ _ _ Hinv).
  apply (count_ones_pos _ j F1).
Qed.

Lemma exact_detection_is_matched_witness :
  Forall box_ok [mkBox 0 0 10 10; mkBox 20 20 30 30] /\
  0.5 < 1 /\
  exists r j g,
    tp_and_fp_of_detection [mkBox 0 0 10 10; mkBox 20 20 30 30]
      [mkBox 1 1 5 5; mkBox 20 20 30 30] 0.5 = Ok r /\
    first_best [mkBox 0 0 10 10; mkBox 20 20 30 30]
               (mkBox 20 20 30 30) j /\
    nth_error [mkBox 0 0 10 10; mkBox 20 20 30 30] j = Some g /\
    nth j (found r) 0 = 1.
Proof.
  assert (H1 : Forall box_ok [mkBox 0 0 10 10; mkBox 20 20 30 30]).
  { repeat constructor; simpl; Lqa.lra. }
  assert (H2 : 0.5 < 1) by reflexivity.
  split; [exact H1 | split; [exact H2 |]].
  destruct (exact_detection_is_matched
              [mkBox 0 0 10 10; mkBox 20 20 30 30]
              [mkBox 1 1 5 5; mkBox 20 20 30 30] 0.5 (mkBox 20 20 30 30)
              H1 (or_intror (or_introl eq_refl))
              (or_intror (or_introl eq_refl)) H2)
    as [(r & j & g & E & Hb & Hg & _ & _ & F1 & _) _].
  exists r, j, g. auto.
Defined.

End ExplicitMatching.
